(** * rusty-utils: the Result and Option modules

    A shallow embedding of [src/result/types.ts], [src/result/utils.ts],
    [src/option/types.ts] and [src/option/utils.ts], and of the helpers
    of [src/functional/index.ts] that work on arrays and callbacks.

    The library is written in TypeScript and runs as JavaScript.  Three
    features of the host matter for what the specification says about
    it, and the embedding keeps all three:

    - containers are heap objects with an identity: a combinator either
      allocates a new object literal or hands back a reference it was
      given;
    - [throw] and [try]/[catch]: callbacks are ordinary functions that
      may throw, and [unwrap]/[expect]/[tryCatch] produce or capture
      thrown values;
    - [await] on a promise inside an [async] function.

    Generic type parameters are erased at run time, so every payload is
    a JavaScript value [val]. *)

From Stdlib Require Import ZArith Ascii String List Lia.
From stdpp Require Import base list strings pretty gmap.

Open Scope string_scope.
Open Scope list_scope.

(** ** Values and objects *)

Definition loc := nat.

(** JavaScript values.  Numbers are restricted to the integral ones;
    the library never computes with them. *)
Inductive val : Type :=
| VUndefined
| VNull
| VBool (b : bool)
| VNumber (n : Z)
| VString (s : string)
| VBigInt (n : Z)
| VRef (l : loc).

#[global] Instance val_eq_dec : EqDecision val.
Proof. solve_decision. Defined.

(** The state of a promise. *)
Inductive pstate : Type :=
| Pending
| Fulfilled (v : val)
| Rejected (reason : val).

(** Heap objects.  The first four are the object literals of the two
    [types.ts] files:
    [{ _tag: 'Ok', value }], [{ _tag: 'Err', error }],
    [{ _tag: 'Some', value }] and [{ _tag: 'None' }].
    The others are the host objects the library touches. *)
Inductive obj : Type :=
| OkObj (value : val)
| ErrObj (error : val)
| SomeObj (value : val)
| NoneObj
| ErrorObj (name message : string)
| ArrayObj (elems : list val)
| PromiseObj (st : pstate)
| PlainObj.

(** The program state: the object heap, and the record of calls kept by
    the test stubs ([jest.fn()]) that wrap a callback. *)
Record state : Type := mkState {
  heap : list obj;
  calls : list (string * val)
}.

Definition set_heap (h : list obj) (σ : state) : state :=
  {| heap := h; calls := calls σ |}.

(** ** Completions and the monad of synchronous code *)

Inductive completion (A : Type) : Type :=
| Normal (a : A)
| Throw (x : val).
Arguments Normal {A} a.
Arguments Throw {A} x.

Definition M (A : Type) : Type := state -> completion A * state.

Definition ret {A} (a : A) : M A := fun σ => (Normal a, σ).

Definition throw {A} (x : val) : M A := fun σ => (Throw x, σ).

Definition bind {A B} (m : M A) (k : A -> M B) : M B :=
  fun σ =>
    match m σ with
    | (Normal a, σ') => k a σ'
    | (Throw x, σ') => (Throw x, σ')
    end.

(** [try { body } catch (x) { handler x }] *)
Definition try_catch {A} (body : M A) (handler : val -> M A) : M A :=
  fun σ =>
    match body σ with
    | (Normal a, σ') => (Normal a, σ')
    | (Throw x, σ') => handler x σ'
    end.

Declare Scope js_scope.
Delimit Scope js_scope with js.
Notation "x <- m ;; k" := (bind m (fun x => k))
  (at level 100, m at next level, right associativity) : js_scope.
Notation "m ;;; k" := (bind m (fun _ => k))
  (at level 100, right associativity) : js_scope.
Open Scope js_scope.

(** ** Host primitives *)

(** An object literal or [new] expression: a fresh location. *)
Definition alloc (o : obj) : M val :=
  fun σ => (Normal (VRef (length (heap σ))), set_heap (heap σ ++ [o]) σ).

(** The object at a location.  Every reference of a running program is
    allocated; for the others the embedding answers with an object
    that has none of the properties of interest. *)
Definition deref (l : loc) : M obj :=
  fun σ => (Normal (default PlainObj (heap σ !! l)), σ).

(** [throw new C(message)] for an error class [C]. *)
Definition throw_new {A} (name message : string) : M A :=
  e <- alloc (ErrorObj name message) ;; throw e.

(** The properties the library reads, and the [message] of an error. *)
Definition prop_tag (o : obj) : val :=
  match o with
  | OkObj _ => VString "Ok"
  | ErrObj _ => VString "Err"
  | SomeObj _ => VString "Some"
  | NoneObj => VString "None"
  | _ => VUndefined
  end.

Definition prop_value (o : obj) : val :=
  match o with
  | OkObj v | SomeObj v => v
  | _ => VUndefined
  end.

Definition prop_error (o : obj) : val :=
  match o with
  | ErrObj e => e
  | _ => VUndefined
  end.

Definition prop_message (o : obj) : val :=
  match o with
  | ErrorObj _ m => VString m
  | _ => VUndefined
  end.

(** Member access [v._tag], [v.value], [v.error], [v.message]: a
    TypeError on [null] and [undefined], [undefined] on the other
    primitives and for a property the object does not have.  (The text
    of the message is the engine's.) *)
Definition get (p : obj -> val) (v : val) : M val :=
  match v with
  | VUndefined | VNull =>
      throw_new "TypeError" "Cannot read properties of null or undefined"
  | VRef l => o <- deref l ;; ret (p o)
  | _ => ret VUndefined
  end.

(** [a === b] *)
Definition strict_eq (a b : val) : bool := bool_decide (a = b).

(** [e instanceof Error] *)
Definition instanceof_Error (e : val) : M bool :=
  match e with
  | VRef l =>
      o <- deref l ;;
      ret (match o with ErrorObj _ _ => true | _ => false end)
  | _ => ret false
  end.

(** What the host supplies to [JSON.stringify] beyond the cases
    ECMAScript fixes for primitives: the decimal rendering of a number,
    the quoting of a string, and the serialisation of an object (which
    may run user [toJSON] code and throws on a cyclic structure). *)
Record Host : Type := mkHost {
  NumberToString : Z -> string;
  QuoteJSONString : string -> string;
  SerializeJSONObject : loc -> M (option string)
}.

(** [JSON.stringify(v)]: a string, or [undefined] (here [None]). *)
Definition JSON_stringify (h : Host) (v : val) : M (option string) :=
  match v with
  | VUndefined => ret None
  | VNull => ret (Some "null")
  | VBool true => ret (Some "true")
  | VBool false => ret (Some "false")
  | VNumber n => ret (Some (NumberToString h n))
  | VString s => ret (Some (QuoteJSONString h s))
  | VBigInt _ => throw_new "TypeError" "Do not know how to serialize a BigInt"
  | VRef l => SerializeJSONObject h l
  end.

(** A substitution [${e}] of a template literal, for the result of
    [JSON.stringify]. *)
Definition template_part (r : option string) : string :=
  match r with
  | Some s => s
  | None => "undefined"
  end.

(** The elements a [for (const x of arr)] loop visits.  The operand has
    an array type; on anything else the embedding throws the TypeError
    of a value that is not iterable. *)
Definition iterate (arr : val) : M (list val) :=
  match arr with
  | VRef l =>
      o <- deref l ;;
      match o with
      | ArrayObj es => ret es
      | _ => throw_new "TypeError" "object is not iterable"
      end
  | _ => throw_new "TypeError" "value is not iterable"
  end.

(** [arr.push(x)] *)
Definition push (arr : val) (x : val) : M unit :=
  match arr with
  | VRef l =>
      o <- deref l ;;
      match o with
      | ArrayObj es =>
          fun σ => (Normal tt, set_heap (<[l := ArrayObj (es ++ [x])]> (heap σ)) σ)
      | _ => throw_new "TypeError" "push is not a function"
      end
  | _ => throw_new "TypeError" "push is not a function"
  end.

(** A call-recording stub around a callback, as [jest.fn(f)]. *)
Definition spy {A} (name : string) (f : val -> M A) : val -> M A :=
  fun v σ => f v {| heap := heap σ; calls := calls σ ++ [(name, v)] |}.

(** ** Asynchronous code

    An [async] function body runs until an [await] whose operand is not
    settled; the promise the function returned then stays pending.  The
    host's scheduler is abstracted to this: a body is run against the
    promises as they stand, and no other code runs in between. *)

Inductive outcome (A : Type) : Type :=
| Returned (a : A)
| Thrown (x : val)
| Suspended.
Arguments Returned {A} a.
Arguments Thrown {A} x.
Arguments Suspended {A}.

Definition Async (A : Type) : Type := state -> outcome A * state.

Definition aret {A} (a : A) : Async A := fun σ => (Returned a, σ).

Definition abind {A B} (m : Async A) (k : A -> Async B) : Async B :=
  fun σ =>
    match m σ with
    | (Returned a, σ') => k a σ'
    | (Thrown x, σ') => (Thrown x, σ')
    | (Suspended, σ') => (Suspended, σ')
    end.

(** Synchronous code inside an [async] body. *)
Definition lift {A} (m : M A) : Async A :=
  fun σ =>
    match m σ with
    | (Normal a, σ') => (Returned a, σ')
    | (Throw x, σ') => (Thrown x, σ')
    end.

Definition atry_catch {A} (body : Async A) (handler : val -> Async A) : Async A :=
  fun σ =>
    match body σ with
    | (Thrown x, σ') => handler x σ'
    | r => r
    end.

Notation "x <~ m ;; k" := (abind m (fun x => k))
  (at level 100, m at next level, right associativity) : js_scope.

(** The state a value stands for when it is awaited or resolved with:
    a promise stands for its own state, anything else is a fulfilment. *)
Definition settled (h : list obj) (v : val) : pstate :=
  match v with
  | VRef l =>
      match h !! l with
      | Some (PromiseObj st) => st
      | _ => Fulfilled v
      end
  | _ => Fulfilled v
  end.

(** [await v] *)
Definition await (v : val) : Async val :=
  fun σ =>
    match settled (heap σ) v with
    | Fulfilled a => (Returned a, σ)
    | Rejected x => (Thrown x, σ)
    | Pending => (Suspended, σ)
    end.

(** [async () => body]: the call never throws; it returns a promise
    that is resolved with what the body returns, rejected with what it
    throws, and pending while the body is suspended.  (Locations are
    identities only: that the promise gets its location after the
    objects the body creates is of no consequence.) *)
Definition async (body : Async val) : M val :=
  fun σ =>
    match body σ with
    | (Returned v, σ') => alloc (PromiseObj (settled (heap σ') v)) σ'
    | (Thrown x, σ') => alloc (PromiseObj (Rejected x)) σ'
    | (Suspended, σ') => alloc (PromiseObj Pending) σ'
    end.

(** [Promise.all]: rejected with the reason of the first rejected
    element; otherwise pending if an element is; otherwise fulfilled
    with a new array of the elements' values, in index order. *)
Fixpoint first_rejected (sts : list pstate) : option val :=
  match sts with
  | [] => None
  | Rejected x :: _ => Some x
  | _ :: rest => first_rejected rest
  end.

Fixpoint all_fulfilled (sts : list pstate) : option (list val) :=
  match sts with
  | [] => Some []
  | Fulfilled v :: rest =>
      match all_fulfilled rest with
      | Some vs => Some (v :: vs)
      | None => None
      end
  | _ :: _ => None
  end.

Definition Promise_all (arr : val) : M val :=
  try_catch
    (es <- iterate arr ;;
     fun σ =>
       let sts := List.map (settled (heap σ)) es in
       match first_rejected sts with
       | Some x => alloc (PromiseObj (Rejected x)) σ
       | None =>
           match all_fulfilled sts with
           | Some vs =>
               (a <- alloc (ArrayObj vs) ;; alloc (PromiseObj (Fulfilled a))) σ
           | None => alloc (PromiseObj Pending) σ
           end
       end)
    (fun x => alloc (PromiseObj (Rejected x))).

(** ** src/result/types.ts and src/result/utils.ts *)

Module Result.

Definition ok (value : val) : M val := alloc (OkObj value).

Definition err (error : val) : M val := alloc (ErrObj error).

Definition isOk (result : val) : M bool :=
  t <- get prop_tag result ;; ret (strict_eq t (VString "Ok")).

Definition isErr (result : val) : M bool :=
  t <- get prop_tag result ;; ret (strict_eq t (VString "Err")).

Definition map (result : val) (fn : val -> M val) : M val :=
  b <- isOk result ;;
  if b then (v <- get prop_value result ;; u <- fn v ;; ok u) else ret result.

Definition mapErr (result : val) (fn : val -> M val) : M val :=
  b <- isErr result ;;
  if b then (e <- get prop_error result ;; f <- fn e ;; err f) else ret result.

Definition andThen (result : val) (fn : val -> M val) : M val :=
  b <- isOk result ;;
  if b then (v <- get prop_value result ;; fn v) else ret result.

Definition orElse (result : val) (fn : val -> M val) : M val :=
  b <- isErr result ;;
  if b then (e <- get prop_error result ;; fn e) else ret result.

Definition unwrapOr (result : val) (defaultValue : val) : M val :=
  b <- isOk result ;;
  if b then get prop_value result else ret defaultValue.

Definition unwrapOrElse (result : val) (fn : val -> M val) : M val :=
  b <- isOk result ;;
  if b then get prop_value result else (e <- get prop_error result ;; fn e).

Definition unwrap (h : Host) (result : val) : M val :=
  b <- isOk result ;;
  if b then get prop_value result
  else
    error <- get prop_error result ;;
    i <- instanceof_Error error ;;
    if i then throw error
    else
      s <- JSON_stringify h error ;;
      throw_new "Error" ("Unwrap failed: " +:+ template_part s).

Definition expect (result : val) (message : string) : M val :=
  b <- isOk result ;;
  if b then get prop_value result else throw_new "Error" message.

(** The [patterns] argument of [match]. *)
Record patterns : Type := mkPatterns {
  pat_ok : val -> M val;
  pat_err : val -> M val
}.

Definition match_ (result : val) (pats : patterns) : M val :=
  b <- isOk result ;;
  if b then (v <- get prop_value result ;; pat_ok pats v)
  else (e <- get prop_error result ;; pat_err pats e).

Fixpoint combine_loop (values : val) (results : list val) : M val :=
  match results with
  | [] => ok values
  | result :: rest =>
      b <- isErr result ;;
      if b then ret result
      else
        v <- get prop_value result ;;
        push values v ;;;
        combine_loop values rest
  end.

Definition combine (results : val) : M val :=
  values <- alloc (ArrayObj []) ;;
  rs <- iterate results ;;
  combine_loop values rs.

Definition tryCatch (fn : M val) (errorMapper : option (val -> M val)) : M val :=
  try_catch
    (v <- fn ;; ok v)
    (fun error =>
       mappedError <- match errorMapper with
                      | Some mapper => mapper error
                      | None => ret error
                      end ;;
       err mappedError).

Definition filter (result : val) (predicate : val -> M bool)
    (errorFn : val -> M val) : M val :=
  b <- isOk result ;;
  if b then
    v <- get prop_value result ;;
    p <- predicate v ;;
    if p then ret result
    else (v' <- get prop_value result ;; e <- errorFn v' ;; err e)
  else ret result.

Definition mapAsync (result : val) (fn : val -> M val) : M val :=
  async
    (resolved <~ await result ;;
     b <~ lift (isOk resolved) ;;
     if b then
       v <~ lift (get prop_value resolved) ;;
       p <~ lift (fn v) ;;
       mapped <~ await p ;;
       lift (ok mapped)
     else aret resolved).

Definition andThenAsync (result : val) (fn : val -> M val) : M val :=
  async
    (resolved <~ await result ;;
     b <~ lift (isOk resolved) ;;
     if b then
       v <~ lift (get prop_value resolved) ;;
       p <~ lift (fn v) ;;
       await p
     else aret resolved).

Definition combineAsync (results : val) : M val :=
  async
    (p <~ lift (Promise_all results) ;;
     resolved <~ await p ;;
     lift (combine resolved)).

Definition tryCatchAsync (fn : M val) (errorMapper : option (val -> M val)) : M val :=
  async
    (atry_catch
       (p <~ lift fn ;;
        value <~ await p ;;
        lift (ok value))
       (fun error =>
          mappedError <~ lift match errorMapper with
                              | Some mapper => mapper error
                              | None => ret error
                              end ;;
          lift (err mappedError))).

End Result.

(** ** src/option/types.ts and src/option/utils.ts *)

Module Option.

Definition some (value : val) : M val := alloc (SomeObj value).

(** [none] is one object, created when the module is loaded. *)
Definition none_loc : loc := 0.
Definition none : val := VRef none_loc.

(** The heap right after the module is loaded. *)
Definition loaded : state := {| heap := [NoneObj]; calls := [] |}.

Definition isSome (option : val) : M bool :=
  t <- get prop_tag option ;; ret (strict_eq t (VString "Some")).

Definition isNone (option : val) : M bool :=
  t <- get prop_tag option ;; ret (strict_eq t (VString "None")).

(** [value != null]: loose inequality with [null] fails exactly on
    [null] and [undefined]. *)
Definition loose_ne_null (value : val) : bool :=
  match value with
  | VUndefined | VNull => false
  | _ => true
  end.

Definition fromNullable (value : val) : M val :=
  if loose_ne_null value then some value else ret none.

Definition toNullable (option : val) : M val :=
  b <- isSome option ;;
  if b then get prop_value option else ret VNull.

Definition toUndefined (option : val) : M val :=
  b <- isSome option ;;
  if b then get prop_value option else ret VUndefined.

Definition map (option : val) (fn : val -> M val) : M val :=
  b <- isSome option ;;
  if b then (v <- get prop_value option ;; u <- fn v ;; some u) else ret none.

Definition andThen (option : val) (fn : val -> M val) : M val :=
  b <- isSome option ;;
  if b then (v <- get prop_value option ;; fn v) else ret none.

Definition orElse (option : val) (fn : M val) : M val :=
  b <- isSome option ;;
  if b then ret option else fn.

Definition unwrapOr (option : val) (defaultValue : val) : M val :=
  b <- isSome option ;;
  if b then get prop_value option else ret defaultValue.

Definition unwrapOrElse (option : val) (fn : M val) : M val :=
  b <- isSome option ;;
  if b then get prop_value option else fn.

Definition unwrap (option : val) : M val :=
  b <- isSome option ;;
  if b then get prop_value option
  else throw_new "Error" "Called unwrap on a None value".

Definition expect (option : val) (message : string) : M val :=
  b <- isSome option ;;
  if b then get prop_value option else throw_new "Error" message.

Record patterns : Type := mkPatterns {
  pat_some : val -> M val;
  pat_none : M val
}.

Definition match_ (option : val) (pats : patterns) : M val :=
  b <- isSome option ;;
  if b then (v <- get prop_value option ;; pat_some pats v)
  else pat_none pats.

Definition mapAsync (option : val) (fn : val -> M val) : M val :=
  async
    (resolved <~ await option ;;
     b <~ lift (isSome resolved) ;;
     if b then
       v <~ lift (get prop_value resolved) ;;
       p <~ lift (fn v) ;;
       mapped <~ await p ;;
       lift (some mapped)
     else aret none).

Definition andThenAsync (option : val) (fn : val -> M val) : M val :=
  async
    (resolved <~ await option ;;
     b <~ lift (isSome resolved) ;;
     if b then
       v <~ lift (get prop_value resolved) ;;
       p <~ lift (fn v) ;;
       await p
     else aret none).

Definition filter (option : val) (predicate : val -> M bool) : M val :=
  b <- isSome option ;;
  c <- (if b then (v <- get prop_value option ;; predicate v) else ret false) ;;
  if c then ret option else ret none.

Definition map2 (option1 option2 : val) (fn : val -> val -> M val) : M val :=
  b1 <- isSome option1 ;;
  c <- (if b1 then isSome option2 else ret false) ;;
  if c then
    v1 <- get prop_value option1 ;;
    v2 <- get prop_value option2 ;;
    u <- fn v1 v2 ;;
    some u
  else ret none.

Definition map3 (option1 option2 option3 : val)
    (fn : val -> val -> val -> M val) : M val :=
  b1 <- isSome option1 ;;
  b2 <- (if b1 then isSome option2 else ret false) ;;
  c <- (if b2 then isSome option3 else ret false) ;;
  if c then
    v1 <- get prop_value option1 ;;
    v2 <- get prop_value option2 ;;
    v3 <- get prop_value option3 ;;
    u <- fn v1 v2 v3 ;;
    some u
  else ret none.

Fixpoint combine_loop (values : val) (options : list val) : M val :=
  match options with
  | [] => some values
  | option :: rest =>
      b <- isNone option ;;
      if b then ret none
      else
        v <- get prop_value option ;;
        push values v ;;;
        combine_loop values rest
  end.

Definition combine (options : val) : M val :=
  values <- alloc (ArrayObj []) ;;
  os <- iterate options ;;
  combine_loop values os.

Definition combineAsync (options : val) : M val :=
  async
    (p <~ lift (Promise_all options) ;;
     resolved <~ await p ;;
     lift (combine resolved)).

Fixpoint findSome_loop (options : list val) : M val :=
  match options with
  | [] => ret none
  | option :: rest =>
      b <- isSome option ;;
      if b then ret option else findSome_loop rest
  end.

Definition findSome (options : val) : M val :=
  os <- iterate options ;;
  findSome_loop os.

Fixpoint collectSome_loop (values : val) (options : list val) : M val :=
  match options with
  | [] => ret values
  | option :: rest =>
      b <- isSome option ;;
      (if b then (v <- get prop_value option ;; push values v) else ret tt) ;;;
      collectSome_loop values rest
  end.

Definition collectSome (options : val) : M val :=
  values <- alloc (ArrayObj []) ;;
  os <- iterate options ;;
  collectSome_loop values os.

End Option.

(** ** src/functional/index.ts

    More of the host first: reading an array, and the [Set] and [Map]
    a closure keeps to itself, which are values of the embedding rather
    than objects of the heap. *)

(** [arr.length], for an operand of array type: a number.  The other
    values of the embedding have no [length] ([None] is [undefined]);
    a string has one and is outside the type. *)
Definition array_length (arr : val) : M (option Z) :=
  match arr with
  | VUndefined | VNull =>
      throw_new "TypeError" "Cannot read properties of null or undefined"
  | VRef l =>
      o <- deref l ;;
      ret (match o with
           | ArrayObj es => Some (Z.of_nat (length es))
           | _ => None
           end)
  | _ => ret None
  end.

(** [arr[i]] for an integral [i]: [undefined] outside the array. *)
Definition array_index (arr : val) (i : Z) : M val :=
  match arr with
  | VUndefined | VNull =>
      throw_new "TypeError" "Cannot read properties of null or undefined"
  | VRef l =>
      o <- deref l ;;
      ret (match o with
           | ArrayObj es =>
               if (0 <=? i)%Z then default VUndefined (es !! Z.to_nat i) else VUndefined
           | _ => VUndefined
           end)
  | _ => ret VUndefined
  end.

(** [i < len]: false when [len] is [undefined]. *)
Definition lt_length (i : Z) (len : option Z) : bool :=
  match len with
  | Some n => (i <? n)%Z
  | None => false
  end.

(** [Math.min(a, b)]: [NaN] (here [None]) when an operand is
    [undefined]. *)
Definition Math_min (a b : option Z) : option Z :=
  match a, b with
  | Some x, Some y => Some (Z.min x y)
  | _, _ => None
  end.

(** Numbers are the host's: doubles, with their rounding, their [NaN]
    and their infinities.  What [range] and [chunk] compute with their
    numbers is written over the host's arithmetic: [Number_of_Z] is
    the number an integer literal or a length denotes, [Number_add],
    [Number_lt] and [Number_le] are [+], [<] and [<=] on numbers, and
    [ToIntegerOrInfinity] is the conversion [slice] applies to its
    bounds. *)
Inductive integer_or_infinity : Type :=
| NegInfinity
| Finite (z : Z)
| PosInfinity.

Record Numbers : Type := mkNumbers {
  number : Type;
  Number_of_Z : Z -> number;
  Number_add : number -> number -> number;
  Number_lt : number -> number -> bool;
  Number_le : number -> number -> bool;
  ToIntegerOrInfinity : number -> integer_or_infinity
}.

(** [i < len] for a number [i]: false when [len] is [undefined]. *)
Definition Number_lt_length (N : Numbers) (i : number N) (len : option Z) : bool :=
  match len with
  | Some n => Number_lt N i (Number_of_Z N n)
  | None => false
  end.

(** [arr.slice(start, end)]: a new array.  The bounds are converted to
    integers; a negative bound counts from the end, and both are
    clamped to the array. *)
Definition slice_bound (len k : Z) : Z :=
  if (k <? 0)%Z then Z.max (len + k) 0 else Z.min k len.

Definition relative_index (len : Z) (k : integer_or_infinity) : Z :=
  match k with
  | NegInfinity => 0
  | Finite z => slice_bound len z
  | PosInfinity => len
  end.

Definition slice (arr : val) (start stop : integer_or_infinity) : M val :=
  match arr with
  | VRef l =>
      o <- deref l ;;
      match o with
      | ArrayObj es =>
          let len := Z.of_nat (length es) in
          let k := relative_index len start in
          let final := relative_index len stop in
          alloc (ArrayObj (take (Z.to_nat (final - k)) (drop (Z.to_nat k) es)))
      | _ => throw_new "TypeError" "slice is not a function"
      end
  | _ => throw_new "TypeError" "slice is not a function"
  end.

(** A [Set]: its elements in insertion order, compared as [has] and
    [add] compare them. *)
Definition Set_has (seen : list val) (x : val) : bool := bool_decide (x ∈ seen).

Definition Set_add (seen : list val) (x : val) : list val :=
  if Set_has seen x then seen else seen ++ [x].

(** [new Set(array)] *)
Definition Set_of (xs : list val) : list val := foldl Set_add [] xs.

(** [ToBoolean]: what [||] asks of its left operand. *)
Definition ToBoolean (v : val) : bool :=
  match v with
  | VUndefined | VNull => false
  | VBool b => b
  | VNumber n | VBigInt n => negb (n =? 0)%Z
  | VString EmptyString => false
  | VString _ => true
  | VRef _ => true
  end.

(** [obj[key]] for an object written as [{}], whose own properties are
    [own]: an own property first, then one of [Object.prototype], whose
    properties are [proto], then [undefined]. *)
Definition object_get (proto own : gmap string val) (key : string) : val :=
  match own !! key with
  | Some v => v
  | None => default VUndefined (proto !! key)
  end.

Module Functional.

(** [compose(...functions)(value)]: [reduceRight], the last function
    first. *)
Fixpoint compose (functions : list (val -> M val)) (value : val) : M val :=
  match functions with
  | [] => ret value
  | fn :: rest => acc <- compose rest value ;; fn acc
  end.

(** [pipe(value, ...functions)]: [reduce], the first function first. *)
Fixpoint pipe (value : val) (functions : list (val -> M val)) : M val :=
  match functions with
  | [] => ret value
  | fn :: rest => acc <- fn value ;; pipe acc rest
  end.

(** A call of the function [memoize(fn, keyFn)] returns; [cache] is the
    [Map] of its closure, empty at first, which the call hands on.  A
    call that throws leaves the cache as it found it: [cache.set] is
    its last step. *)
Definition memoize (fn : list val -> M val) (keyFn : list val -> M string)
    (cache : gmap string val) (args : list val) : M (val * gmap string val) :=
  key <- keyFn args ;;
  match cache !! key with
  | Some cached => ret (cached, cache)
  | None =>
      result <- fn args ;;
      ret (result, <[key := result]> cache)
  end.

(** A call of the function [throttle(fn, interval)] returns; [lastCall]
    is the variable of its closure, [0] at first, and [now] what
    [Date.now()] answers.  The new [lastCall] is assigned before [fn]
    runs. *)
Definition throttle (fn : list val -> M val) (interval : Z)
    (lastCall now : Z) (args : list val) : Z * M unit :=
  if (interval <=? now - lastCall)%Z then (now, fn args ;;; ret tt)
  else (lastCall, ret tt).

Definition safeGet (array : val) (index : Z) : M val :=
  if (0 <=? index)%Z then
    len <- array_length array ;;
    if lt_length index len then (x <- array_index array index ;; Option.some x)
    else ret Option.none
  else ret Option.none.

(** [JSON.parse] is the host's. *)
Definition safeJsonParse (JSON_parse : string -> M val) (json : string) : M val :=
  try_catch (v <- JSON_parse json ;; Option.some v) (fun _ => ret Option.none).

(** The loops of [range] and [chunk] are bounded by a condition on a
    counter they advance by a step; [None] is the answer of a run that
    has not left its loop after [fuel] iterations.  [Number_value] is
    the value an array holds for a number. *)
Fixpoint range_loop (N : Numbers) (Number_value : number N -> val) (fuel : nat)
    (result : val) (i stop step : number N) : M (option val) :=
  match fuel with
  | O => ret None
  | S fuel' =>
      if Number_lt N i stop then
        push result (Number_value i) ;;;
        range_loop N Number_value fuel' result (Number_add N i step) stop step
      else ret (Some result)
  end.

Definition range (N : Numbers) (Number_value : number N -> val) (fuel : nat)
    (start : number N) (end_ step : option (number N)) : M (option val) :=
  let step := default (Number_of_Z N 1) step in
  let '(start, stop) := match end_ with
                        | None => (Number_of_Z N 0, start)
                        | Some e => (start, e)
                        end in
  result <- alloc (ArrayObj []) ;;
  range_loop N Number_value fuel result start stop step.

Fixpoint chunk_loop (N : Numbers) (fuel : nat) (array chunks : val)
    (i size : number N) : M (option val) :=
  match fuel with
  | O => ret None
  | S fuel' =>
      len <- array_length array ;;
      if Number_lt_length N i len then
        piece <- slice array (ToIntegerOrInfinity N i)
                   (ToIntegerOrInfinity N (Number_add N i size)) ;;
        push chunks piece ;;;
        chunk_loop N fuel' array chunks (Number_add N i size) size
      else ret (Some chunks)
  end.

Definition chunk (N : Numbers) (fuel : nat) (array : val) (size : number N) :
    M (option val) :=
  if Number_le N size (Number_of_Z N 0) then
    (empty <- alloc (ArrayObj []) ;; ret (Some empty))
  else
    chunks <- alloc (ArrayObj []) ;;
    chunk_loop N fuel array chunks (Number_of_Z N 0) size.

(** [[...new Set(array)]]: the set is filled from the elements the
    array iterator yields and spread into a new array. *)
Definition unique (array : val) : M val :=
  es <- iterate array ;;
  alloc (ArrayObj (Set_of es)).

(** [array.filter(callback)] creates its result, then visits the
    elements and appends those the callback keeps. *)
Fixpoint uniqueBy_loop (keyFn : val -> M val) (seen : list val) (result : val)
    (items : list val) : M val :=
  match items with
  | [] => ret result
  | item :: rest =>
      key <- keyFn item ;;
      if Set_has seen key then uniqueBy_loop keyFn seen result rest
      else
        push result item ;;;
        uniqueBy_loop keyFn (Set_add seen key) result rest
  end.

Definition uniqueBy (array : val) (keyFn : val -> M val) : M val :=
  items <- iterate array ;;
  result <- alloc (ArrayObj []) ;;
  uniqueBy_loop keyFn [] result items.

Fixpoint zip_loop (count : nat) (i : Z) (arr1 arr2 result : val) : M val :=
  match count with
  | O => ret result
  | S count' =>
      a <- array_index arr1 i ;;
      b <- array_index arr2 i ;;
      pair <- alloc (ArrayObj [a; b]) ;;
      push result pair ;;;
      zip_loop count' (i + 1) arr1 arr2 result
  end.

(** The loop runs for [i = 0, 1, ...] below [length], a constant: not
    at all when [length] is [NaN]. *)
Definition zip (arr1 arr2 : val) : M val :=
  len1 <- array_length arr1 ;;
  len2 <- array_length arr2 ;;
  let length := Math_min len1 len2 in
  result <- alloc (ArrayObj []) ;;
  zip_loop (match length with Some n => Z.to_nat n | None => O end) 0 arr1 arr2 result.

Fixpoint partition_loop (predicate : val -> M bool) (truthy falsy : val)
    (items : list val) : M unit :=
  match items with
  | [] => ret tt
  | item :: rest =>
      b <- predicate item ;;
      (if b then push truthy item else push falsy item) ;;;
      partition_loop predicate truthy falsy rest
  end.

Definition partition (array : val) (predicate : val -> M bool) : M val :=
  truthy <- alloc (ArrayObj []) ;;
  falsy <- alloc (ArrayObj []) ;;
  items <- iterate array ;;
  partition_loop predicate truthy falsy items ;;;
  alloc (ArrayObj [truthy; falsy]).

(** [safeProp] on an object written as an object literal, with the own
    properties [own]; the property is read twice. *)
Definition safeProp (proto own : gmap string val) (key : string) : M val :=
  if negb (strict_eq (object_get proto own key) VUndefined)
  then Option.some (object_get proto own key)
  else ret Option.none.

(** [groupBy] for a key function whose keys are strings.  The object
    the reduction starts from is written [{}]: it is the map of its own
    properties here, and it inherits those of [Object.prototype].
    (Assigning to the key [__proto__] sets no own property; the call
    does not outlast the [push] that follows it then.) *)
Fixpoint groupBy_loop (proto : gmap string val) (keyFn : val -> M string)
    (groups : gmap string val) (items : list val) : M (gmap string val) :=
  match items with
  | [] => ret groups
  | item :: rest =>
      key <- keyFn item ;;
      let found := object_get proto groups key in
      group <- (if ToBoolean found then ret found else alloc (ArrayObj [])) ;;
      push group item ;;;
      groupBy_loop proto keyFn (<[key := group]> groups) rest
  end.

Definition groupBy (proto : gmap string val) (array : val) (keyFn : val -> M string) :
    M (gmap string val) :=
  items <- iterate array ;;
  groupBy_loop proto keyFn ∅ items.

End Functional.

(** * Vocabulary of the specification *)

(** The double quote character, and a host to run examples on: numbers
    in decimal, strings between quotes (the examples have no character
    to escape), objects as the empty record. *)
Definition dquote : string := String "034"%char "".

Definition example_host : Host := {|
  NumberToString := fun n => pretty n;
  QuoteJSONString := fun s => dquote +:+ s +:+ dquote;
  SerializeJSONObject := fun _ => ret (Some "{}")
|}.

(** The patterns [{ ok: v => ok(v), err: e => err(e) }], each branch
    behind a call-recording stub. *)
Definition rebuild : Result.patterns := {|
  Result.pat_ok := spy "ok" Result.ok;
  Result.pat_err := spy "err" Result.err
|}.

(** [r] refers to an [Ok] (an [Err], a [Some], a [None]) of the heap. *)
Definition is_ok (h : list obj) (r v : val) : Prop :=
  exists l, r = VRef l /\ h !! l = Some (OkObj v).

Definition is_err (h : list obj) (r e : val) : Prop :=
  exists l, r = VRef l /\ h !! l = Some (ErrObj e).

Definition is_some (h : list obj) (o v : val) : Prop :=
  exists l, o = VRef l /\ h !! l = Some (SomeObj v).

Definition is_none (h : list obj) (o : val) : Prop :=
  exists l, o = VRef l /\ h !! l = Some NoneObj.

Definition is_result (h : list obj) (r : val) : Prop :=
  (exists v, is_ok h r v) \/ (exists e, is_err h r e).

Definition is_option (h : list obj) (o : val) : Prop :=
  (exists v, is_some h o v) \/ is_none h o.

(** [v] is not a promise: awaiting it, or resolving a promise with it,
    gives [v] itself. *)
Definition plain (h : list obj) (v : val) : Prop := settled h v = Fulfilled v.

(** A synchronous transform: what it returns is not a promise. *)
Definition returns_plain (fn : val -> M val) : Prop :=
  forall v σ u σ1, fn v σ = (Normal u, σ1) -> plain (heap σ1) u.

(** A transform whose result, once awaited, is not a promise (the
    host's promises never fulfil with a promise). *)
Definition resolves_plain (fn : val -> M val) : Prop :=
  forall v σ u σ1 w,
    fn v σ = (Normal u, σ1) -> settled (heap σ1) u = Fulfilled w -> plain (heap σ1) w.

(** Every object of [σ] is in [σ'] as it was: the heap has only grown. *)
Definition unchanged (σ σ' : state) : Prop := heap σ `prefix_of` heap σ'.

(** [r] is an object created between [σ] and [σ']. *)
Definition fresh (σ σ' : state) (r : val) : Prop :=
  exists l, r = VRef l /\ length (heap σ) <= l < length (heap σ').

(** A computation that changes no existing object. *)
Definition frame {A} (m : M A) : Prop := forall σ, unchanged σ (m σ).2.

Definition aframe {A} (m : Async A) : Prop := forall σ, unchanged σ (m σ).2.

(** A run that completes normally; a computation that always does. *)
Definition normal {A} (res : completion A * state) : Prop :=
  exists a, res.1 = Normal a.

Definition throws {A} (res : completion A * state) : Prop :=
  exists x, res.1 = Throw x.

Definition total {A} (m : M A) : Prop := forall σ, normal (m σ).

(** The run changed no existing object and, if it returned, returned a
    container created during the run. *)
Definition returns_new (σ : state) (res : completion val * state) : Prop :=
  unchanged σ res.2 /\ forall r, res.1 = Normal r -> fresh σ res.2 r.

(** The run returned the existing container [r] and changed nothing. *)
Definition returns_given (σ : state) (r : val) (res : completion val * state) : Prop :=
  res = (Normal r, σ).

(** A computation that changes no object of the heap [h], wherever it
    is run above [h]. *)
Definition keeps (h : list obj) {A} (m : M A) : Prop :=
  forall σ, h `prefix_of` heap σ -> h `prefix_of` heap (m σ).2.

(** The payloads of the [Some] elements of a list of Options, in order. *)
Definition payloads (h : list obj) (os : list val) : list val :=
  omap (fun o => match o with
                 | VRef l => match h !! l with
                             | Some (SomeObj v) => Some v
                             | _ => None
                             end
                 | _ => None
                 end) os.

(** The callbacks of the test suite: [x => x * 2] and [x => x > 5] on
    the numbers of the embedding, [x => ok(x.toString())]. *)
Definition double (v : val) : M val :=
  ret (match v with VNumber n => VNumber (2 * n) | _ => VUndefined end).

Definition above5 (v : val) : M bool :=
  ret (match v with VNumber n => (5 <? n)%Z | _ => false end).

Definition ok_toString (v : val) : M val :=
  Result.ok (match v with VNumber n => VString (pretty n) | _ => VUndefined end).

(** [const a = [...elements]] for already evaluated elements. *)
Definition array_of (elements : list val) : M val := alloc (ArrayObj elements).

(** What a program returns, and the calls its stubs recorded, when it
    runs right after the modules are loaded. *)
Definition result_of {A} (m : M A) : completion A := (m Option.loaded).1.

Definition calls_of {A} (m : M A) : list (string * val) := calls (m Option.loaded).2.

(** The state of a loop that is filling a new array: the heap [h] it
    started from, and above it the array with the values pushed so far. *)
Definition filling (h : list obj) (cs : list (string * val)) (acc : list val) : state :=
  {| heap := h ++ [ArrayObj acc]; calls := cs |}.

(** The elements of [xs] that are the first with their key, in the
    order of [xs]. *)
Fixpoint first_by (k : val -> val) (xs : list val) : list val :=
  match xs with
  | [] => []
  | x :: rest => x :: filter (fun y => k y <> k x) (first_by k rest)
  end.

(** A callback that answers [k v] for every [v] and leaves the heap as
    it is; it may record its calls. *)
Definition answers {A} (f : val -> M A) (k : val -> A) : Prop :=
  forall v σ, exists σ', f v σ = (Normal (k v), σ') /\ heap σ' = heap σ.

(** The heap of a loop that fills the array it allocated on the heap
    [h] and allocates further objects while it runs. *)
Definition collecting (h : list obj) (acc : list val) (above : list obj) : list obj :=
  h ++ ArrayObj acc :: above.

(** The locations [n], [n + 1], ..., [n + count - 1] as references. *)
Definition refs (n count : nat) : list val := VRef <$> seq n count.

Definition is_even (v : val) : val :=
  match v with VNumber n => VBool (Z.even n) | _ => VUndefined end.

(** The two-element array [[a, b]]. *)
Definition pair_of (a b : val) : obj := ArrayObj [a; b].

(** A series of calls of the function [throttle(fn, interval)]
    returns: each call is made with the reading of the clock at that
    moment, which is also its argument. *)
Fixpoint throttle_calls (fn : list val -> M val) (interval lastCall : Z)
    (clock : list Z) : M Z :=
  match clock with
  | [] => ret lastCall
  | now :: rest =>
      let '(lastCall', call) := Functional.throttle fn interval lastCall now [VNumber now] in
      call ;;; throttle_calls fn interval lastCall' rest
  end.

(** Readings of the clock of which each is at least [interval] after
    the one before it, and the first at least [interval] after [last]. *)
Fixpoint spaced (interval last : Z) (times : list Z) : Prop :=
  match times with
  | [] => True
  | t :: rest => (interval <= t - last)%Z /\ spaced interval t rest
  end.

(** A function that records the first argument of each of its calls. *)
Definition logged (args : list val) : M val :=
  spy "fn" (fun _ => ret VUndefined) (default VUndefined (head args)).

(** The groups of the elements [done] by their key: every key of an
    element has a group, an array created after the heap had [h0]
    objects, with the elements of that key in their order; no other key
    has a group, and no two keys share one. *)
Definition grouped (k : val -> string) (h0 : nat) (done : list val)
    (groups : gmap string val) (h : list obj) : Prop :=
  (forall key, key ∈ (k <$> done) ->
     exists lg, groups !! key = Some (VRef lg) /\ h0 <= lg /\
       h !! lg = Some (ArrayObj (filter (fun x => k x = key) done))) /\
  (forall key, key ∉ (k <$> done) -> groups !! key = None) /\
  (forall key1 key2 lg,
     groups !! key1 = Some (VRef lg) -> groups !! key2 = Some (VRef lg) -> key1 = key2).

(** The length of a string, as a key. *)
Definition by_length (v : val) : string :=
  match v with VString s => pretty (String.length s) | _ => "other" end.

(** The run returned normally, and what it returned is a promise. *)
Definition returns_promise (res : completion val * state) : Prop :=
  exists (l : loc) (st : pstate),
    res.1 = Normal (VRef l) /\ heap res.2 !! l = Some (PromiseObj st).

(** The run ended by creating the object [o] on the heap of [σ1], and
    returned it: that heap is as it was, the new object comes after
    it. *)
Definition returns_created (σ1 : state) (o : obj) (res : completion val * state) : Prop :=
  res = (Normal (VRef (length (heap σ1))), set_heap (heap σ1 ++ [o]) σ1).

(** A computation that leaves the object [o] at [l] as it is, whatever
    else it does. *)
Definition preserves (l : loc) (o : obj) {A} (m : M A) : Prop :=
  forall σ, heap σ !! l = Some o -> heap (m σ).2 !! l = Some o.

Definition apreserves (l : loc) (o : obj) {A} (m : Async A) : Prop :=
  forall σ, heap σ !! l = Some o -> heap (m σ).2 !! l = Some o.

(** At the argument [v] and in the state [σ] the transform answers
    with a value that is not a promise, if it answers. *)
Definition sync_at (fn : val -> M val) (v : val) (σ : state) : Prop :=
  forall u σ1, fn v σ = (Normal u, σ1) -> plain (heap σ1) u.

(** The integers a double holds exactly. *)
Definition safe (z : Z) : Prop := (- 2 ^ 53 <= z <= 2 ^ 53)%Z.

(** What the proofs use of the host's arithmetic, all of it true of
    doubles.  On the integers of magnitude up to [2 ^ 53] a sum that
    stays among them, the comparisons and the conversion to an integer
    are exact; and adding a number that is zero or less to a number
    below a bound leaves it below the bound. *)
Record arithmetic (N : Numbers) : Prop := mkArithmetic {
  add_safe : forall a b, safe a -> safe b -> safe (a + b) ->
    Number_add N (Number_of_Z N a) (Number_of_Z N b) = Number_of_Z N (a + b);
  lt_safe : forall a b, safe a -> safe b ->
    Number_lt N (Number_of_Z N a) (Number_of_Z N b) = (a <? b)%Z;
  le_safe : forall a b, safe a -> safe b ->
    Number_le N (Number_of_Z N a) (Number_of_Z N b) = (a <=? b)%Z;
  integer_safe : forall a, safe a ->
    ToIntegerOrInfinity N (Number_of_Z N a) = Finite a;
  lt_add_nonpositive : forall i step stop,
    Number_le N step (Number_of_Z N 0) = true -> Number_lt N i stop = true ->
    Number_lt N (Number_add N i step) stop = true
}.

(** Two hosts to compute with: the integers, and the halves [n / 2],
    each written as its numerator [n].  Doubles hold the small ones of
    both exactly, and so add and compare them as written here. *)
Definition integers : Numbers := {|
  number := Z;
  Number_of_Z := fun z => z;
  Number_add := Z.add;
  Number_lt := Z.ltb;
  Number_le := Z.leb;
  ToIntegerOrInfinity := Finite
|}.

Definition halves : Numbers := {|
  number := Z;
  Number_of_Z := fun z => (2 * z)%Z;
  Number_add := Z.add;
  Number_lt := Z.ltb;
  Number_le := Z.leb;
  ToIntegerOrInfinity := fun n => Finite (Z.quot n 2)
|}.

(** * Theorems *)

(** ** The cases of the test suite

    [src/__tests__/result.test.ts] and [src/__tests__/option.test.ts],
    run on the embedding. *)

Example test_map_maps_Ok_value :
  result_of (result <- Result.ok (VNumber 5) ;;
             mapped <- Result.map result double ;;
             get prop_value mapped)
  = Normal (VNumber 10).
Proof. reflexivity. Qed.

Example test_map_does_not_map_Err_value :
  result_of (result <- Result.err (VString "error") ;;
             mapped <- Result.map result double ;;
             get prop_error mapped)
  = Normal (VString "error").
Proof. reflexivity. Qed.

Example test_andThen_chains_Ok_values :
  result_of (result <- Result.ok (VNumber 5) ;;
             chained <- Result.andThen result ok_toString ;;
             get prop_value chained)
  = Normal (VString "5").
Proof. reflexivity. Qed.

Example test_andThen_does_not_execute_function_on_Err :
  calls_of (result <- Result.err (VString "original error") ;;
            Result.andThen result (spy "fn" (fun _ => ret VUndefined)))
  = [].
Proof. reflexivity. Qed.

Example test_unwrapOr :
  result_of (result <- Result.ok (VNumber 42) ;; Result.unwrapOr result (VNumber 0))
  = Normal (VNumber 42) /\
  result_of (result <- Result.err (VString "error") ;; Result.unwrapOr result (VNumber 0))
  = Normal (VNumber 0).
Proof. split; reflexivity. Qed.

Example test_combine_all_Ok :
  result_of (r1 <- Result.ok (VNumber 1) ;;
             r2 <- Result.ok (VNumber 2) ;;
             r3 <- Result.ok (VNumber 3) ;;
             results <- array_of [r1; r2; r3] ;;
             combined <- Result.combine results ;;
             values <- get prop_value combined ;;
             iterate values)
  = Normal [VNumber 1; VNumber 2; VNumber 3].
Proof. reflexivity. Qed.

Example test_combine_first_Err :
  result_of (r1 <- Result.ok (VNumber 1) ;;
             r2 <- Result.err (VString "error") ;;
             r3 <- Result.ok (VNumber 3) ;;
             results <- array_of [r1; r2; r3] ;;
             combined <- Result.combine results ;;
             get prop_error combined)
  = Normal (VString "error").
Proof. reflexivity. Qed.

Example test_tryCatch_custom_error_mapper :
  result_of (result <- Result.tryCatch
                         (throw_new "Error" "test error")
                         (Some (fun error =>
                                  m <- get prop_message error ;;
                                  ret (match m with
                                       | VString s => VString ("Custom: " +:+ s)
                                       | _ => VUndefined
                                       end))) ;;
             get prop_error result)
  = Normal (VString "Custom: test error").
Proof. reflexivity. Qed.

Example unwrap_message_of_a_number :
  result_of (result <- Result.err (VNumber 42) ;;
             try_catch (Result.unwrap example_host result)
                       (fun thrown => get prop_message thrown))
  = Normal (VString "Unwrap failed: 42").
Proof. reflexivity. Qed.

Example test_fromNullable :
  result_of (o <- Option.fromNullable (VNumber 42) ;; get prop_value o)
  = Normal (VNumber 42) /\
  result_of (o <- Option.fromNullable VNull ;; Option.isNone o) = Normal true /\
  result_of (o <- Option.fromNullable VUndefined ;; Option.isNone o) = Normal true.
Proof. repeat split; reflexivity. Qed.

Example test_filter :
  result_of (o <- Option.some (VNumber 10) ;;
             filtered <- Option.filter o above5 ;;
             get prop_value filtered)
  = Normal (VNumber 10) /\
  result_of (o <- Option.some (VNumber 3) ;;
             filtered <- Option.filter o above5 ;;
             Option.isNone filtered)
  = Normal true /\
  result_of (filtered <- Option.filter Option.none above5 ;; Option.isNone filtered)
  = Normal true.
Proof. repeat split; reflexivity. Qed.

Example test_collectSome_and_combine :
  result_of (o1 <- Option.some (VNumber 1) ;;
             o3 <- Option.some (VNumber 3) ;;
             options <- array_of [o1; Option.none; o3] ;;
             values <- Option.collectSome options ;;
             iterate values)
  = Normal [VNumber 1; VNumber 3] /\
  result_of (o1 <- Option.some (VNumber 1) ;;
             o3 <- Option.some (VNumber 3) ;;
             options <- array_of [o1; Option.none; o3] ;;
             Option.combine options)
  = Normal Option.none.
Proof. split; reflexivity. Qed.

(** ** The heap *)

Lemma lookup_new (h : list obj) (o : obj) : (h ++ [o]) !! length h = Some o.
Proof. by rewrite lookup_app_r, Nat.sub_diag by lia. Qed.

Lemma lookup_old (h k : list obj) (l : loc) (o : obj) :
  h !! l = Some o -> (h ++ k) !! l = Some o.
Proof. intros H. rewrite lookup_app_l; [done|]. by eapply lookup_lt_Some. Qed.

Lemma insert_new (h : list obj) (o o' : obj) :
  <[length h := o']> (h ++ [o]) = h ++ [o'].
Proof. rewrite insert_app_r_alt by lia. by rewrite Nat.sub_diag. Qed.

(** ** What each synchronous operation of [Result] computes

    One equation per operation and variant of the input.  The input is
    a reference [VRef l] to a container of the heap. *)

Ltac js_unfold :=
  unfold Result.map, Result.mapErr, Result.andThen, Result.orElse,
    Result.unwrapOr, Result.unwrapOrElse, Result.unwrap, Result.expect,
    Result.match_, Result.filter, Result.isOk, Result.isErr,
    Option.map, Option.andThen, Option.orElse, Option.unwrapOr,
    Option.unwrapOrElse, Option.unwrap, Option.expect, Option.match_,
    Option.filter, Option.map2, Option.map3, Option.toNullable,
    Option.toUndefined, Option.isSome, Option.isNone,
    instanceof_Error, get, deref, bind, ret, strict_eq.

Ltac splits := repeat match goal with |- _ /\ _ => split end.

Ltac js_run H := js_unfold; simpl; repeat (rewrite H; simpl); try reflexivity.

Section ResultEquations.
Variables (σ : state) (l : loc).
Implicit Types (v e d : val) (f : val -> M val).

Section OnOk.
Variable v : val.
Hypothesis Hok : heap σ !! l = Some (OkObj v).

Lemma Result_isOk_ok : Result.isOk (VRef l) σ = (Normal true, σ).
Proof. js_run Hok. Qed.

Lemma Result_isErr_ok : Result.isErr (VRef l) σ = (Normal false, σ).
Proof. js_run Hok. Qed.

Lemma Result_map_ok f :
  Result.map (VRef l) f σ = (u <- f v ;; Result.ok u) σ.
Proof. js_run Hok. Qed.

Lemma Result_mapErr_ok f : Result.mapErr (VRef l) f σ = (Normal (VRef l), σ).
Proof. js_run Hok. Qed.

Lemma Result_andThen_ok f : Result.andThen (VRef l) f σ = f v σ.
Proof. js_run Hok. Qed.

Lemma Result_orElse_ok f : Result.orElse (VRef l) f σ = (Normal (VRef l), σ).
Proof. js_run Hok. Qed.

Lemma Result_unwrapOr_ok d : Result.unwrapOr (VRef l) d σ = (Normal v, σ).
Proof. js_run Hok. Qed.

Lemma Result_unwrapOrElse_ok f : Result.unwrapOrElse (VRef l) f σ = (Normal v, σ).
Proof. js_run Hok. Qed.

Lemma Result_unwrap_ok h : Result.unwrap h (VRef l) σ = (Normal v, σ).
Proof. js_run Hok. Qed.

Lemma Result_expect_ok msg : Result.expect (VRef l) msg σ = (Normal v, σ).
Proof. js_run Hok. Qed.

Lemma Result_match_ok pats : Result.match_ (VRef l) pats σ = Result.pat_ok pats v σ.
Proof. js_run Hok. Qed.

Lemma Result_filter_ok p f :
  Result.filter (VRef l) p f σ =
  (b <- p v ;;
   if b then ret (VRef l)
   else (v' <- get prop_value (VRef l) ;; e <- f v' ;; Result.err e)) σ.
Proof. js_run Hok. Qed.
End OnOk.

Section OnErr.
Variable e : val.
Hypothesis Herr : heap σ !! l = Some (ErrObj e).

Lemma Result_isOk_err : Result.isOk (VRef l) σ = (Normal false, σ).
Proof. js_run Herr. Qed.

Lemma Result_isErr_err : Result.isErr (VRef l) σ = (Normal true, σ).
Proof. js_run Herr. Qed.

Lemma Result_map_err f : Result.map (VRef l) f σ = (Normal (VRef l), σ).
Proof. js_run Herr. Qed.

Lemma Result_mapErr_err f :
  Result.mapErr (VRef l) f σ = (x <- f e ;; Result.err x) σ.
Proof. js_run Herr. Qed.

Lemma Result_andThen_err f : Result.andThen (VRef l) f σ = (Normal (VRef l), σ).
Proof. js_run Herr. Qed.

Lemma Result_orElse_err f : Result.orElse (VRef l) f σ = f e σ.
Proof. js_run Herr. Qed.

Lemma Result_unwrapOr_err d : Result.unwrapOr (VRef l) d σ = (Normal d, σ).
Proof. js_run Herr. Qed.

Lemma Result_unwrapOrElse_err f : Result.unwrapOrElse (VRef l) f σ = f e σ.
Proof. js_run Herr. Qed.

Lemma Result_unwrap_err h :
  Result.unwrap h (VRef l) σ =
  (i <- instanceof_Error e ;;
   if i then throw e
   else
     s <- JSON_stringify h e ;;
     throw_new "Error" ("Unwrap failed: " +:+ template_part s)) σ.
Proof. js_run Herr. Qed.

Lemma Result_expect_err msg :
  Result.expect (VRef l) msg σ = throw_new "Error" msg σ.
Proof. js_run Herr. Qed.

Lemma Result_match_err pats : Result.match_ (VRef l) pats σ = Result.pat_err pats e σ.
Proof. js_run Herr. Qed.

Lemma Result_filter_err p f : Result.filter (VRef l) p f σ = (Normal (VRef l), σ).
Proof. js_run Herr. Qed.
End OnErr.
End ResultEquations.

(** ** What each synchronous operation of [Option] computes *)

Section OptionEquations.
Variables (σ : state) (l : loc).
Implicit Types (v d : val) (f : val -> M val) (g : M val).

Section OnSome.
Variable v : val.
Hypothesis Hsome : heap σ !! l = Some (SomeObj v).

Lemma Option_isSome_some : Option.isSome (VRef l) σ = (Normal true, σ).
Proof. js_run Hsome. Qed.

Lemma Option_isNone_some : Option.isNone (VRef l) σ = (Normal false, σ).
Proof. js_run Hsome. Qed.

Lemma Option_toNullable_some : Option.toNullable (VRef l) σ = (Normal v, σ).
Proof. js_run Hsome. Qed.

Lemma Option_toUndefined_some : Option.toUndefined (VRef l) σ = (Normal v, σ).
Proof. js_run Hsome. Qed.

Lemma Option_map_some f :
  Option.map (VRef l) f σ = (u <- f v ;; Option.some u) σ.
Proof. js_run Hsome. Qed.

Lemma Option_andThen_some f : Option.andThen (VRef l) f σ = f v σ.
Proof. js_run Hsome. Qed.

Lemma Option_orElse_some g : Option.orElse (VRef l) g σ = (Normal (VRef l), σ).
Proof. js_run Hsome. Qed.

Lemma Option_unwrapOr_some d : Option.unwrapOr (VRef l) d σ = (Normal v, σ).
Proof. js_run Hsome. Qed.

Lemma Option_unwrapOrElse_some g : Option.unwrapOrElse (VRef l) g σ = (Normal v, σ).
Proof. js_run Hsome. Qed.

Lemma Option_unwrap_some : Option.unwrap (VRef l) σ = (Normal v, σ).
Proof. js_run Hsome. Qed.

Lemma Option_expect_some msg : Option.expect (VRef l) msg σ = (Normal v, σ).
Proof. js_run Hsome. Qed.

Lemma Option_match_some pats :
  Option.match_ (VRef l) pats σ = Option.pat_some pats v σ.
Proof. js_run Hsome. Qed.

Lemma Option_filter_some p :
  Option.filter (VRef l) p σ =
  (c <- p v ;; if c then ret (VRef l) else ret Option.none) σ.
Proof. js_run Hsome. Qed.

Lemma Option_map2_some l2 v2 fn :
  heap σ !! l2 = Some (SomeObj v2) ->
  Option.map2 (VRef l) (VRef l2) fn σ = (u <- fn v v2 ;; Option.some u) σ.
Proof. intros H2. js_unfold; simpl; repeat (first [rewrite Hsome | rewrite H2]; simpl); done. Qed.

Lemma Option_map2_some_none l2 fn :
  heap σ !! l2 = Some NoneObj ->
  Option.map2 (VRef l) (VRef l2) fn σ = (Normal Option.none, σ).
Proof. intros H2. js_unfold; simpl; repeat (first [rewrite Hsome | rewrite H2]; simpl); done. Qed.

Lemma Option_map3_some l2 v2 l3 v3 fn :
  heap σ !! l2 = Some (SomeObj v2) -> heap σ !! l3 = Some (SomeObj v3) ->
  Option.map3 (VRef l) (VRef l2) (VRef l3) fn σ = (u <- fn v v2 v3 ;; Option.some u) σ.
Proof.
  intros H2 H3.
  js_unfold; simpl; repeat (first [rewrite Hsome | rewrite H2 | rewrite H3]; simpl); done.
Qed.

Lemma Option_map3_some_none l2 o3 fn :
  heap σ !! l2 = Some NoneObj ->
  Option.map3 (VRef l) (VRef l2) o3 fn σ = (Normal Option.none, σ).
Proof. intros H2. js_unfold; simpl; repeat (first [rewrite Hsome | rewrite H2]; simpl); done. Qed.

Lemma Option_map3_some_some_none l2 v2 l3 fn :
  heap σ !! l2 = Some (SomeObj v2) -> heap σ !! l3 = Some NoneObj ->
  Option.map3 (VRef l) (VRef l2) (VRef l3) fn σ = (Normal Option.none, σ).
Proof.
  intros H2 H3.
  js_unfold; simpl; repeat (first [rewrite Hsome | rewrite H2 | rewrite H3]; simpl); done.
Qed.
End OnSome.

Section OnNone.
Hypothesis Hnone : heap σ !! l = Some NoneObj.

Lemma Option_isSome_none : Option.isSome (VRef l) σ = (Normal false, σ).
Proof. js_run Hnone. Qed.

Lemma Option_isNone_none : Option.isNone (VRef l) σ = (Normal true, σ).
Proof. js_run Hnone. Qed.

Lemma Option_toNullable_none : Option.toNullable (VRef l) σ = (Normal VNull, σ).
Proof. js_run Hnone. Qed.

Lemma Option_toUndefined_none : Option.toUndefined (VRef l) σ = (Normal VUndefined, σ).
Proof. js_run Hnone. Qed.

Lemma Option_map_none f : Option.map (VRef l) f σ = (Normal Option.none, σ).
Proof. js_run Hnone. Qed.

Lemma Option_andThen_none f : Option.andThen (VRef l) f σ = (Normal Option.none, σ).
Proof. js_run Hnone. Qed.

Lemma Option_orElse_none g : Option.orElse (VRef l) g σ = g σ.
Proof. js_run Hnone. Qed.

Lemma Option_unwrapOr_none d : Option.unwrapOr (VRef l) d σ = (Normal d, σ).
Proof. js_run Hnone. Qed.

Lemma Option_unwrapOrElse_none g : Option.unwrapOrElse (VRef l) g σ = g σ.
Proof. js_run Hnone. Qed.

Lemma Option_unwrap_none :
  Option.unwrap (VRef l) σ = throw_new "Error" "Called unwrap on a None value" σ.
Proof. js_run Hnone. Qed.

Lemma Option_expect_none msg :
  Option.expect (VRef l) msg σ = throw_new "Error" msg σ.
Proof. js_run Hnone. Qed.

Lemma Option_match_none pats : Option.match_ (VRef l) pats σ = Option.pat_none pats σ.
Proof. js_run Hnone. Qed.

Lemma Option_filter_none p : Option.filter (VRef l) p σ = (Normal Option.none, σ).
Proof. js_run Hnone. Qed.

Lemma Option_map2_none o2 fn : Option.map2 (VRef l) o2 fn σ = (Normal Option.none, σ).
Proof. js_run Hnone. Qed.

Lemma Option_map3_none o2 o3 fn :
  Option.map3 (VRef l) o2 o3 fn σ = (Normal Option.none, σ).
Proof. js_run Hnone. Qed.
End OnNone.
End OptionEquations.

(** ** Short-circuit on [Err] *)

(** C3. For every error payload [e] and every function [f],
    [map(err(e), f)] and [andThen(err(e), f)] return the [Err] they
    were given, and [f] is never invoked: the state after the call,
    the record of calls included, is the state before it, whatever [f]
    does when called.  The last two equations are the same fact for
    the expression [map(err(e), f)] itself. *)
Theorem Result_map_andThen_skip_err (σ : state) (l : loc) (e : val) (f : val -> M val) :
  heap σ !! l = Some (ErrObj e) ->
  Result.map (VRef l) f σ = (Normal (VRef l), σ) /\
  Result.andThen (VRef l) f σ = (Normal (VRef l), σ) /\
  calls (Result.map (VRef l) (spy "f" f) σ).2 = calls σ /\
  calls (Result.andThen (VRef l) (spy "f" f) σ).2 = calls σ /\
  (r <- Result.err e ;; Result.map r f) σ = Result.err e σ /\
  (r <- Result.err e ;; Result.andThen r f) σ = Result.err e σ.
Proof.
  intros H.
  rewrite !(Result_map_err _ _ e), !(Result_andThen_err _ _ e) by done.
  repeat split; try reflexivity.
  - unfold bind, Result.err, alloc. simpl.
    by rewrite (Result_map_err _ _ e) by apply lookup_new.
  - unfold bind, Result.err, alloc. simpl.
    by rewrite (Result_andThen_err _ _ e) by apply lookup_new.
Qed.

Lemma Result_map_andThen_skip_err_witness :
  let σ := {| heap := [ErrObj (VString "X")]; calls := [] |} in
  Result.map (VRef 0) (fun _ => throw VNull) σ = (Normal (VRef 0), σ).
Proof.
  intros σ.
  exact (proj1 (Result_map_andThen_skip_err σ 0 (VString "X") (fun _ => throw VNull) eq_refl)).
Defined.

(** ** [match] *)

(** C8. [match(r, { ok: v => ok(v), err: e => err(e) })] builds a
    Result with the variant and the payload of [r], and exactly one
    branch is invoked: the stubs record one call, of the branch of
    [r]'s variant, with [r]'s payload.  For arbitrary patterns, the
    call is that of the one branch. *)
Theorem Result_match_roundtrip (σ : state) (l : loc) :
  (forall v, heap σ !! l = Some (OkObj v) ->
     Result.match_ (VRef l) rebuild σ =
       (Normal (VRef (length (heap σ))),
        {| heap := heap σ ++ [OkObj v]; calls := calls σ ++ [("ok", v)] |}) /\
     forall pats, Result.match_ (VRef l) pats σ = Result.pat_ok pats v σ) /\
  (forall e, heap σ !! l = Some (ErrObj e) ->
     Result.match_ (VRef l) rebuild σ =
       (Normal (VRef (length (heap σ))),
        {| heap := heap σ ++ [ErrObj e]; calls := calls σ ++ [("err", e)] |}) /\
     forall pats, Result.match_ (VRef l) pats σ = Result.pat_err pats e σ).
Proof.
  split; intros p H; split; intros.
  - by rewrite (Result_match_ok _ _ p).
  - by apply Result_match_ok.
  - by rewrite (Result_match_err _ _ p).
  - by apply Result_match_err.
Qed.

Lemma Result_match_roundtrip_witness :
  let σ := {| heap := [ErrObj (VString "failed")]; calls := [] |} in
  Result.match_ (VRef 0) rebuild σ =
    (Normal (VRef 1),
     {| heap := [ErrObj (VString "failed"); ErrObj (VString "failed")];
        calls := [("err", VString "failed")] |}).
Proof.
  intros σ.
  exact (proj1 (proj2 (Result_match_roundtrip σ 0) (VString "failed") eq_refl)).
Defined.

(** ** [tryCatch] *)

(** C5. [tryCatch(f, errorMapper)] is [ok(f())] when [f] returns
    normally: a new [Ok] whose payload is the value [f] returned,
    created on the heap [f] left; the mapper is not called.  When [f]
    throws [x] it is [err(errorMapper(x))] if a mapper is supplied: a
    new [Err] of what the mapper returns (and the mapper's own
    exception, should it throw).  If no mapper is supplied it is
    [err(x)]: a new [Err] whose payload is the thrown value itself. *)
Theorem Result_tryCatch_spec (fn : M val) (σ σ1 : state) :
  (forall v mapper, fn σ = (Normal v, σ1) ->
     Result.tryCatch fn mapper σ = Result.ok v σ1 /\
     Result.tryCatch fn mapper σ =
       (Normal (VRef (length (heap σ1))), set_heap (heap σ1 ++ [OkObj v]) σ1)) /\
  (forall x mapper, fn σ = (Throw x, σ1) ->
     Result.tryCatch fn (Some mapper) σ = (m <- mapper x ;; Result.err m) σ1 /\
     forall m σ2, mapper x σ1 = (Normal m, σ2) ->
       Result.tryCatch fn (Some mapper) σ =
         (Normal (VRef (length (heap σ2))), set_heap (heap σ2 ++ [ErrObj m]) σ2)) /\
  (forall x, fn σ = (Throw x, σ1) ->
     Result.tryCatch fn None σ = Result.err x σ1 /\
     Result.tryCatch fn None σ =
       (Normal (VRef (length (heap σ1))), set_heap (heap σ1 ++ [ErrObj x]) σ1)).
Proof.
  unfold Result.tryCatch, try_catch. splits.
  - intros v mapper H. unfold bind. by rewrite H.
  - intros x mapper H. unfold bind at 1. rewrite H. split; [done|].
    intros m σ2 Hm. unfold bind. rewrite H. by rewrite Hm.
  - intros x H. unfold bind at 1 3. by rewrite H.
Qed.

Lemma Result_tryCatch_spec_witness :
  let boom : M val := throw_new "Error" "boom" in
  let mapper (e : val) : M val :=
    m <- get prop_message e ;;
    ret (match m with VString s => VString ("mapped:" +:+ s) | _ => VUndefined end) in
  Result.tryCatch boom None Option.loaded =
    (Normal (VRef 2),
     {| heap := [NoneObj; ErrorObj "Error" "boom"; ErrObj (VRef 1)]; calls := [] |}) /\
  Result.tryCatch boom (Some mapper) Option.loaded =
    (Normal (VRef 2),
     {| heap := [NoneObj; ErrorObj "Error" "boom"; ErrObj (VString "mapped:boom")];
        calls := [] |}) /\
  Result.tryCatch (spy "f" (fun _ => ret (VNumber 42)) VUndefined)
    (Some (spy "mapper" mapper)) Option.loaded =
    (Normal (VRef 1),
     {| heap := [NoneObj; OkObj (VNumber 42)]; calls := [("f", VUndefined)] |}).
Proof.
  intros boom mapper.
  pose proof (Result_tryCatch_spec boom Option.loaded
                {| heap := [NoneObj; ErrorObj "Error" "boom"]; calls := [] |})
    as (_ & Hmapped & Hraw).
  splits.
  - exact (proj2 (Hraw (VRef 1) eq_refl)).
  - exact (proj2 (Hmapped (VRef 1) mapper eq_refl) (VString "mapped:boom") _ eq_refl).
  - exact (proj2 (proj1 (Result_tryCatch_spec
                           (spy "f" (fun _ => ret (VNumber 42)) VUndefined) Option.loaded
                           {| heap := [NoneObj]; calls := [("f", VUndefined)] |})
                    (VNumber 42) (Some (spy "mapper" mapper)) eq_refl)).
Defined.

(** ** [unwrap] *)

(** What [unwrap] computes, case by case.  [unwrap(ok(v))] returns
    [v].  [unwrap(err(e))] always throws: [e] itself when [e] is an
    instance of [Error]; otherwise, when [JSON.stringify(e)] completes
    with a rendering [s], a new [Error] whose message is
    ["Unwrap failed: "] followed by [s]; and when [JSON.stringify(e)]
    throws, the statement that builds the generic error does not get to
    its [throw]. *)
Theorem Result_unwrap_spec (h : Host) (σ : state) (l : loc) :
  (forall v, heap σ !! l = Some (OkObj v) ->
     Result.unwrap h (VRef l) σ = (Normal v, σ)) /\
  (forall e, heap σ !! l = Some (ErrObj e) ->
     (exists x σ', Result.unwrap h (VRef l) σ = (Throw x, σ')) /\
     (forall le name msg,
        e = VRef le -> heap σ !! le = Some (ErrorObj name msg) ->
        Result.unwrap h (VRef l) σ = (Throw e, σ)) /\
     (forall s σ1,
        instanceof_Error e σ = (Normal false, σ) ->
        JSON_stringify h e σ = (Normal s, σ1) ->
        Result.unwrap h (VRef l) σ =
          (Throw (VRef (length (heap σ1))),
           set_heap
             (heap σ1 ++ [ErrorObj "Error" ("Unwrap failed: " +:+ template_part s)])
             σ1)) /\
     (forall x σ1,
        instanceof_Error e σ = (Normal false, σ) ->
        JSON_stringify h e σ = (Throw x, σ1) ->
        Result.unwrap h (VRef l) σ = (Throw x, σ1))).
Proof.
  split; [intros v H; by apply Result_unwrap_ok|].
  intros e H. rewrite (Result_unwrap_err _ _ e) by done.
  repeat split.
  - unfold bind at 1.
    destruct (instanceof_Error e σ) as [[[]|x] σ0] eqn:Hi; [by eauto | | by eauto].
    unfold bind. destruct (JSON_stringify h e σ0) as [[s|x] σ1]; by eauto.
  - intros le name msg -> Hle.
    unfold bind, instanceof_Error, deref, ret, bind. by rewrite Hle.
  - intros s σ1 Hi Hs. unfold bind. by rewrite Hi, Hs.
  - intros x σ1 Hi Hs. unfold bind. by rewrite Hi, Hs.
Qed.

Lemma Result_unwrap_spec_witness :
  let σ := {| heap := [ErrObj (VString "bad")]; calls := [] |} in
  Result.unwrap example_host (VRef 0) σ =
    (Throw (VRef 1),
     {| heap := [ErrObj (VString "bad");
                 ErrorObj "Error"
                   ("Unwrap failed: " +:+ dquote +:+ "bad" +:+ dquote)];
        calls := [] |}).
Proof.
  intros σ.
  exact (proj1 (proj2 (proj2 (proj2 (Result_unwrap_spec example_host σ 0)
           (VString "bad") eq_refl)))
           (Some (dquote +:+ "bad" +:+ dquote)) σ eq_refl eq_refl).
Defined.

(** C4. The code at [unwrap(err(10n))].  The payload is no instance of
    [Error], so the code goes on to throw its generic error,
    [new Error(`Unwrap failed: ${JSON.stringify(error)}`)]; but
    [JSON.stringify] rejects a BigInt, and what reaches the caller is
    the TypeError of [JSON.stringify]: no generic error with a
    rendering of the payload is thrown.  On the sibling payload
    ["bad"], which [JSON.stringify] renders, the same statement throws
    the generic error the code is after. *)
Theorem Result_unwrap_bigint_escapes :
  let σ := {| heap := [ErrObj (VBigInt 10)]; calls := [] |} in
  let τ := {| heap := [ErrObj (VString "bad")]; calls := [] |} in
  instanceof_Error (VBigInt 10) σ = (Normal false, σ) /\
  Result.unwrap example_host (VRef 0) σ =
    (Throw (VRef 1),
     {| heap := [ErrObj (VBigInt 10);
                 ErrorObj "TypeError" "Do not know how to serialize a BigInt"];
        calls := [] |}) /\
  ~ (exists s x σ',
       Result.unwrap example_host (VRef 0) σ = (Throw x, σ') /\
       exists lx, x = VRef lx /\
         heap σ' !! lx = Some (ErrorObj "Error" ("Unwrap failed: " +:+ s))) /\
  Result.unwrap example_host (VRef 0) τ =
    (Throw (VRef 1),
     {| heap := [ErrObj (VString "bad");
                 ErrorObj "Error" ("Unwrap failed: " +:+ dquote +:+ "bad" +:+ dquote)];
        calls := [] |}).
Proof.
  intros σ τ. split; [reflexivity|]. split; [reflexivity|]. split; [|reflexivity].
  intros (s & x & σ' & Hrun & lx & -> & Hlx).
  vm_compute in Hrun. injection Hrun as <- <-. simpl in Hlx. discriminate.
Qed.

(** ** [combine] *)

Section CombineLoops.
Variables (h : list obj) (cs : list (string * val)).

Local Abbreviation at_ acc := (filling h cs acc).

Lemma Result_combine_loop_step acc r v rest :
  is_ok h r v ->
  Result.combine_loop (VRef (length h)) (r :: rest) (at_ acc) =
  Result.combine_loop (VRef (length h)) rest (at_ (acc ++ [v])).
Proof.
  intros (l & -> & H). simpl.
  unfold Result.isErr, get, deref, bind, ret, push, filling, set_heap. simpl.
  repeat (first [rewrite lookup_new | rewrite (lookup_old _ _ _ _ H)
                | rewrite insert_new]; simpl).
  reflexivity.
Qed.

Lemma Result_combine_loop_oks rs vs : forall acc,
  Forall2 (is_ok h) rs vs ->
  Result.combine_loop (VRef (length h)) rs (at_ acc) =
  Result.ok (VRef (length h)) (at_ (acc ++ vs)).
Proof.
  intros acc H. revert acc.
  induction H as [|r v rs vs Hr _ IH]; intros acc.
  - by rewrite app_nil_r.
  - rewrite (Result_combine_loop_step _ _ v) by done.
    by rewrite IH, <- app_assoc.
Qed.

Lemma Result_combine_loop_err pre vs l e post : forall acc,
  Forall2 (is_ok h) pre vs -> h !! l = Some (ErrObj e) ->
  Result.combine_loop (VRef (length h)) (pre ++ VRef l :: post) (at_ acc) =
  (Normal (VRef l), at_ (acc ++ vs)).
Proof.
  intros acc H He. revert acc.
  induction H as [|r v rs vs Hr _ IH]; intros acc.
  - rewrite app_nil_r. simpl.
    unfold Result.isErr, get, deref, bind, ret, filling. simpl.
    by rewrite (lookup_old _ _ _ _ He).
  - rewrite <- app_comm_cons, (Result_combine_loop_step _ _ v) by done.
    by rewrite IH, <- app_assoc.
Qed.

Lemma Option_combine_loop_step acc o v rest :
  is_some h o v ->
  Option.combine_loop (VRef (length h)) (o :: rest) (at_ acc) =
  Option.combine_loop (VRef (length h)) rest (at_ (acc ++ [v])).
Proof.
  intros (l & -> & H). simpl.
  unfold Option.isNone, get, deref, bind, ret, push, filling, set_heap. simpl.
  repeat (first [rewrite lookup_new | rewrite (lookup_old _ _ _ _ H)
                | rewrite insert_new]; simpl).
  reflexivity.
Qed.

Lemma Option_combine_loop_somes os vs : forall acc,
  Forall2 (is_some h) os vs ->
  Option.combine_loop (VRef (length h)) os (at_ acc) =
  Option.some (VRef (length h)) (at_ (acc ++ vs)).
Proof.
  intros acc H. revert acc.
  induction H as [|o v os vs Ho _ IH]; intros acc.
  - by rewrite app_nil_r.
  - rewrite (Option_combine_loop_step _ _ v) by done.
    by rewrite IH, <- app_assoc.
Qed.

Lemma Option_combine_loop_none pre vs o post : forall acc,
  Forall2 (is_some h) pre vs -> is_none h o ->
  Option.combine_loop (VRef (length h)) (pre ++ o :: post) (at_ acc) =
  (Normal Option.none, at_ (acc ++ vs)).
Proof.
  intros acc H (l & -> & Hn). revert acc.
  induction H as [|r v rs vs Hr _ IH]; intros acc.
  - rewrite app_nil_r. simpl.
    unfold Option.isNone, get, deref, bind, ret, filling. simpl.
    by rewrite (lookup_old _ _ _ _ Hn).
  - rewrite <- app_comm_cons, (Option_combine_loop_step _ _ v) by done.
    by rewrite IH, <- app_assoc.
Qed.
End CombineLoops.

Lemma combine_enter (loop : val -> list val -> M val) (σ : state) (a : loc) (rs : list val) :
  heap σ !! a = Some (ArrayObj rs) ->
  (values <- alloc (ArrayObj []) ;; xs <- iterate (VRef a) ;; loop values xs) σ =
  loop (VRef (length (heap σ))) rs (filling (heap σ) (calls σ) []).
Proof.
  intros H. unfold bind, alloc, iterate, deref, ret, bind, set_heap. simpl.
  by rewrite (lookup_old _ _ _ _ H).
Qed.

(** A list of Results is all [Ok], or has a first [Err]. *)
Lemma results_split (h : list obj) (rs : list val) :
  Forall (is_result h) rs ->
  (exists vs, Forall2 (is_ok h) rs vs) \/
  (exists pre vs l e post,
     rs = pre ++ VRef l :: post /\ Forall2 (is_ok h) pre vs /\ h !! l = Some (ErrObj e)).
Proof.
  induction 1 as [|r rs Hr _ IH].
  - left. exists []. constructor.
  - destruct Hr as [[v Hv]|[e (l & -> & He)]].
    + destruct IH as [[vs IH]|(pre & vs & l & e & post & -> & Hpre & He)].
      * left. exists (v :: vs). by constructor.
      * right. exists (r :: pre), (v :: vs), l, e, post. repeat split; [|done].
        by constructor.
    + right. exists [], [], l, e, rs. repeat split; [constructor|done].
Qed.

(** C1. For an array of Results, [combine] returns the first [Err]
    element (the element itself) if there is one, whatever follows it;
    otherwise it returns a new [Ok] of a new array holding the success
    values in the order of the input.  Every array of Results is in one
    of the two cases. *)
Theorem Result_combine_spec (σ : state) (a : loc) (rs : list val) :
  heap σ !! a = Some (ArrayObj rs) ->
  (forall pre vs l e post,
     rs = pre ++ VRef l :: post ->
     Forall2 (is_ok (heap σ)) pre vs ->
     heap σ !! l = Some (ErrObj e) ->
     Result.combine (VRef a) σ =
       (Normal (VRef l), set_heap (heap σ ++ [ArrayObj vs]) σ)) /\
  (forall vs,
     Forall2 (is_ok (heap σ)) rs vs ->
     Result.combine (VRef a) σ =
       (Normal (VRef (S (length (heap σ)))),
        set_heap (heap σ ++ [ArrayObj vs; OkObj (VRef (length (heap σ)))]) σ)) /\
  (Forall (is_result (heap σ)) rs ->
     (exists vs, Forall2 (is_ok (heap σ)) rs vs) \/
     (exists pre vs l e post,
        rs = pre ++ VRef l :: post /\ Forall2 (is_ok (heap σ)) pre vs /\
        heap σ !! l = Some (ErrObj e))).
Proof.
  intros Ha. unfold Result.combine. rewrite (combine_enter _ _ _ rs) by done.
  repeat split.
  - intros pre vs l e post -> Hpre He.
    by rewrite (Result_combine_loop_err _ _ _ vs _ e).
  - intros vs Hvs. rewrite (Result_combine_loop_oks _ _ _ vs) by done.
    unfold Result.ok, alloc, set_heap. simpl.
    by rewrite length_app, Nat.add_1_r, <- app_assoc.
  - apply results_split.
Qed.

Lemma Result_combine_spec_witness :
  let σ := {| heap := [OkObj (VNumber 1); ErrObj (VString "X"); OkObj (VNumber 3);
                       OkObj (VNumber 2);
                       ArrayObj [VRef 0; VRef 1; VRef 2];
                       ArrayObj [VRef 0; VRef 3; VRef 2]];
              calls := [] |} in
  Result.combine (VRef 4) σ =
    (Normal (VRef 1), set_heap (heap σ ++ [ArrayObj [VNumber 1]]) σ) /\
  Result.combine (VRef 5) σ =
    (Normal (VRef 7),
     set_heap (heap σ ++ [ArrayObj [VNumber 1; VNumber 2; VNumber 3]; OkObj (VRef 6)]) σ).
Proof.
  intros σ. split.
  - refine (proj1 (Result_combine_spec σ 4 [VRef 0; VRef 1; VRef 2] eq_refl)
              [VRef 0] [VNumber 1] 1 (VString "X") [VRef 2] eq_refl _ eq_refl).
    repeat constructor. by exists 0.
  - refine (proj1 (proj2 (Result_combine_spec σ 5 [VRef 0; VRef 3; VRef 2] eq_refl))
              [VNumber 1; VNumber 2; VNumber 3] _).
    repeat constructor; [by exists 0|by exists 3|by exists 2].
Defined.

(** C10. On an empty array both [combine] operations succeed with an
    empty collection: [Result.combine] returns a new [Ok] of a new
    empty array, [Option.combine] a new [Some] of a new empty array. *)
Theorem combine_empty (σ : state) (a : loc) :
  heap σ !! a = Some (ArrayObj []) ->
  Result.combine (VRef a) σ =
    (Normal (VRef (S (length (heap σ)))),
     set_heap (heap σ ++ [ArrayObj []; OkObj (VRef (length (heap σ)))]) σ) /\
  Option.combine (VRef a) σ =
    (Normal (VRef (S (length (heap σ)))),
     set_heap (heap σ ++ [ArrayObj []; SomeObj (VRef (length (heap σ)))]) σ).
Proof.
  intros Ha. unfold Result.combine, Option.combine.
  rewrite !(combine_enter _ _ _ []) by done. simpl.
  unfold Result.ok, Option.some, alloc, set_heap. simpl.
  rewrite !length_app, !Nat.add_1_r, <- !app_assoc. by split.
Qed.

Lemma combine_empty_witness :
  let σ := {| heap := [NoneObj; ArrayObj []]; calls := [] |} in
  Result.combine (VRef 1) σ =
    (Normal (VRef 3),
     {| heap := [NoneObj; ArrayObj []; ArrayObj []; OkObj (VRef 2)]; calls := [] |}) /\
  Option.combine (VRef 1) σ =
    (Normal (VRef 3),
     {| heap := [NoneObj; ArrayObj []; ArrayObj []; SomeObj (VRef 2)]; calls := [] |}).
Proof.
  intros σ. exact (combine_empty σ 1 eq_refl).
Defined.

(** ** [fromNullable] *)

(** C7. [fromNullable(v)] returns [none] exactly when [v] is [null] or
    [undefined]; for every other value, the falsy [0], [""] and [false]
    included, it returns a new [Some] holding [v]. *)
Theorem Option_fromNullable_spec (σ : state) (v : val) :
  (v = VNull \/ v = VUndefined ->
     Option.fromNullable v σ = (Normal Option.none, σ)) /\
  (v <> VNull -> v <> VUndefined ->
     Option.fromNullable v σ =
       (Normal (VRef (length (heap σ))), set_heap (heap σ ++ [SomeObj v]) σ)) /\
  (heap σ !! Option.none_loc = Some NoneObj ->
     forall r σ', Option.fromNullable v σ = (Normal r, σ') ->
       (is_none (heap σ') r <-> v = VNull \/ v = VUndefined) /\
       (is_some (heap σ') r v <-> v <> VNull /\ v <> VUndefined)) /\
  Option.fromNullable (VNumber 0) σ = Option.some (VNumber 0) σ /\
  Option.fromNullable (VString "") σ = Option.some (VString "") σ /\
  Option.fromNullable (VBool false) σ = Option.some (VBool false) σ.
Proof.
  split; [by intros [-> | ->]|].
  split; [intros H1 H2; by destruct v|].
  split; [|by repeat split].
  intros Hn r σ' Hrun. unfold Option.none_loc in Hn.
  assert (Hnew : forall o, (heap σ ++ [o]) !! length (heap σ) = Some o)
    by (intros; apply lookup_new).
  destruct v; simpl in Hrun; injection Hrun as <- <-; simpl;
    (split; split);
    try (intros (l' & Hl & Hh); injection Hl as <-; unfold Option.none_loc in Hh);
    try (intros [? | ?]); try (intros [? ?]);
    try (split; intros ?);
    try congruence;
    try (right; reflexivity); try (left; reflexivity);
    try (by exists 0);
    try (rewrite Hnew in Hh; congruence);
    try (eexists; split; [reflexivity|apply Hnew]).
Qed.

Lemma Option_fromNullable_spec_witness :
  Option.fromNullable VNull Option.loaded = (Normal Option.none, Option.loaded) /\
  Option.fromNullable (VNumber 0) Option.loaded =
    (Normal (VRef 1), {| heap := [NoneObj; SomeObj (VNumber 0)]; calls := [] |}).
Proof.
  split.
  - exact (proj1 (Option_fromNullable_spec Option.loaded VNull) (or_introl eq_refl)).
  - refine (proj1 (proj2 (Option_fromNullable_spec Option.loaded (VNumber 0))) _ _);
      discriminate.
Defined.

(** ** The asynchronous duals *)

Lemma await_promise (σ : state) (lp : loc) (st : pstate) :
  heap σ !! lp = Some (PromiseObj st) ->
  await (VRef lp) σ =
    (match st with
     | Fulfilled a => Returned a
     | Rejected x => Thrown x
     | Pending => Suspended
     end, σ).
Proof. intros H. unfold await, settled. rewrite H. by destruct st. Qed.

Lemma await_plain (σ : state) (v : val) :
  plain (heap σ) v -> await v σ = (Returned v, σ).
Proof. unfold plain, await. by intros ->. Qed.

Lemma async_lift (m : M val) (σ : state) :
  async (lift m) σ =
    match m σ with
    | (Normal v, σ') => alloc (PromiseObj (settled (heap σ') v)) σ'
    | (Throw x, σ') => alloc (PromiseObj (Rejected x)) σ'
    end.
Proof. unfold async, lift. by destruct (m σ) as [[v|x] σ']. Qed.

Lemma get_value_ok (σ : state) (l : loc) (v : val) :
  heap σ !! l = Some (OkObj v) -> get prop_value (VRef l) σ = (Normal v, σ).
Proof. intros H. unfold get, deref, bind, ret. by rewrite H. Qed.

Lemma get_value_some (σ : state) (l : loc) (v : val) :
  heap σ !! l = Some (SomeObj v) -> get prop_value (VRef l) σ = (Normal v, σ).
Proof. intros H. unfold get, deref, bind, ret. by rewrite H. Qed.

Lemma settled_container (h : list obj) (l : loc) (o : obj) :
  h !! l = Some o -> (forall st, o <> PromiseObj st) -> settled h (VRef l) = Fulfilled (VRef l).
Proof. intros H Ho. unfold settled. rewrite H. destruct o; try done. by destruct (Ho st). Qed.

(** C9. Let the input future be fulfilled with [r]; the transform is
    any function.  An [Err] (a [None]) goes through: the returned
    promise is fulfilled with [r] (with [none]), as the one an [async]
    wrapper around [map(r, f)] or [andThen(r, f)] returns, and the
    transform is not called.  On an [Ok] or [Some] of [v], when [f(v)]
    is not a promise the returned promise is the one the [async]
    wrapper around the synchronous operation returns, after the same
    effects, also when [f(v)] throws: it is then rejected with what was
    thrown.  When [f(v)] is a promise fulfilled with [w], [mapAsync]
    returns a promise fulfilled with a new [Ok] ([Some]) of [w] and
    [andThenAsync] one fulfilled with [w]; when [f(v)] is rejected or
    pending, so is the returned promise.  While the input future is
    pending the returned promise is pending and nothing else has
    happened; when it is rejected the returned promise is rejected
    with the same reason. *)
Theorem mapAsync_andThenAsync_agree (σ : state) (lp : loc) (fn : val -> M val) :
  let n := length (heap σ) in
  (forall r, heap σ !! lp = Some (PromiseObj (Fulfilled r)) ->
     (forall l e, r = VRef l -> heap σ !! l = Some (ErrObj e) ->
        let through :=
          (Normal (VRef n), set_heap (heap σ ++ [PromiseObj (Fulfilled r)]) σ) in
        Result.mapAsync (VRef lp) fn σ = through /\
        Result.andThenAsync (VRef lp) fn σ = through /\
        async (lift (Result.map r fn)) σ = through /\
        async (lift (Result.andThen r fn)) σ = through) /\
     (forall l, r = VRef l -> heap σ !! l = Some NoneObj ->
        heap σ !! Option.none_loc = Some NoneObj ->
        let through :=
          (Normal (VRef n), set_heap (heap σ ++ [PromiseObj (Fulfilled Option.none)]) σ) in
        Option.mapAsync (VRef lp) fn σ = through /\
        Option.andThenAsync (VRef lp) fn σ = through /\
        async (lift (Option.map r fn)) σ = through /\
        async (lift (Option.andThen r fn)) σ = through) /\
     (forall l v, r = VRef l -> heap σ !! l = Some (OkObj v) -> sync_at fn v σ ->
        Result.mapAsync (VRef lp) fn σ = async (lift (Result.map r fn)) σ /\
        Result.andThenAsync (VRef lp) fn σ = async (lift (Result.andThen r fn)) σ) /\
     (forall l v, r = VRef l -> heap σ !! l = Some (SomeObj v) -> sync_at fn v σ ->
        Option.mapAsync (VRef lp) fn σ = async (lift (Option.map r fn)) σ /\
        Option.andThenAsync (VRef lp) fn σ = async (lift (Option.andThen r fn)) σ) /\
     (forall l v u σ1, r = VRef l -> fn v σ = (Normal u, σ1) ->
        let n1 := length (heap σ1) in
        let settles (ops : val -> obj) (map_ and_ : completion val * state) :=
          (forall w, settled (heap σ1) u = Fulfilled w ->
             map_ = (Normal (VRef (S n1)),
                     set_heap (heap σ1 ++ [ops w; PromiseObj (Fulfilled (VRef n1))]) σ1) /\
             (plain (heap σ1) w ->
              and_ = (Normal (VRef n1),
                      set_heap (heap σ1 ++ [PromiseObj (Fulfilled w)]) σ1))) /\
          (forall x, settled (heap σ1) u = Rejected x ->
             let rejected :=
               (Normal (VRef n1), set_heap (heap σ1 ++ [PromiseObj (Rejected x)]) σ1) in
             map_ = rejected /\ and_ = rejected) /\
          (settled (heap σ1) u = Pending ->
             let pending :=
               (Normal (VRef n1), set_heap (heap σ1 ++ [PromiseObj Pending]) σ1) in
             map_ = pending /\ and_ = pending) in
        (heap σ !! l = Some (OkObj v) ->
           settles OkObj (Result.mapAsync (VRef lp) fn σ)
             (Result.andThenAsync (VRef lp) fn σ)) /\
        (heap σ !! l = Some (SomeObj v) ->
           settles SomeObj (Option.mapAsync (VRef lp) fn σ)
             (Option.andThenAsync (VRef lp) fn σ))) /\
     (forall l v x σ1, r = VRef l -> fn v σ = (Throw x, σ1) ->
        let rejected :=
          (Normal (VRef (length (heap σ1))),
           set_heap (heap σ1 ++ [PromiseObj (Rejected x)]) σ1) in
        (heap σ !! l = Some (OkObj v) ->
           Result.mapAsync (VRef lp) fn σ = rejected /\
           Result.andThenAsync (VRef lp) fn σ = rejected) /\
        (heap σ !! l = Some (SomeObj v) ->
           Option.mapAsync (VRef lp) fn σ = rejected /\
           Option.andThenAsync (VRef lp) fn σ = rejected))) /\
  (heap σ !! lp = Some (PromiseObj Pending) ->
     let pending :=
       (Normal (VRef n), set_heap (heap σ ++ [PromiseObj Pending]) σ) in
     Result.mapAsync (VRef lp) fn σ = pending /\
     Result.andThenAsync (VRef lp) fn σ = pending /\
     Option.mapAsync (VRef lp) fn σ = pending /\
     Option.andThenAsync (VRef lp) fn σ = pending) /\
  (forall x, heap σ !! lp = Some (PromiseObj (Rejected x)) ->
     let rejected :=
       (Normal (VRef n), set_heap (heap σ ++ [PromiseObj (Rejected x)]) σ) in
     Result.mapAsync (VRef lp) fn σ = rejected /\
     Result.andThenAsync (VRef lp) fn σ = rejected /\
     Option.mapAsync (VRef lp) fn σ = rejected /\
     Option.andThenAsync (VRef lp) fn σ = rejected).
Proof.
  intros n. split.
  - intros r Hp.
    assert (Ha := await_promise _ _ _ Hp). simpl in Ha.
    splits.
    + intros l e -> Hl through.
      assert (Hs : settled (heap σ) (VRef l) = Fulfilled (VRef l))
        by (by eapply settled_container).
      rewrite !async_lift, (Result_map_err _ _ e), (Result_andThen_err _ _ e) by done.
      unfold Result.mapAsync, Result.andThenAsync, async, abind. rewrite Ha.
      unfold lift. rewrite !(Result_isOk_err _ _ e) by done.
      unfold aret, alloc, through, n. by rewrite Hs.
    + intros l -> Hl Hn through.
      assert (Hs : settled (heap σ) Option.none = Fulfilled Option.none)
        by (by eapply settled_container).
      rewrite !async_lift, Option_map_none, Option_andThen_none by done.
      unfold Option.mapAsync, Option.andThenAsync, async, abind. rewrite Ha.
      unfold lift. rewrite !Option_isSome_none by done.
      unfold aret, alloc, through, n. by rewrite Hs.
    + intros l v -> Hl Hsync.
      rewrite !async_lift, (Result_map_ok _ _ v), (Result_andThen_ok _ _ v) by done.
      unfold Result.mapAsync, Result.andThenAsync, async, abind. rewrite Ha.
      unfold lift. rewrite !(Result_isOk_ok _ _ v), !(get_value_ok _ _ v) by done.
      unfold bind. destruct (fn v σ) as [[u|x] σ1] eqn:Hfn; [|done].
      rewrite (await_plain _ _ (Hsync _ _ Hfn)). by rewrite (Hsync _ _ Hfn).
    + intros l v -> Hl Hsync.
      rewrite !async_lift, (Option_map_some _ _ v), (Option_andThen_some _ _ v) by done.
      unfold Option.mapAsync, Option.andThenAsync, async, abind. rewrite Ha.
      unfold lift. rewrite !(Option_isSome_some _ _ v), !(get_value_some _ _ v) by done.
      unfold bind. destruct (fn v σ) as [[u|x] σ1] eqn:Hfn; [|done].
      rewrite (await_plain _ _ (Hsync _ _ Hfn)). by rewrite (Hsync _ _ Hfn).
    + intros l v u σ1 -> Hfn n1 settles. subst settles. cbv beta. split.
      * intros Hl.
        unfold Result.mapAsync, Result.andThenAsync, async, abind. rewrite Ha.
        unfold lift. rewrite !(Result_isOk_ok _ _ v), !(get_value_ok _ _ v) by done.
        rewrite Hfn. unfold await.
        splits.
        -- intros w Hw. rewrite Hw. split.
           ++ unfold Result.ok, alloc. cbn [heap set_heap].
              rewrite (settled_container _ _ (OkObj w)); [|apply lookup_new|done].
              unfold set_heap. cbn [heap calls]. rewrite <- app_assoc, length_app.
              cbn [length app]. by rewrite Nat.add_1_r.
           ++ intros Hplain. by rewrite Hplain.
        -- intros x Hx. by rewrite Hx.
        -- intros Hpend. by rewrite Hpend.
      * intros Hl.
        unfold Option.mapAsync, Option.andThenAsync, async, abind. rewrite Ha.
        unfold lift. rewrite !(Option_isSome_some _ _ v), !(get_value_some _ _ v) by done.
        rewrite Hfn. unfold await.
        splits.
        -- intros w Hw. rewrite Hw. split.
           ++ unfold Option.some, alloc. cbn [heap set_heap].
              rewrite (settled_container _ _ (SomeObj w)); [|apply lookup_new|done].
              unfold set_heap. cbn [heap calls]. rewrite <- app_assoc, length_app.
              cbn [length app]. by rewrite Nat.add_1_r.
           ++ intros Hplain. by rewrite Hplain.
        -- intros x Hx. by rewrite Hx.
        -- intros Hpend. by rewrite Hpend.
    + intros l v x σ1 -> Hfn rejected. split.
      * intros Hl.
        unfold Result.mapAsync, Result.andThenAsync, async, abind. rewrite Ha.
        unfold lift. rewrite !(Result_isOk_ok _ _ v), !(get_value_ok _ _ v) by done.
        by rewrite Hfn.
      * intros Hl.
        unfold Option.mapAsync, Option.andThenAsync, async, abind. rewrite Ha.
        unfold lift. rewrite !(Option_isSome_some _ _ v), !(get_value_some _ _ v) by done.
        by rewrite Hfn.
  - split; [intros Hp ?|intros x Hp ?];
      assert (Ha := await_promise _ _ _ Hp);
      unfold Result.mapAsync, Result.andThenAsync, Option.mapAsync,
        Option.andThenAsync, async, abind;
      by rewrite Ha.
Qed.

Lemma mapAsync_andThenAsync_agree_witness :
  let σ := {| heap := [NoneObj; OkObj (VNumber 5); PromiseObj (Fulfilled (VRef 1));
                       ErrObj (VString "X"); PromiseObj (Fulfilled (VRef 3))];
              calls := [] |} in
  let later (f : val -> M val) (v : val) : M val := async (lift (f v)) in
  Result.mapAsync (VRef 2) double σ =
    (Normal (VRef 6),
     set_heap (heap σ ++ [OkObj (VNumber 10); PromiseObj (Fulfilled (VRef 5))]) σ) /\
  Result.mapAsync (VRef 2) (later double) σ =
    (Normal (VRef 7),
     set_heap (heap σ ++ [PromiseObj (Fulfilled (VNumber 10)); OkObj (VNumber 10);
                          PromiseObj (Fulfilled (VRef 6))]) σ) /\
  Result.andThenAsync (VRef 2) (later Result.ok) σ =
    (Normal (VRef 7),
     set_heap (heap σ ++ [OkObj (VNumber 5); PromiseObj (Fulfilled (VRef 5));
                          PromiseObj (Fulfilled (VRef 5))]) σ) /\
  Result.andThenAsync (VRef 4) (later Result.ok) σ =
    (Normal (VRef 5), set_heap (heap σ ++ [PromiseObj (Fulfilled (VRef 3))]) σ).
Proof.
  intros σ later. splits.
  - refine (eq_trans
              (proj1 (proj1 (proj2 (proj2 (proj1 (mapAsync_andThenAsync_agree σ 2 double)
                                             (VRef 1) eq_refl)))
                        1 (VNumber 5) eq_refl eq_refl _))
              eq_refl).
    intros u σ1 H. injection H as <- <-. reflexivity.
  - exact (proj1 (proj1 (proj1 (proj1 (proj2 (proj2 (proj2 (proj2
             (proj1 (mapAsync_andThenAsync_agree σ 2 (later double)) (VRef 1) eq_refl)))))
             1 (VNumber 5) (VRef 5)
             (set_heap (heap σ ++ [PromiseObj (Fulfilled (VNumber 10))]) σ)
             eq_refl eq_refl) eq_refl) (VNumber 10) eq_refl)).
  - exact (proj2 (proj1 (proj1 (proj1 (proj2 (proj2 (proj2 (proj2
             (proj1 (mapAsync_andThenAsync_agree σ 2 (later Result.ok)) (VRef 1) eq_refl)))))
             1 (VNumber 5) (VRef 6)
             (set_heap (heap σ ++ [OkObj (VNumber 5); PromiseObj (Fulfilled (VRef 5))]) σ)
             eq_refl eq_refl) eq_refl) (VRef 5) eq_refl) eq_refl).
  - exact (proj1 (proj2 (proj1 (proj1 (mapAsync_andThenAsync_agree σ 4 (later Result.ok))
                                  (VRef 3) eq_refl)
                           3 (VString "X") eq_refl eq_refl))).
Defined.

(** ** Frame rules: what a computation leaves unchanged *)

Lemma unchanged_refl σ : unchanged σ σ.
Proof. unfold unchanged. reflexivity. Qed.

Lemma unchanged_trans σ1 σ2 σ3 : unchanged σ1 σ2 -> unchanged σ2 σ3 -> unchanged σ1 σ3.
Proof. unfold unchanged. by etrans. Qed.

Lemma unchanged_alloc σ σ1 o : unchanged σ σ1 -> unchanged σ (alloc o σ1).2.
Proof.
  unfold unchanged. simpl. intros H. etrans; [exact H|]. by apply prefix_app_r.
Qed.

Lemma unchanged_lookup (σ σ' : state) (l : loc) (o : obj) :
  unchanged σ σ' -> heap σ !! l = Some o -> heap σ' !! l = Some o.
Proof. intros [k ->] H. by apply lookup_old. Qed.

Lemma unchanged_length σ σ' : unchanged σ σ' -> length (heap σ) <= length (heap σ').
Proof. apply prefix_length. Qed.

Lemma fresh_alloc σ σ1 o : unchanged σ σ1 -> fresh σ (alloc o σ1).2 (VRef (length (heap σ1))).
Proof.
  intros H%unchanged_length. eexists; split; [done|]. simpl.
  rewrite length_app. simpl. lia.
Qed.

Create HintDb frame.

Lemma frame_ret {A} (a : A) : frame (ret a).
Proof. intros σ. apply unchanged_refl. Qed.

Lemma frame_throw {A} x : frame (@throw A x).
Proof. intros σ. apply unchanged_refl. Qed.

Lemma frame_alloc o : frame (alloc o).
Proof. intros σ. apply unchanged_alloc, unchanged_refl. Qed.

Lemma frame_deref l : frame (deref l).
Proof. intros σ. apply unchanged_refl. Qed.

Lemma frame_bind {A B} (m : M A) (k : A -> M B) :
  frame m -> (forall a, frame (k a)) -> frame (bind m k).
Proof.
  intros Hm Hk σ. unfold bind. specialize (Hm σ).
  destruct (m σ) as [[a|x] σ1]; [|done].
  eapply unchanged_trans; [exact Hm|apply Hk].
Qed.

Lemma frame_try_catch {A} (m : M A) (k : val -> M A) :
  frame m -> (forall x, frame (k x)) -> frame (try_catch m k).
Proof.
  intros Hm Hk σ. unfold try_catch. specialize (Hm σ).
  destruct (m σ) as [[a|x] σ1]; [done|].
  eapply unchanged_trans; [exact Hm|apply Hk].
Qed.

Lemma frame_if {A} (b : bool) (m1 m2 : M A) :
  frame m1 -> frame m2 -> frame (if b then m1 else m2).
Proof. by destruct b. Qed.

Lemma frame_throw_new {A} name msg : frame (@throw_new A name msg).
Proof. apply frame_bind; [apply frame_alloc|intros; apply frame_throw]. Qed.

#[local] Hint Resolve frame_ret frame_throw frame_alloc frame_deref
  frame_throw_new : frame.
#[local] Hint Extern 2 (frame (bind _ _)) => apply frame_bind; [|intros] : frame.
#[local] Hint Extern 2 (frame (try_catch _ _)) => apply frame_try_catch; [|intros] : frame.
#[local] Hint Extern 2 (frame (if _ then _ else _)) => apply frame_if : frame.
#[local] Hint Extern 3 (frame (match ?x with _ => _ end)) => destruct x : frame.

Lemma frame_get p v : frame (get p v).
Proof. unfold get. destruct v; auto with frame. Qed.

Lemma frame_instanceof_Error e : frame (instanceof_Error e).
Proof. unfold instanceof_Error. destruct e; auto with frame. Qed.

Lemma frame_iterate arr : frame (iterate arr).
Proof. unfold iterate. destruct arr; auto 6 with frame. Qed.

#[local] Hint Resolve frame_get frame_instanceof_Error frame_iterate : frame.

Lemma frame_Result_isOk r : frame (Result.isOk r).
Proof. unfold Result.isOk. auto with frame. Qed.

Lemma frame_Result_isErr r : frame (Result.isErr r).
Proof. unfold Result.isErr. auto with frame. Qed.

Lemma frame_Option_isSome o : frame (Option.isSome o).
Proof. unfold Option.isSome. auto with frame. Qed.

Lemma frame_Option_isNone o : frame (Option.isNone o).
Proof. unfold Option.isNone. auto with frame. Qed.

#[local] Hint Resolve frame_Result_isOk frame_Result_isErr frame_Option_isSome
  frame_Option_isNone : frame.
#[local] Hint Unfold Result.ok Result.err Option.some : frame.

Section FrameOfOperations.
Variables (fn : val -> M val) (p : val -> M bool) (g : M val).
Variables (fn2 : val -> val -> M val) (fn3 : val -> val -> val -> M val).
Hypothesis Hfn : forall v, frame (fn v).
Hypothesis Hp : forall v, frame (p v).
Hypothesis Hg : frame g.
Hypothesis Hfn2 : forall v1 v2, frame (fn2 v1 v2).
Hypothesis Hfn3 : forall v1 v2 v3, frame (fn3 v1 v2 v3).

Lemma frame_Result_map r : frame (Result.map r fn).
Proof. unfold Result.map, Result.ok. auto 7 with frame. Qed.

Lemma frame_Result_mapErr r : frame (Result.mapErr r fn).
Proof. unfold Result.mapErr, Result.err. auto 7 with frame. Qed.

Lemma frame_Result_andThen r : frame (Result.andThen r fn).
Proof. unfold Result.andThen. auto 7 with frame. Qed.

Lemma frame_Result_orElse r : frame (Result.orElse r fn).
Proof. unfold Result.orElse. auto 7 with frame. Qed.

Lemma frame_Result_filter r : frame (Result.filter r p fn).
Proof. unfold Result.filter, Result.err. auto 10 with frame. Qed.

Lemma frame_Result_tryCatch mapper :
  match mapper with Some f => forall x, frame (f x) | None => True end ->
  frame (Result.tryCatch g mapper).
Proof.
  intros Hm. unfold Result.tryCatch, Result.ok, Result.err.
  destruct mapper; auto 7 with frame.
Qed.

Lemma frame_Option_map o : frame (Option.map o fn).
Proof. unfold Option.map, Option.some. auto 7 with frame. Qed.

Lemma frame_Option_andThen o : frame (Option.andThen o fn).
Proof. unfold Option.andThen. auto 7 with frame. Qed.

Lemma frame_Option_orElse o : frame (Option.orElse o g).
Proof. unfold Option.orElse. auto 7 with frame. Qed.

Lemma frame_Option_filter o : frame (Option.filter o p).
Proof. unfold Option.filter. auto 10 with frame. Qed.

Lemma frame_Option_map2 o1 o2 : frame (Option.map2 o1 o2 fn2).
Proof. unfold Option.map2, Option.some. auto 12 with frame. Qed.

Lemma frame_Option_map3 o1 o2 o3 : frame (Option.map3 o1 o2 o3 fn3).
Proof. unfold Option.map3, Option.some. auto 14 with frame. Qed.
End FrameOfOperations.

Lemma frame_Option_fromNullable v : frame (Option.fromNullable v).
Proof. unfold Option.fromNullable, Option.some. auto with frame. Qed.

(** The loops that fill a new array: they update that array only. *)

Lemma frame_keeps h {A} (m : M A) : frame m -> keeps h m.
Proof. intros H σ Hh. etrans; [exact Hh|apply H]. Qed.

Lemma keeps_bind h {A B} (m : M A) (k : A -> M B) :
  keeps h m -> (forall a, keeps h (k a)) -> keeps h (bind m k).
Proof.
  intros Hm Hk σ Hh. unfold bind. specialize (Hm σ Hh).
  destruct (m σ) as [[a|x] σ1]; [|done]. by apply Hk.
Qed.

Lemma keeps_push h x : keeps h (push (VRef (length h)) x).
Proof.
  intros σ [k Hk]. unfold push, bind, deref. simpl.
  match goal with |- context [match ?o with ArrayObj _ => _ | _ => _ end] =>
    destruct o end;
    try (simpl; rewrite Hk, <- app_assoc; by apply prefix_app_r).
  simpl. rewrite Hk, insert_app_r_alt by lia. by apply prefix_app_r.
Qed.

Lemma keeps_Result_combine_loop h rs :
  keeps h (Result.combine_loop (VRef (length h)) rs).
Proof.
  induction rs as [|r rs IH]; simpl.
  - apply frame_keeps. unfold Result.ok. auto with frame.
  - apply keeps_bind; [apply frame_keeps; auto with frame|].
    intros []; [apply frame_keeps; auto with frame|].
    apply keeps_bind; [apply frame_keeps; auto with frame|]. intros v.
    apply keeps_bind; [apply keeps_push|]. intros _. apply IH.
Qed.

Lemma keeps_Option_combine_loop h os :
  keeps h (Option.combine_loop (VRef (length h)) os).
Proof.
  induction os as [|o os IH]; simpl.
  - apply frame_keeps. unfold Option.some. auto with frame.
  - apply keeps_bind; [apply frame_keeps; auto with frame|].
    intros []; [apply frame_keeps; auto with frame|].
    apply keeps_bind; [apply frame_keeps; auto with frame|]. intros v.
    apply keeps_bind; [apply keeps_push|]. intros _. apply IH.
Qed.

Lemma keeps_Option_collectSome_loop h os :
  keeps h (Option.collectSome_loop (VRef (length h)) os).
Proof.
  induction os as [|o os IH]; simpl.
  - apply frame_keeps. auto with frame.
  - apply keeps_bind; [apply frame_keeps; auto with frame|]. intros b.
    apply keeps_bind; [|intros _; apply IH].
    destruct b; [|apply frame_keeps; auto with frame].
    apply keeps_bind; [apply frame_keeps; auto with frame|]. intros v.
    apply keeps_push.
Qed.

Lemma frame_new_array (loop : val -> list val -> M val) (arr : val) :
  (forall h xs, keeps h (loop (VRef (length h)) xs)) ->
  frame (values <- alloc (ArrayObj []) ;; xs <- iterate arr ;; loop values xs).
Proof.
  intros Hloop σ. unfold bind at 1, alloc. simpl.
  apply (keeps_bind (heap σ)).
  - apply frame_keeps. auto with frame.
  - intros xs. apply Hloop.
  - simpl. by apply prefix_app_r.
Qed.

Lemma frame_Result_combine arr : frame (Result.combine arr).
Proof. apply frame_new_array. intros. apply keeps_Result_combine_loop. Qed.

Lemma frame_Option_combine arr : frame (Option.combine arr).
Proof. apply frame_new_array. intros. apply keeps_Option_combine_loop. Qed.

Lemma frame_Option_collectSome arr : frame (Option.collectSome arr).
Proof. apply frame_new_array. intros. apply keeps_Option_collectSome_loop. Qed.

Lemma frame_Option_findSome_loop os : frame (Option.findSome_loop os).
Proof. induction os; simpl; auto 6 with frame. Qed.

Lemma frame_Option_findSome arr : frame (Option.findSome arr).
Proof.
  unfold Option.findSome. apply frame_bind; [auto with frame|].
  intros. apply frame_Option_findSome_loop.
Qed.

(** A new container around what a callback returns. *)
Lemma returns_new_wrap (σ : state) (m : M val) (wrap : val -> obj) :
  frame m -> returns_new σ ((u <- m ;; alloc (wrap u)) σ).
Proof.
  intros Hm. unfold bind. specialize (Hm σ).
  destruct (m σ) as [[u|x] σ1]; simpl in Hm.
  - split; [by apply unchanged_alloc|].
    intros r [= <-]. by apply fresh_alloc.
  - split; [done|]. intros r. simpl. discriminate.
Qed.

Lemma returns_new_later (σ σ1 : state) res :
  unchanged σ σ1 -> returns_new σ1 res -> returns_new σ res.
Proof.
  intros H [H1 H2]. split; [by eapply unchanged_trans|].
  intros r Hr. destruct (H2 r Hr) as (l & -> & Hl).
  exists l. split; [done|]. apply unchanged_length in H. lia.
Qed.

(** Frame rules for [async] bodies. *)

Lemma aframe_aret {A} (a : A) : aframe (aret a).
Proof. intros σ. apply unchanged_refl. Qed.

Lemma aframe_lift {A} (m : M A) : frame m -> aframe (lift m).
Proof.
  intros H σ. unfold lift. specialize (H σ). by destruct (m σ) as [[a|x] σ1].
Qed.

Lemma aframe_await v : aframe (await v).
Proof. intros σ. unfold await. destruct (settled _ _); apply unchanged_refl. Qed.

Lemma aframe_abind {A B} (m : Async A) (k : A -> Async B) :
  aframe m -> (forall a, aframe (k a)) -> aframe (abind m k).
Proof.
  intros Hm Hk σ. unfold abind. specialize (Hm σ).
  destruct (m σ) as [[a|x|] σ1]; [|done..].
  eapply unchanged_trans; [exact Hm|apply Hk].
Qed.

Lemma aframe_atry_catch {A} (m : Async A) (k : val -> Async A) :
  aframe m -> (forall x, aframe (k x)) -> aframe (atry_catch m k).
Proof.
  intros Hm Hk σ. unfold atry_catch. specialize (Hm σ).
  destruct (m σ) as [[a|x|] σ1]; [done| |done].
  eapply unchanged_trans; [exact Hm|apply Hk].
Qed.

(** An [async] call returns normally, and what it returns is a new
    promise. *)
Lemma async_returns_new (body : Async val) (σ : state) :
  aframe body ->
  normal (async body σ) /\ returns_new σ (async body σ).
Proof.
  intros H. unfold async. specialize (H σ).
  destruct (body σ) as [[v|x|] σ1]; simpl in H;
    (split; [by eexists|]); (split; [by apply unchanged_alloc|]);
    intros r [= <-]; by apply fresh_alloc.
Qed.

Lemma async_normal (body : Async val) (σ : state) : normal (async body σ).
Proof. unfold async. destruct (body σ) as [[v|x|] σ1]; by eexists. Qed.

Lemma frame_async (body : Async val) : aframe body -> frame (async body).
Proof. intros H σ. by apply async_returns_new. Qed.

Lemma frame_Promise_all arr : frame (Promise_all arr).
Proof.
  unfold Promise_all. apply frame_try_catch; [|auto with frame].
  apply frame_bind; [auto with frame|]. intros es σ.
  destruct (first_rejected _); [apply frame_alloc|].
  destruct (all_fulfilled _); [|apply frame_alloc].
  apply frame_bind; auto with frame.
Qed.

Section FrameOfAsyncOperations.
Variables (fn : val -> M val) (g : M val).
Hypothesis Hfn : forall v, frame (fn v).
Hypothesis Hg : frame g.

Lemma aframe_Result_mapAsync_body result :
  aframe
    (resolved <~ await result ;;
     b <~ lift (Result.isOk resolved) ;;
     if b then
       v <~ lift (get prop_value resolved) ;;
       p <~ lift (fn v) ;;
       mapped <~ await p ;;
       lift (Result.ok mapped)
     else aret resolved).
Proof.
  apply aframe_abind; [apply aframe_await|]. intros resolved.
  apply aframe_abind; [apply aframe_lift; auto with frame|]. intros [].
  - apply aframe_abind; [apply aframe_lift; auto with frame|]. intros v.
    apply aframe_abind; [by apply aframe_lift|]. intros q.
    apply aframe_abind; [apply aframe_await|]. intros mapped.
    apply aframe_lift. apply frame_alloc.
  - apply aframe_aret.
Qed.

Lemma frame_Result_mapAsync result : frame (Result.mapAsync result fn).
Proof. apply frame_async, aframe_Result_mapAsync_body. Qed.

Lemma frame_Result_andThenAsync result : frame (Result.andThenAsync result fn).
Proof.
  apply frame_async.
  apply aframe_abind; [apply aframe_await|]. intros resolved.
  apply aframe_abind; [apply aframe_lift; auto with frame|]. intros [].
  - apply aframe_abind; [apply aframe_lift; auto with frame|]. intros v.
    apply aframe_abind; [by apply aframe_lift|]. intros q. apply aframe_await.
  - apply aframe_aret.
Qed.

Lemma frame_Option_mapAsync option : frame (Option.mapAsync option fn).
Proof.
  apply frame_async.
  apply aframe_abind; [apply aframe_await|]. intros resolved.
  apply aframe_abind; [apply aframe_lift; auto with frame|]. intros [].
  - apply aframe_abind; [apply aframe_lift; auto with frame|]. intros v.
    apply aframe_abind; [by apply aframe_lift|]. intros q.
    apply aframe_abind; [apply aframe_await|]. intros mapped.
    apply aframe_lift. apply frame_alloc.
  - apply aframe_aret.
Qed.

Lemma frame_Option_andThenAsync option : frame (Option.andThenAsync option fn).
Proof.
  apply frame_async.
  apply aframe_abind; [apply aframe_await|]. intros resolved.
  apply aframe_abind; [apply aframe_lift; auto with frame|]. intros [].
  - apply aframe_abind; [apply aframe_lift; auto with frame|]. intros v.
    apply aframe_abind; [by apply aframe_lift|]. intros q. apply aframe_await.
  - apply aframe_aret.
Qed.

Lemma frame_Result_tryCatchAsync mapper :
  match mapper with Some f => forall x, frame (f x) | None => True end ->
  frame (Result.tryCatchAsync g mapper).
Proof.
  intros Hm. apply frame_async. apply aframe_atry_catch.
  - apply aframe_abind; [by apply aframe_lift|]. intros q.
    apply aframe_abind; [apply aframe_await|]. intros v.
    apply aframe_lift, frame_alloc.
  - intros x. apply aframe_abind.
    + apply aframe_lift. destruct mapper; auto with frame.
    + intros e. apply aframe_lift, frame_alloc.
Qed.
End FrameOfAsyncOperations.

Lemma frame_Result_combineAsync results : frame (Result.combineAsync results).
Proof.
  apply frame_async.
  apply aframe_abind; [apply aframe_lift, frame_Promise_all|]. intros q.
  apply aframe_abind; [apply aframe_await|]. intros resolved.
  apply aframe_lift, frame_Result_combine.
Qed.

Lemma frame_Option_combineAsync options : frame (Option.combineAsync options).
Proof.
  apply frame_async.
  apply aframe_abind; [apply aframe_lift, frame_Promise_all|]. intros q.
  apply aframe_abind; [apply aframe_await|]. intros resolved.
  apply aframe_lift, frame_Option_combine.
Qed.

(** ** The scans of [Option] *)

Lemma options_split (h : list obj) (os : list val) :
  Forall (is_option h) os ->
  (exists vs, Forall2 (is_some h) os vs) \/
  (exists pre vs o post,
     os = pre ++ o :: post /\ Forall2 (is_some h) pre vs /\ is_none h o).
Proof.
  induction 1 as [|o os Ho _ IH].
  - left. exists []. constructor.
  - destruct Ho as [[v Hv]|Hn].
    + destruct IH as [[vs IH]|(pre & vs & o' & post & -> & Hpre & Hn)].
      * left. exists (v :: vs). by constructor.
      * right. exists (o :: pre), (v :: vs), o', post. repeat split; [|done].
        by constructor.
    + right. exists [], [], o, os. repeat split; [constructor|done].
Qed.

Lemma Option_findSome_loop_spec (σ : state) (os : list val) :
  Forall (is_option (heap σ)) os ->
  exists r, Option.findSome_loop os σ = (Normal r, σ) /\
    ((exists pre v post,
        os = pre ++ r :: post /\ Forall (is_none (heap σ)) pre /\ is_some (heap σ) r v) \/
     (Forall (is_none (heap σ)) os /\ r = Option.none)).
Proof.
  induction 1 as [|o os Ho _ (r & IH & Hr)]; simpl.
  - exists Option.none. split; [done|]. right. by split.
  - destruct Ho as [[v Hv]|Hn].
    + exists o. destruct Hv as (l & -> & Hl).
      unfold bind. rewrite (Option_isSome_some _ _ v) by done.
      split; [done|]. left. exists [], v, os. repeat split; [constructor|].
      by exists l.
    + exists r. pose proof Hn as (l & -> & Hl).
      unfold bind. rewrite Option_isSome_none by done.
      split; [done|].
      destruct Hr as [(pre & v & post & -> & Hpre & Hv)|[Hall ->]].
      * left. exists (VRef l :: pre), v, post. repeat split; [|done].
        by constructor.
      * right. split; [by constructor|done].
Qed.

Lemma Option_collectSome_loop_some (h : list obj) cs acc o v rest :
  is_some h o v ->
  Option.collectSome_loop (VRef (length h)) (o :: rest) (filling h cs acc) =
  Option.collectSome_loop (VRef (length h)) rest (filling h cs (acc ++ [v])).
Proof.
  intros (l & -> & H). simpl.
  unfold Option.isSome, get, deref, bind, ret, push, filling, set_heap. simpl.
  repeat (first [rewrite lookup_new | rewrite (lookup_old _ _ _ _ H)
                | rewrite insert_new]; simpl).
  reflexivity.
Qed.

Lemma Option_collectSome_loop_none (h : list obj) cs acc o rest :
  is_none h o ->
  Option.collectSome_loop (VRef (length h)) (o :: rest) (filling h cs acc) =
  Option.collectSome_loop (VRef (length h)) rest (filling h cs acc).
Proof.
  intros (l & -> & H). simpl.
  unfold Option.isSome, get, deref, bind, ret, filling. simpl.
  by rewrite (lookup_old _ _ _ _ H).
Qed.

Lemma Option_collectSome_loop_spec (h : list obj) (cs : list (string * val)) os :
  forall acc,
  Forall (is_option h) os ->
  Option.collectSome_loop (VRef (length h)) os (filling h cs acc) =
  (Normal (VRef (length h)), filling h cs (acc ++ payloads h os)).
Proof.
  intros acc H. revert acc.
  induction H as [|o os Ho _ IH]; intros acc.
  - unfold payloads. simpl. by rewrite app_nil_r.
  - destruct Ho as [[v Hv]|Hn].
    + rewrite (Option_collectSome_loop_some _ _ _ _ v) by done.
      rewrite IH. destruct Hv as (l & -> & Hl).
      unfold payloads. simpl. rewrite Hl. by rewrite <- app_assoc.
    + rewrite Option_collectSome_loop_none by done.
      rewrite IH. destruct Hn as (l & -> & Hl).
      unfold payloads. simpl. by rewrite Hl.
Qed.

(** ** Rules for normal completion *)

Lemma total_ret {A} (a : A) : total (ret a).
Proof. intros σ. by eexists. Qed.

Lemma total_alloc o : total (alloc o).
Proof. intros σ. by eexists. Qed.

Lemma total_bind {A B} (m : M A) (k : A -> M B) :
  total m -> (forall a, total (k a)) -> total (bind m k).
Proof.
  intros Hm Hk σ. unfold bind. destruct (Hm σ) as [a Ha].
  destruct (m σ) as [[a'|x] σ1]; [|done]. apply Hk.
Qed.

Lemma total_get_ref p l : total (get p (VRef l)).
Proof. intros σ. by eexists. Qed.

Lemma total_if {A} (b : bool) (m1 m2 : M A) :
  total m1 -> total m2 -> total (if b then m1 else m2).
Proof. by destruct b. Qed.

Lemma throws_throw_new {A} name msg σ : throws (@throw_new A name msg σ).
Proof. by eexists. Qed.

Create HintDb total.
#[local] Hint Resolve total_ret total_alloc total_get_ref : total.
#[local] Hint Extern 2 (total (bind _ _)) => apply total_bind; [|intros] : total.
#[local] Hint Extern 2 (total (if _ then _ else _)) => apply total_if : total.

Lemma total_run {A} (m : M A) (σ : state) : total m -> normal (m σ).
Proof. intros H. apply H. Qed.

Lemma Result_unwrap_err_throws (h : Host) (σ : state) (l : loc) (e : val) :
  heap σ !! l = Some (ErrObj e) -> throws (Result.unwrap h (VRef l) σ).
Proof.
  intros H. rewrite (Result_unwrap_err _ _ e) by done.
  unfold bind at 1.
  destruct (instanceof_Error e σ) as [[[]|x] σ0]; [by eexists| |by eexists].
  unfold bind. destruct (JSON_stringify h e σ0) as [[s|x] σ1]; by eexists.
Qed.

(** ** Totality *)

Lemma normal_bind_iff {A B} (m : M A) (k : A -> M B) (σ : state) :
  (forall a σ1, m σ = (Normal a, σ1) -> normal (k a σ1)) ->
  normal (bind m k σ) <-> normal (m σ).
Proof.
  intros Hk. unfold bind. destruct (m σ) as [[a|x] σ1].
  - split; [by eexists|]. intros _. by apply Hk.
  - split; intros [a Ha]; discriminate.
Qed.

Lemma normal_wrap (m : M val) (wrap : val -> obj) (σ : state) :
  normal ((u <- m ;; alloc (wrap u)) σ) <-> normal (m σ).
Proof. apply normal_bind_iff. intros. by eexists. Qed.

Lemma async_returns_promise (body : Async val) (σ : state) :
  returns_promise (async body σ).
Proof.
  unfold async, returns_promise.
  destruct (body σ) as [[v|x|] σ1]; simpl; eexists _, _;
    (split; [done|]); apply lookup_new.
Qed.

(** C6, as the code has it.  On containers of its input type every
    synchronous operation of the two modules returns normally exactly
    when the callback it calls there does, and unconditionally where it
    calls none; the exceptions are [unwrap] and [expect]: these return
    the payload of an [Ok] or [Some], and throw, to their caller,
    exactly on an [Err] or [None].  [tryCatch] returns normally whatever
    its first argument does, unless the error mapper it was given
    throws.  The seven [async] operations return a promise, whatever
    their arguments are and do. *)
Theorem operations_total (h : Host) (σ : state)
    (fn : val -> M val) (p : val -> M bool) (g : M val)
    (fn2 : val -> val -> M val) (fn3 : val -> val -> val -> M val)
    (pats : Result.patterns) (opats : Option.patterns) :
  (forall v,
     normal (Result.ok v σ) /\ normal (Result.err v σ) /\
     normal (Option.some v σ) /\ normal (Option.fromNullable v σ)) /\
  (forall l v d msg, heap σ !! l = Some (OkObj v) ->
     normal (Result.isOk (VRef l) σ) /\ normal (Result.isErr (VRef l) σ) /\
     (normal (Result.map (VRef l) fn σ) <-> normal (fn v σ)) /\
     normal (Result.mapErr (VRef l) fn σ) /\
     (normal (Result.andThen (VRef l) fn σ) <-> normal (fn v σ)) /\
     normal (Result.orElse (VRef l) fn σ) /\
     normal (Result.unwrapOr (VRef l) d σ) /\
     normal (Result.unwrapOrElse (VRef l) fn σ) /\
     (normal (Result.match_ (VRef l) pats σ) <-> normal (Result.pat_ok pats v σ)) /\
     (forall σ1, p v σ = (Normal true, σ1) ->
        normal (Result.filter (VRef l) p fn σ)) /\
     (forall σ1, p v σ = (Normal false, σ1) -> heap σ1 !! l = Some (OkObj v) ->
        (normal (Result.filter (VRef l) p fn σ) <-> normal (fn v σ1))) /\
     (forall x σ1, p v σ = (Throw x, σ1) ->
        Result.filter (VRef l) p fn σ = (Throw x, σ1)) /\
     Result.unwrap h (VRef l) σ = (Normal v, σ) /\
     Result.expect (VRef l) msg σ = (Normal v, σ)) /\
  (forall l e d msg, heap σ !! l = Some (ErrObj e) ->
     normal (Result.isOk (VRef l) σ) /\ normal (Result.isErr (VRef l) σ) /\
     normal (Result.map (VRef l) fn σ) /\
     (normal (Result.mapErr (VRef l) fn σ) <-> normal (fn e σ)) /\
     normal (Result.andThen (VRef l) fn σ) /\
     (normal (Result.orElse (VRef l) fn σ) <-> normal (fn e σ)) /\
     normal (Result.unwrapOr (VRef l) d σ) /\
     (normal (Result.unwrapOrElse (VRef l) fn σ) <-> normal (fn e σ)) /\
     (normal (Result.match_ (VRef l) pats σ) <-> normal (Result.pat_err pats e σ)) /\
     normal (Result.filter (VRef l) p fn σ) /\
     throws (Result.unwrap h (VRef l) σ) /\
     throws (Result.expect (VRef l) msg σ)) /\
  (forall a rs, heap σ !! a = Some (ArrayObj rs) ->
     Forall (is_result (heap σ)) rs -> normal (Result.combine (VRef a) σ)) /\
  (normal (Result.tryCatch g None σ) /\
   (forall v σ1, g σ = (Normal v, σ1) -> normal (Result.tryCatch g (Some fn) σ)) /\
   (forall x σ1, g σ = (Throw x, σ1) ->
      (normal (Result.tryCatch g (Some fn) σ) <-> normal (fn x σ1)))) /\
  (forall l v d msg, heap σ !! l = Some (SomeObj v) ->
     normal (Option.isSome (VRef l) σ) /\ normal (Option.isNone (VRef l) σ) /\
     normal (Option.toNullable (VRef l) σ) /\ normal (Option.toUndefined (VRef l) σ) /\
     (normal (Option.map (VRef l) fn σ) <-> normal (fn v σ)) /\
     (normal (Option.andThen (VRef l) fn σ) <-> normal (fn v σ)) /\
     normal (Option.orElse (VRef l) g σ) /\ normal (Option.unwrapOr (VRef l) d σ) /\
     normal (Option.unwrapOrElse (VRef l) g σ) /\
     (normal (Option.match_ (VRef l) opats σ) <-> normal (Option.pat_some opats v σ)) /\
     (normal (Option.filter (VRef l) p σ) <-> normal (p v σ)) /\
     (forall l2 v2, heap σ !! l2 = Some (SomeObj v2) ->
        (normal (Option.map2 (VRef l) (VRef l2) fn2 σ) <-> normal (fn2 v v2 σ))) /\
     (forall l2, heap σ !! l2 = Some NoneObj ->
        normal (Option.map2 (VRef l) (VRef l2) fn2 σ)) /\
     (forall l2 v2 l3 v3,
        heap σ !! l2 = Some (SomeObj v2) -> heap σ !! l3 = Some (SomeObj v3) ->
        (normal (Option.map3 (VRef l) (VRef l2) (VRef l3) fn3 σ) <->
         normal (fn3 v v2 v3 σ))) /\
     (forall o2 o3, is_option (heap σ) o2 -> is_option (heap σ) o3 ->
        is_none (heap σ) o2 \/ is_none (heap σ) o3 ->
        normal (Option.map3 (VRef l) o2 o3 fn3 σ)) /\
     Option.unwrap (VRef l) σ = (Normal v, σ) /\
     Option.expect (VRef l) msg σ = (Normal v, σ)) /\
  (forall l d msg o2 o3, heap σ !! l = Some NoneObj ->
     normal (Option.isSome (VRef l) σ) /\ normal (Option.isNone (VRef l) σ) /\
     normal (Option.toNullable (VRef l) σ) /\ normal (Option.toUndefined (VRef l) σ) /\
     normal (Option.map (VRef l) fn σ) /\ normal (Option.andThen (VRef l) fn σ) /\
     (normal (Option.orElse (VRef l) g σ) <-> normal (g σ)) /\
     normal (Option.unwrapOr (VRef l) d σ) /\
     (normal (Option.unwrapOrElse (VRef l) g σ) <-> normal (g σ)) /\
     (normal (Option.match_ (VRef l) opats σ) <-> normal (Option.pat_none opats σ)) /\
     normal (Option.filter (VRef l) p σ) /\
     normal (Option.map2 (VRef l) o2 fn2 σ) /\
     normal (Option.map3 (VRef l) o2 o3 fn3 σ) /\
     throws (Option.unwrap (VRef l) σ) /\
     throws (Option.expect (VRef l) msg σ)) /\
  (forall a os, heap σ !! a = Some (ArrayObj os) ->
     Forall (is_option (heap σ)) os ->
     normal (Option.combine (VRef a) σ) /\ normal (Option.findSome (VRef a) σ) /\
     normal (Option.collectSome (VRef a) σ)) /\
  (forall (x : val) (mapper : option (val -> M val)),
     returns_promise (Result.mapAsync x fn σ) /\
     returns_promise (Result.andThenAsync x fn σ) /\
     returns_promise (Result.combineAsync x σ) /\
     returns_promise (Result.tryCatchAsync g mapper σ) /\
     returns_promise (Option.mapAsync x fn σ) /\
     returns_promise (Option.andThenAsync x fn σ) /\
     returns_promise (Option.combineAsync x σ)).
Proof.
  split; [|split; [|split; [|split; [|split; [|split; [|split; [|split]]]]]]].
  - intros v. repeat split; try by eexists.
    unfold Option.fromNullable. destruct (Option.loose_ne_null v); by eexists.
  - intros l v d msg H.
    rewrite (Result_isOk_ok _ _ v), (Result_isErr_ok _ _ v), (Result_map_ok _ _ v),
      (Result_mapErr_ok _ _ v), (Result_andThen_ok _ _ v), (Result_orElse_ok _ _ v),
      (Result_unwrapOr_ok _ _ v), (Result_unwrapOrElse_ok _ _ v),
      (Result_match_ok _ _ v), (Result_filter_ok _ _ v), (Result_unwrap_ok _ _ v),
      (Result_expect_ok _ _ v) by done.
    splits; try (by eexists); try done.
    + apply normal_wrap.
    + intros σ1 Hp. unfold bind. rewrite Hp. by eexists.
    + intros σ1 Hp H1. unfold bind at 1. rewrite Hp.
      unfold bind at 1, get, deref, bind at 1, ret at 1. rewrite H1.
      apply normal_wrap.
    + intros x σ1 Hp. unfold bind. by rewrite Hp.
  - intros l e d msg H.
    pose proof (Result_unwrap_err_throws h _ _ _ H) as Hu.
    rewrite (Result_isOk_err _ _ e), (Result_isErr_err _ _ e), (Result_map_err _ _ e),
      (Result_mapErr_err _ _ e), (Result_andThen_err _ _ e), (Result_orElse_err _ _ e),
      (Result_unwrapOr_err _ _ e), (Result_unwrapOrElse_err _ _ e),
      (Result_match_err _ _ e), (Result_filter_err _ _ e),
      (Result_expect_err _ _ e) by done.
    splits; try (by eexists); try done; try apply throws_throw_new.
    apply normal_wrap.
  - intros a rs Ha Hrs. unfold Result.combine.
    rewrite (combine_enter _ _ _ rs) by done.
    destruct (results_split _ _ Hrs)
      as [[vs Hvs]|(pre & vs & l & e & post & -> & Hpre & He)].
    + rewrite (Result_combine_loop_oks _ _ _ vs) by done. by eexists.
    + rewrite (Result_combine_loop_err _ _ _ vs _ e) by done. by eexists.
  - unfold Result.tryCatch, try_catch. splits.
    + unfold bind. destruct (g σ) as [[v|x] σ1]; by eexists.
    + intros v σ1 Hg. unfold bind. rewrite Hg. by eexists.
    + intros x σ1 Hg. unfold bind at 1. rewrite Hg. apply normal_wrap.
  - intros l v d msg H.
    rewrite (Option_isSome_some _ _ v), (Option_isNone_some _ _ v),
      (Option_toNullable_some _ _ v), (Option_toUndefined_some _ _ v),
      (Option_map_some _ _ v), (Option_andThen_some _ _ v), (Option_orElse_some _ _ v),
      (Option_unwrapOr_some _ _ v), (Option_unwrapOrElse_some _ _ v),
      (Option_match_some _ _ v), (Option_filter_some _ _ v),
      (Option_unwrap_some _ _ v), (Option_expect_some _ _ v) by done.
    splits; try (by eexists); try done.
    + apply normal_wrap.
    + apply normal_bind_iff. intros [] σ1 _; by eexists.
    + intros l2 v2 H2. rewrite (Option_map2_some _ _ v H _ v2) by done.
      apply normal_wrap.
    + intros l2 H2. rewrite (Option_map2_some_none _ _ v H) by done. by eexists.
    + intros l2 v2 l3 v3 H2 H3. rewrite (Option_map3_some _ _ v H _ v2 _ v3) by done.
      apply normal_wrap.
    + intros o2 o3 [(v2 & l2 & -> & H2)|(l2 & -> & H2)] Ho3 Hn.
      * destruct Ho3 as [(v3 & l3 & -> & H3)|(l3 & -> & H3)].
        -- destruct Hn as [(l' & [= <-] & Hn)|(l' & [= <-] & Hn)]; congruence.
        -- rewrite (Option_map3_some_some_none _ _ v H _ v2) by done. by eexists.
      * rewrite (Option_map3_some_none _ _ v H) by done. by eexists.
  - intros l d msg o2 o3 H.
    rewrite Option_isSome_none, Option_isNone_none, Option_toNullable_none,
      Option_toUndefined_none, Option_map_none, Option_andThen_none,
      Option_orElse_none, Option_unwrapOr_none, Option_unwrapOrElse_none,
      Option_match_none, Option_filter_none, Option_map2_none, Option_map3_none,
      Option_unwrap_none, Option_expect_none by done.
    splits; try (by eexists); try done; apply throws_throw_new.
  - intros a os Ha Hos. repeat split.
    + unfold Option.combine. rewrite (combine_enter _ _ _ os) by done.
      destruct (options_split _ _ Hos)
        as [[vs Hvs]|(pre & vs & o & post & -> & Hpre & Hn)].
      * rewrite (Option_combine_loop_somes _ _ _ vs) by done. by eexists.
      * rewrite (Option_combine_loop_none _ _ _ vs) by done. by eexists.
    + unfold Option.findSome, bind, iterate, deref, bind, ret. rewrite Ha. simpl.
      destruct (Option_findSome_loop_spec _ _ Hos) as (r & -> & _). by eexists.
    + unfold Option.collectSome. rewrite (combine_enter _ _ _ os) by done.
      rewrite Option_collectSome_loop_spec by done. by eexists.
  - intros. splits; apply async_returns_promise.
Qed.

Lemma operations_total_witness :
  let σ := {| heap := [NoneObj; OkObj (VNumber 1); ErrObj (VString "X")]; calls := [] |} in
  let boom (_ : val) : M val := throw (VString "boom") in
  normal (Result.map (VRef 1) double σ) /\
  ~ normal (Result.map (VRef 1) boom σ) /\
  normal (Result.map (VRef 2) boom σ) /\
  Result.unwrap example_host (VRef 1) σ = (Normal (VNumber 1), σ) /\
  throws (Result.unwrap example_host (VRef 2) σ) /\
  throws (Option.unwrap (VRef 0) σ) /\
  returns_promise (Result.mapAsync (VRef 1) boom σ).
Proof.
  intros σ boom.
  pose proof (operations_total example_host σ double above5 (ret VNull)
                (fun v _ => ret v) (fun v _ _ => ret v) rebuild
                {| Option.pat_some := fun v => ret v; Option.pat_none := ret VNull |})
    as (_ & Hok & _ & _ & _ & _ & Hnone & _).
  pose proof (operations_total example_host σ boom above5 (ret VNull)
                (fun v _ => ret v) (fun v _ _ => ret v) rebuild
                {| Option.pat_some := fun v => ret v; Option.pat_none := ret VNull |})
    as (_ & Hok' & Herr' & _ & _ & _ & _ & _ & Hasync).
  specialize (Hok 1 (VNumber 1) VNull EmptyString eq_refl).
  specialize (Hok' 1 (VNumber 1) VNull EmptyString eq_refl).
  specialize (Herr' 2 (VString "X") VNull EmptyString eq_refl).
  specialize (Hnone 0 VNull EmptyString VNull VNull eq_refl).
  destruct Hok as (_ & _ & Hmap & _ & _ & _ & _ & _ & _ & _ & _ & _ & Hunwrap & _).
  destruct Hok' as (_ & _ & Hmap' & _).
  destruct Herr' as (_ & _ & Hmap_err & _ & _ & _ & _ & _ & _ & _ & Hthrows & _).
  destruct Hnone as (_ & _ & _ & _ & _ & _ & _ & _ & _ & _ & _ & _ & _ & Hopt & _).
  splits.
  - apply Hmap. by eexists.
  - intros Hn. apply Hmap' in Hn. destruct Hn as [a Ha]. discriminate.
  - exact Hmap_err.
  - exact Hunwrap.
  - exact Hthrows.
  - exact Hopt.
  - exact (proj1 (Hasync (VRef 1) None)).
Defined.

(** C6 as stated fails on a callback that throws: [map] lets the
    exception through, and so does [tryCatch] for its error mapper. *)
Lemma operations_total_counterexample :
  let σ := {| heap := [OkObj (VNumber 1)]; calls := [] |} in
  let boom (_ : val) : M val := throw (VString "boom") in
  Result.map (VRef 0) boom σ = (Throw (VString "boom"), σ) /\
  ~ normal (Result.map (VRef 0) boom σ) /\
  Result.tryCatch (throw VNull) (Some boom) σ = (Throw (VString "boom"), σ) /\
  ~ normal (Result.tryCatch (throw VNull) (Some boom) σ).
Proof.
  intros σ boom. repeat split; try reflexivity; intros [a Ha]; discriminate.
Qed.

(** ** Input containers are never mutated; what is returned *)

(** Rules for [preserves]: the object at one location. *)

Create HintDb preserves.

Lemma preserves_ret (l : loc) (o : obj) {A} (a : A) : preserves l o (ret a).
Proof. by intros σ H. Qed.

Lemma preserves_throw (l : loc) (o : obj) {A} x : preserves l o (@throw A x).
Proof. by intros σ H. Qed.

Lemma preserves_alloc (l : loc) (o o' : obj) : preserves l o (alloc o').
Proof. intros σ H. simpl. by apply lookup_old. Qed.

Lemma preserves_deref (l : loc) (o : obj) l' : preserves l o (deref l').
Proof. by intros σ H. Qed.

Lemma preserves_bind (l : loc) (o : obj) {A B} (m : M A) (k : A -> M B) :
  preserves l o m -> (forall a, preserves l o (k a)) -> preserves l o (bind m k).
Proof.
  intros Hm Hk σ H. unfold bind. specialize (Hm σ H).
  destruct (m σ) as [[a|x] σ1]; [|done]. by apply Hk.
Qed.

Lemma preserves_try_catch (l : loc) (o : obj) {A} (m : M A) (k : val -> M A) :
  preserves l o m -> (forall x, preserves l o (k x)) -> preserves l o (try_catch m k).
Proof.
  intros Hm Hk σ H. unfold try_catch. specialize (Hm σ H).
  destruct (m σ) as [[a|x] σ1]; [done|]. by apply Hk.
Qed.

Lemma preserves_if (l : loc) (o : obj) {A} (b : bool) (m1 m2 : M A) :
  preserves l o m1 -> preserves l o m2 -> preserves l o (if b then m1 else m2).
Proof. by destruct b. Qed.

Lemma preserves_throw_new (l : loc) (o : obj) {A} name msg :
  preserves l o (@throw_new A name msg).
Proof. apply preserves_bind; [apply preserves_alloc|intros; apply preserves_throw]. Qed.

#[local] Hint Resolve preserves_ret preserves_throw preserves_alloc preserves_deref
  preserves_throw_new : preserves.
#[local] Hint Extern 2 (preserves _ _ (bind _ _)) =>
  apply preserves_bind; [|intros] : preserves.
#[local] Hint Extern 2 (preserves _ _ (try_catch _ _)) =>
  apply preserves_try_catch; [|intros] : preserves.
#[local] Hint Extern 2 (preserves _ _ (if _ then _ else _)) =>
  apply preserves_if : preserves.
#[local] Hint Extern 3 (preserves _ _ (match ?x with _ => _ end)) =>
  destruct x : preserves.

Lemma preserves_get (l : loc) (o : obj) p v : preserves l o (get p v).
Proof. unfold get. destruct v; auto with preserves. Qed.

Lemma preserves_iterate (l : loc) (o : obj) arr : preserves l o (iterate arr).
Proof. unfold iterate. destruct arr; auto 6 with preserves. Qed.

#[local] Hint Resolve preserves_get preserves_iterate : preserves.

Lemma preserves_constructors (l : loc) (o : obj) v :
  preserves l o (Result.ok v) /\ preserves l o (Result.err v) /\
  preserves l o (Option.some v).
Proof. splits; apply preserves_alloc. Qed.

Lemma preserves_guards (l : loc) (o : obj) v :
  preserves l o (Result.isOk v) /\ preserves l o (Result.isErr v) /\
  preserves l o (Option.isSome v) /\ preserves l o (Option.isNone v).
Proof.
  splits; unfold Result.isOk, Result.isErr, Option.isSome, Option.isNone;
    auto with preserves.
Qed.

#[local] Hint Extern 1 (preserves _ _ (Result.ok _)) => apply preserves_alloc : preserves.
#[local] Hint Extern 1 (preserves _ _ (Result.err _)) => apply preserves_alloc : preserves.
#[local] Hint Extern 1 (preserves _ _ (Option.some _)) => apply preserves_alloc : preserves.
#[local] Hint Extern 1 (preserves _ _ (Result.isOk _)) => apply preserves_guards : preserves.
#[local] Hint Extern 1 (preserves _ _ (Result.isErr _)) => apply preserves_guards : preserves.
#[local] Hint Extern 1 (preserves _ _ (Option.isSome _)) => apply preserves_guards : preserves.
#[local] Hint Extern 1 (preserves _ _ (Option.isNone _)) => apply preserves_guards : preserves.

(** [push] writes to the array it is called on, and to nothing else. *)
Lemma preserves_push (l : loc) (o : obj) (n : loc) (x : val) :
  n <> l -> preserves l o (push (VRef n) x).
Proof.
  intros Hn σ H. unfold push, bind, deref.
  destruct (default PlainObj (heap σ !! n)); simpl;
    try (by apply lookup_old).
  by rewrite list_lookup_insert_ne.
Qed.

Lemma preserves_Result_combine_loop (l : loc) (o : obj) (n : loc) rs :
  n <> l -> preserves l o (Result.combine_loop (VRef n) rs).
Proof.
  intros Hn. induction rs as [|r rs IH]; simpl; [auto with preserves|].
  apply preserves_bind; [auto with preserves|]. intros [].
  - auto with preserves.
  - apply preserves_bind; [auto with preserves|]. intros v.
    apply preserves_bind; [by apply preserves_push|]. intros _. apply IH.
Qed.

Lemma preserves_Option_combine_loop (l : loc) (o : obj) (n : loc) os :
  n <> l -> preserves l o (Option.combine_loop (VRef n) os).
Proof.
  intros Hn. induction os as [|r os IH]; simpl; [auto with preserves|].
  apply preserves_bind; [auto with preserves|]. intros [].
  - auto with preserves.
  - apply preserves_bind; [auto with preserves|]. intros v.
    apply preserves_bind; [by apply preserves_push|]. intros _. apply IH.
Qed.

(** A loop that fills an array of its own: the array is new, so it is
    none of the objects there were. *)
Lemma preserves_new_array (l : loc) (o : obj) (loop : val -> list val -> M val)
    (arr : val) :
  (forall n xs, n <> l -> preserves l o (loop (VRef n) xs)) ->
  preserves l o (values <- alloc (ArrayObj []) ;; xs <- iterate arr ;; loop values xs).
Proof.
  intros Hloop σ H. unfold bind at 1, alloc. cbv beta iota.
  apply preserves_bind.
  - auto with preserves.
  - intros xs. apply Hloop. apply lookup_lt_Some in H. lia.
  - simpl. by apply lookup_old.
Qed.

Lemma preserves_Result_combine (l : loc) (o : obj) arr : preserves l o (Result.combine arr).
Proof. apply preserves_new_array. intros. by apply preserves_Result_combine_loop. Qed.

Lemma preserves_Option_combine (l : loc) (o : obj) arr : preserves l o (Option.combine arr).
Proof. apply preserves_new_array. intros. by apply preserves_Option_combine_loop. Qed.

Lemma preserves_Option_findSome (l : loc) (o : obj) arr :
  preserves l o (Option.findSome arr).
Proof.
  unfold Option.findSome. apply preserves_bind; [auto with preserves|].
  intros os. induction os; simpl; auto 6 with preserves.
Qed.

Lemma preserves_Option_fromNullable (l : loc) (o : obj) v :
  preserves l o (Option.fromNullable v).
Proof. unfold Option.fromNullable, Option.some. auto with preserves. Qed.

Lemma apreserves_aret (l : loc) (o : obj) {A} (a : A) : apreserves l o (aret a).
Proof. by intros σ H. Qed.

Lemma apreserves_lift (l : loc) (o : obj) {A} (m : M A) :
  preserves l o m -> apreserves l o (lift m).
Proof.
  intros Hm σ H. unfold lift. specialize (Hm σ H). by destruct (m σ) as [[a|x] σ1].
Qed.

Lemma apreserves_await (l : loc) (o : obj) v : apreserves l o (await v).
Proof. intros σ H. unfold await. by destruct (settled _ _). Qed.

Lemma apreserves_abind (l : loc) (o : obj) {A B} (m : Async A) (k : A -> Async B) :
  apreserves l o m -> (forall a, apreserves l o (k a)) -> apreserves l o (abind m k).
Proof.
  intros Hm Hk σ H. unfold abind. specialize (Hm σ H).
  destruct (m σ) as [[a|x|] σ1]; [|done..]. by apply Hk.
Qed.

Lemma apreserves_atry_catch (l : loc) (o : obj) {A} (m : Async A) (k : val -> Async A) :
  apreserves l o m -> (forall x, apreserves l o (k x)) -> apreserves l o (atry_catch m k).
Proof.
  intros Hm Hk σ H. unfold atry_catch. specialize (Hm σ H).
  destruct (m σ) as [[a|x|] σ1]; [done| |done]. by apply Hk.
Qed.

Lemma preserves_async (l : loc) (o : obj) (body : Async val) :
  apreserves l o body -> preserves l o (async body).
Proof.
  intros Hb σ H. unfold async. specialize (Hb σ H).
  destruct (body σ) as [[v|x|] σ1]; simpl in *; by apply lookup_old.
Qed.

Lemma preserves_Promise_all (l : loc) (o : obj) arr : preserves l o (Promise_all arr).
Proof.
  unfold Promise_all. apply preserves_try_catch; [|auto with preserves].
  apply preserves_bind; [auto with preserves|]. intros es σ H.
  destruct (first_rejected _); [by apply preserves_alloc|].
  destruct (all_fulfilled _); [|by apply preserves_alloc].
  revert σ H. fold (preserves l o (a <- alloc (ArrayObj l0) ;; alloc (PromiseObj (Fulfilled a)))).
  auto with preserves.
Qed.

Lemma preserves_Result_combineAsync (l : loc) (o : obj) arr :
  preserves l o (Result.combineAsync arr).
Proof.
  apply preserves_async.
  apply apreserves_abind; [apply apreserves_lift, preserves_Promise_all|]. intros q.
  apply apreserves_abind; [apply apreserves_await|]. intros resolved.
  apply apreserves_lift, preserves_Result_combine.
Qed.

Lemma preserves_Option_combineAsync (l : loc) (o : obj) arr :
  preserves l o (Option.combineAsync arr).
Proof.
  apply preserves_async.
  apply apreserves_abind; [apply apreserves_lift, preserves_Promise_all|]. intros q.
  apply apreserves_abind; [apply apreserves_await|]. intros resolved.
  apply apreserves_lift, preserves_Option_combine.
Qed.

(** What [returns_created] says of the objects there were. *)
Lemma returns_created_new (σ1 : state) (o' : obj) (res : completion val * state) :
  returns_created σ1 o' res ->
  forall (c : loc) (ob : obj), heap σ1 !! c = Some ob ->
    res.1 <> Normal (VRef c) /\ heap res.2 !! c = Some ob.
Proof.
  intros -> c ob H. simpl. split; [|by apply lookup_old].
  intros [= Hc]. apply lookup_lt_Some in H. lia.
Qed.

Lemma elem_of_middle (pre post : list val) (r : val) : r ∈ pre ++ r :: post.
Proof. apply elem_of_app. right. apply elem_of_cons. by left. Qed.

Section Provenance.
Variables (l : loc) (o : obj).
Variables (fn : val -> M val) (p : val -> M bool) (g : M val).
Variables (fn2 : val -> val -> M val) (fn3 : val -> val -> val -> M val).
Hypothesis Hfn : forall v, preserves l o (fn v).
Hypothesis Hp : forall v, preserves l o (p v).
Hypothesis Hg : preserves l o g.
Hypothesis Hfn2 : forall v1 v2, preserves l o (fn2 v1 v2).
Hypothesis Hfn3 : forall v1 v2 v3, preserves l o (fn3 v1 v2 v3).

Lemma apreserves_mapAsync_body (guard : val -> M bool) (wrap : val -> M val)
    (other : val -> val) (input : val) :
  (forall r, preserves l o (guard r)) -> (forall v, preserves l o (wrap v)) ->
  apreserves l o
    (resolved <~ await input ;;
     b <~ lift (guard resolved) ;;
     if b then
       v <~ lift (get prop_value resolved) ;;
       q <~ lift (fn v) ;;
       mapped <~ await q ;;
       lift (wrap mapped)
     else aret (other resolved)).
Proof.
  intros Hguard Hwrap.
  apply apreserves_abind; [apply apreserves_await|]. intros resolved.
  apply apreserves_abind; [by apply apreserves_lift|]. intros [].
  - apply apreserves_abind; [apply apreserves_lift; auto with preserves|]. intros v.
    apply apreserves_abind; [by apply apreserves_lift|]. intros q.
    apply apreserves_abind; [apply apreserves_await|]. intros mapped.
    by apply apreserves_lift.
  - apply apreserves_aret.
Qed.

Lemma apreserves_andThenAsync_body (guard : val -> M bool) (other : val -> val)
    (input : val) :
  (forall r, preserves l o (guard r)) ->
  apreserves l o
    (resolved <~ await input ;;
     b <~ lift (guard resolved) ;;
     if b then
       v <~ lift (get prop_value resolved) ;;
       q <~ lift (fn v) ;;
       await q
     else aret (other resolved)).
Proof.
  intros Hguard.
  apply apreserves_abind; [apply apreserves_await|]. intros resolved.
  apply apreserves_abind; [by apply apreserves_lift|]. intros [].
  - apply apreserves_abind; [apply apreserves_lift; auto with preserves|]. intros v.
    apply apreserves_abind; [by apply apreserves_lift|]. intros q.
    apply apreserves_await.
  - apply apreserves_aret.
Qed.

Lemma preserves_Result_tryCatchAsync mapper :
  match mapper with Some f => forall x, preserves l o (f x) | None => True end ->
  preserves l o (Result.tryCatchAsync g mapper).
Proof.
  intros Hm. apply preserves_async. apply apreserves_atry_catch.
  - apply apreserves_abind; [by apply apreserves_lift|]. intros q.
    apply apreserves_abind; [apply apreserves_await|]. intros v.
    apply apreserves_lift, preserves_alloc.
  - intros x. apply apreserves_abind.
    + apply apreserves_lift. destruct mapper; auto with preserves.
    + intros e. apply apreserves_lift, preserves_alloc.
Qed.

Lemma combinators_preserve (r r2 r3 : val) :
  preserves l o (Result.map r fn) /\ preserves l o (Result.mapErr r fn) /\
  preserves l o (Result.andThen r fn) /\ preserves l o (Result.orElse r fn) /\
  preserves l o (Result.filter r p fn) /\ preserves l o (Result.combine r) /\
  preserves l o (Result.tryCatch g None) /\
  preserves l o (Result.tryCatch g (Some fn)) /\
  preserves l o (Result.mapAsync r fn) /\ preserves l o (Result.andThenAsync r fn) /\
  preserves l o (Result.combineAsync r) /\
  preserves l o (Result.tryCatchAsync g None) /\
  preserves l o (Result.tryCatchAsync g (Some fn)) /\
  preserves l o (Option.fromNullable r) /\
  preserves l o (Option.map r fn) /\ preserves l o (Option.andThen r fn) /\
  preserves l o (Option.orElse r g) /\ preserves l o (Option.filter r p) /\
  preserves l o (Option.map2 r r2 fn2) /\ preserves l o (Option.map3 r r2 r3 fn3) /\
  preserves l o (Option.combine r) /\ preserves l o (Option.findSome r) /\
  preserves l o (Option.mapAsync r fn) /\ preserves l o (Option.andThenAsync r fn) /\
  preserves l o (Option.combineAsync r).
Proof.
  splits;
    first [ apply preserves_Result_combine | apply preserves_Option_combine
          | apply preserves_Option_findSome | apply preserves_Option_fromNullable
          | apply preserves_Result_combineAsync | apply preserves_Option_combineAsync
          | by apply preserves_Result_tryCatchAsync
          | apply preserves_async, apreserves_mapAsync_body;
              intros; unfold Result.isOk, Option.isSome, Result.ok, Option.some;
              auto with preserves
          | apply preserves_async, apreserves_andThenAsync_body;
              intros; unfold Result.isOk, Option.isSome; auto with preserves
          | unfold Result.map, Result.mapErr, Result.andThen, Result.orElse,
              Result.filter, Result.tryCatch, Option.map, Option.andThen,
              Option.orElse, Option.filter, Option.map2, Option.map3,
              Result.ok, Result.err, Option.some, Result.isOk, Result.isErr,
              Option.isSome;
            auto 14 with preserves ].
Qed.
End Provenance.




(** * Further properties of the two modules *)

(** ** The guards *)

Lemma guard_preserves (tag : string) (r : val) (σ : state) (b : bool) (σ' : state) :
  (t <- get prop_tag r ;; ret (strict_eq t (VString tag))) σ = (Normal b, σ') -> σ' = σ.
Proof.
  unfold get, deref, bind, ret, throw_new, throw, alloc.
  destruct r; simpl; congruence.
Qed.

(** X1. The guards of a module are mutually exclusive on every value,
    and exhaustive on the containers of the module: [isOk] and [isErr]
    never both hold, and on a Result one is the negation of the other;
    likewise [isSome] and [isNone]. *)
Theorem guards_exclusive_exhaustive (σ : state) (r : val) :
  (forall σ1 σ2, ~ (Result.isOk r σ = (Normal true, σ1) /\
                   Result.isErr r σ = (Normal true, σ2))) /\
  (forall σ1 σ2, ~ (Option.isSome r σ = (Normal true, σ1) /\
                   Option.isNone r σ = (Normal true, σ2))) /\
  (is_result (heap σ) r ->
     exists b, Result.isOk r σ = (Normal b, σ) /\ Result.isErr r σ = (Normal (negb b), σ)) /\
  (is_option (heap σ) r ->
     exists b, Option.isSome r σ = (Normal b, σ) /\ Option.isNone r σ = (Normal (negb b), σ)).
Proof.
  splits.
  - intros σ1 σ2 [H1 H2]. revert H1 H2.
    unfold Result.isOk, Result.isErr, get, deref, bind, ret, strict_eq.
    destruct r; simpl; try discriminate.
    destruct (default PlainObj (heap σ !! l)); simpl; discriminate.
  - intros σ1 σ2 [H1 H2]. revert H1 H2.
    unfold Option.isSome, Option.isNone, get, deref, bind, ret, strict_eq.
    destruct r; simpl; try discriminate.
    destruct (default PlainObj (heap σ !! l)); simpl; discriminate.
  - intros [(v & l & -> & H)|(e & l & -> & H)].
    + exists true. by rewrite (Result_isOk_ok _ _ v), (Result_isErr_ok _ _ v).
    + exists false. by rewrite (Result_isOk_err _ _ e), (Result_isErr_err _ _ e).
  - intros [(v & l & -> & H)|(l & -> & H)].
    + exists true. by rewrite (Option_isSome_some _ _ v), (Option_isNone_some _ _ v).
    + exists false. by rewrite Option_isSome_none, Option_isNone_none.
Qed.

Lemma guards_exclusive_exhaustive_witness :
  let σ := {| heap := [NoneObj; ErrObj (VString "X")]; calls := [] |} in
  exists b, Result.isOk (VRef 1) σ = (Normal b, σ) /\
            Result.isErr (VRef 1) σ = (Normal (negb b), σ).
Proof.
  intros σ.
  refine (proj1 (proj2 (proj2 (guards_exclusive_exhaustive σ (VRef 1)))) _).
  right. exists (VString "X"), 1. by split.
Defined.

(** ** How the combinators compose *)

(** A guard sees one of three things: a container of its variant, any
    other value it can read (the answer is [false]), or [null] and
    [undefined] (a TypeError). *)
Lemma Result_isOk_cases (r : val) (σ : state) :
  (exists l v, r = VRef l /\ heap σ !! l = Some (OkObj v)) \/
  Result.isOk r σ = (Normal false, σ) \/
  (exists x σ', Result.isOk r σ = (Throw x, σ')).
Proof.
  unfold Result.isOk, get, deref, bind, ret, strict_eq.
  destruct r as [| | | | | |l]; simpl; eauto.
  destruct (heap σ !! l) as [[]|] eqn:Hl; simpl; eauto.
Qed.

Lemma Result_isErr_cases (r : val) (σ : state) :
  (exists l e, r = VRef l /\ heap σ !! l = Some (ErrObj e)) \/
  Result.isErr r σ = (Normal false, σ) \/
  (exists x σ', Result.isErr r σ = (Throw x, σ')).
Proof.
  unfold Result.isErr, get, deref, bind, ret, strict_eq.
  destruct r as [| | | | | |l]; simpl; eauto.
  destruct (heap σ !! l) as [[]|] eqn:Hl; simpl; eauto.
Qed.

Lemma Option_isSome_cases (o : val) (σ : state) :
  (exists l v, o = VRef l /\ heap σ !! l = Some (SomeObj v)) \/
  Option.isSome o σ = (Normal false, σ) \/
  (exists x σ', Option.isSome o σ = (Throw x, σ')).
Proof.
  unfold Option.isSome, get, deref, bind, ret, strict_eq.
  destruct o as [| | | | | |l]; simpl; eauto.
  destruct (heap σ !! l) as [[]|] eqn:Hl; simpl; eauto.
Qed.

(** X2. [andThen] of [Result] is a monadic bind: chaining on a new
    [ok(v)] is the call [f(v)], and chaining is associative,
    [andThen(andThen(r, f), g)] being
    [andThen(r, v => andThen(f(v), g))], for every value [r] and all
    callbacks, whatever they do. *)
Theorem Result_andThen_bind_laws (f g : val -> M val) (σ : state) :
  (forall v, (r <- Result.ok v ;; Result.andThen r f) σ = (r <- Result.ok v ;; f v) σ) /\
  (forall r,
     (r1 <- Result.andThen r f ;; Result.andThen r1 g) σ =
     Result.andThen r (fun v => r1 <- f v ;; Result.andThen r1 g) σ).
Proof.
  split.
  - intros v. unfold bind, Result.ok, alloc. simpl.
    by rewrite (Result_andThen_ok _ _ v) by apply lookup_new.
  - intros r.
    destruct (Result_isOk_cases r σ) as [(l & v & -> & Hl)|[Hr|(x & σ' & Hr)]].
    + unfold bind at 1. by rewrite !(Result_andThen_ok _ _ v) by done.
    + unfold bind at 1. unfold Result.andThen, bind. rewrite !Hr.
      unfold ret. simpl. by rewrite Hr.
    + unfold bind at 1. unfold Result.andThen, bind. by rewrite !Hr.
Qed.

(** X3. [andThen] of [Option] is a monadic bind as well.  Associativity
    relies on [none] being a [None]: on the absence path the first
    [andThen] answers with the shared [none], which the second one
    inspects. *)
Theorem Option_andThen_bind_laws (f g : val -> M val) (σ : state) :
  (forall v, (o <- Option.some v ;; Option.andThen o f) σ = (o <- Option.some v ;; f v) σ) /\
  (heap σ !! Option.none_loc = Some NoneObj ->
   forall o,
     (o1 <- Option.andThen o f ;; Option.andThen o1 g) σ =
     Option.andThen o (fun v => o1 <- f v ;; Option.andThen o1 g) σ).
Proof.
  split.
  - intros v. unfold bind, Option.some, alloc. simpl.
    by rewrite (Option_andThen_some _ _ v) by apply lookup_new.
  - intros Hn o.
    destruct (Option_isSome_cases o σ) as [(l & v & -> & Hl)|[Ho|(x & σ' & Ho)]].
    + unfold bind at 1. by rewrite !(Option_andThen_some _ _ v) by done.
    + unfold bind at 1. unfold Option.andThen at 1 3, bind. rewrite !Ho.
      unfold ret. simpl. by apply Option_andThen_none.
    + unfold bind at 1. unfold Option.andThen, bind. by rewrite !Ho.
Qed.

Lemma Option_andThen_bind_laws_witness :
  (o1 <- Option.andThen Option.none Option.some ;; Option.andThen o1 Option.some)
    Option.loaded =
  (Normal Option.none, Option.loaded).
Proof.
  exact (eq_trans
           (proj2 (Option_andThen_bind_laws Option.some Option.some Option.loaded)
              eq_refl Option.none)
           eq_refl).
Defined.

(** X4. [map] and [mapErr] commute: transforming the success payload
    and then the error payload is the same computation as the other
    order, for every value [r] and all callbacks.  Only one of the two
    callbacks ever runs. *)
Theorem Result_map_mapErr_commute (f g : val -> M val) (r : val) (σ : state) :
  (r1 <- Result.map r f ;; Result.mapErr r1 g) σ =
  (r1 <- Result.mapErr r g ;; Result.map r1 f) σ.
Proof.
  destruct (Result_isOk_cases r σ) as [(l & v & -> & Hl)|[Hr|(x & σ' & Hr)]].
  - unfold bind at 1 2.
    rewrite (Result_map_ok _ _ v), (Result_mapErr_ok _ _ v) by done.
    rewrite ?(Result_map_ok _ _ v) by done.
    unfold bind. destruct (f v σ) as [[u|x] σ1]; [|done].
    unfold Result.ok, alloc. simpl.
    by rewrite (Result_mapErr_ok _ _ u) by (simpl; apply lookup_new).
  - destruct (Result_isErr_cases r σ) as [(l & e & -> & Hl)|[Hr'|(x & σ' & Hr')]].
    + unfold bind at 1 2.
      rewrite (Result_map_err _ _ e), (Result_mapErr_err _ _ e) by done.
      rewrite ?(Result_mapErr_err _ _ e) by done.
      unfold bind. destruct (g e σ) as [[u|x] σ1]; [|done].
      unfold Result.err, alloc. simpl.
      by rewrite (Result_map_err _ _ u) by (simpl; apply lookup_new).
    + unfold bind at 1 2. unfold Result.map at 1, Result.mapErr at 2, bind.
      rewrite Hr, Hr'. unfold ret. simpl.
      unfold Result.map, Result.mapErr, bind. by rewrite Hr, Hr'.
    + exfalso. revert Hr Hr'.
      unfold Result.isOk, Result.isErr, get, deref, bind, ret.
      destruct r; simpl; discriminate.
  - assert (Hr' : Result.isErr r σ = (Throw x, σ')).
    { revert Hr. unfold Result.isOk, Result.isErr, get, deref, bind, ret.
      destruct r; simpl; try discriminate; by intros [= <- <-]. }
    unfold bind at 1 2. unfold Result.map at 1, Result.mapErr at 2, bind.
    by rewrite Hr, Hr'.
Qed.

(** X5. [map], [map2] and [map3] are [andThen] followed by a wrapping:
    [map(r, f)] is [andThen(r, v => ok(f(v)))], [map2(o1, o2, f)] is
    [andThen(o1, a => map(o2, b => f(a, b)))], and [map3] is [andThen]
    around [map2], for all values and callbacks. *)
Theorem map_family_from_andThen (σ : state) :
  (forall r f, Result.map r f σ = Result.andThen r (fun v => u <- f v ;; Result.ok u) σ) /\
  (forall o f, Option.map o f σ = Option.andThen o (fun v => u <- f v ;; Option.some u) σ) /\
  (forall o1 o2 f,
     Option.map2 o1 o2 f σ =
     Option.andThen o1 (fun a => Option.map o2 (fun b => f a b)) σ) /\
  (forall o1 o2 o3 f,
     Option.map3 o1 o2 o3 f σ =
     Option.andThen o1 (fun a => Option.map2 o2 o3 (fun b c => f a b c)) σ).
Proof.
  splits.
  - reflexivity.
  - reflexivity.
  - intros o1 o2 f.
    destruct (Option_isSome_cases o1 σ) as [(l & v & -> & Hl)|[Ho|(x & σ' & Ho)]].
    + rewrite (Option_andThen_some _ _ v) by done.
      unfold Option.map2, Option.map, bind.
      rewrite (Option_isSome_some _ _ v) by done.
      destruct (Option.isSome o2 σ) as [[[]|y] σ1] eqn:H2; try done.
      apply (guard_preserves "Some") in H2 as ->.
      unfold get at 1, deref, bind, ret. by rewrite Hl.
    + unfold Option.map2, Option.andThen, bind. by rewrite Ho.
    + unfold Option.map2, Option.andThen, bind. by rewrite Ho.
  - intros o1 o2 o3 f.
    destruct (Option_isSome_cases o1 σ) as [(l & v & -> & Hl)|[Ho|(x & σ' & Ho)]].
    + rewrite (Option_andThen_some _ _ v) by done.
      unfold Option.map3, Option.map2, bind.
      rewrite (Option_isSome_some _ _ v) by done.
      destruct (Option.isSome o2 σ) as [[[]|y] σ1] eqn:H2; try done.
      apply (guard_preserves "Some") in H2 as ->.
      destruct (Option.isSome o3 σ) as [[[]|y] σ1] eqn:H3; try done.
      apply (guard_preserves "Some") in H3 as ->.
      unfold get at 1, deref, bind, ret. by rewrite Hl.
    + unfold Option.map3, Option.andThen, bind. by rewrite Ho.
    + unfold Option.map3, Option.andThen, bind. by rewrite Ho.
Qed.

(** ** The nullable adapters *)

(** X6. Round trips through the nullable adapters.  [toNullable] after
    [fromNullable] gives the value back, except that [undefined] comes
    back as [null]; [toUndefined] after [fromNullable] gives it back,
    except that [null] comes back as [undefined].  The other way
    round, [fromNullable] after [toNullable] rebuilds a [Some] as a new
    [Some] of the same payload unless the payload is itself [null] or
    [undefined]: [some(null)] comes back as [none]. *)
Theorem Option_nullable_round_trips (σ : state) :
  heap σ !! Option.none_loc = Some NoneObj ->
  (forall v,
     ((o <- Option.fromNullable v ;; Option.toNullable o) σ).1 =
       Normal (if decide (v = VUndefined) then VNull else v) /\
     ((o <- Option.fromNullable v ;; Option.toUndefined o) σ).1 =
       Normal (if decide (v = VNull) then VUndefined else v)) /\
  (forall l v, heap σ !! l = Some (SomeObj v) ->
     (x <- Option.toNullable (VRef l) ;; Option.fromNullable x) σ =
       (if Option.loose_ne_null v then Option.some v σ else (Normal Option.none, σ))) /\
  (forall l, heap σ !! l = Some NoneObj ->
     (x <- Option.toNullable (VRef l) ;; Option.fromNullable x) σ = (Normal Option.none, σ) /\
     (x <- Option.toUndefined (VRef l) ;; Option.fromNullable x) σ = (Normal Option.none, σ)).
Proof.
  intros Hn. splits.
  - intros v.
    pose proof (Option_toNullable_none σ Option.none_loc Hn) as HN.
    pose proof (Option_toUndefined_none σ Option.none_loc Hn) as HU.
    assert (HN' : Option.toNullable (VRef (length (heap σ)))
                    (set_heap (heap σ ++ [SomeObj v]) σ)
                  = (Normal v, set_heap (heap σ ++ [SomeObj v]) σ))
      by (apply Option_toNullable_some; simpl; apply lookup_new).
    assert (HU' : Option.toUndefined (VRef (length (heap σ)))
                    (set_heap (heap σ ++ [SomeObj v]) σ)
                  = (Normal v, set_heap (heap σ ++ [SomeObj v]) σ))
      by (apply Option_toUndefined_some; simpl; apply lookup_new).
    unfold bind, Option.fromNullable, Option.some, alloc, Option.none in *.
    destruct v; simpl; rewrite ?HN, ?HU, ?HN', ?HU'; by split.
  - intros l v H. unfold bind. rewrite (Option_toNullable_some _ _ v) by done.
    unfold Option.fromNullable. by destruct (Option.loose_ne_null v).
  - intros l H. unfold bind.
    by rewrite Option_toNullable_none, Option_toUndefined_none.
Qed.

Lemma Option_nullable_round_trips_witness :
  (x <- Option.toNullable (VRef 1) ;; Option.fromNullable x)
    {| heap := [NoneObj; SomeObj VNull]; calls := [] |} =
  (Normal Option.none, {| heap := [NoneObj; SomeObj VNull]; calls := [] |}).
Proof.
  exact (proj1 (proj2 (Option_nullable_round_trips
                         {| heap := [NoneObj; SomeObj VNull]; calls := [] |} eq_refl))
           1 VNull eq_refl).
Defined.

(** ** The scans of [Option] *)

(** X7. For an array of Options, [Option.combine] returns the shared
    [none] as soon as it meets a [None], whatever follows; otherwise a
    new [Some] of a new array holding the payloads in the order of the
    input.  Every array of Options is in one of the two cases. *)
Theorem Option_combine_spec (σ : state) (a : loc) (os : list val) :
  heap σ !! a = Some (ArrayObj os) ->
  (forall pre vs o post,
     os = pre ++ o :: post ->
     Forall2 (is_some (heap σ)) pre vs ->
     is_none (heap σ) o ->
     Option.combine (VRef a) σ =
       (Normal Option.none, set_heap (heap σ ++ [ArrayObj vs]) σ)) /\
  (forall vs,
     Forall2 (is_some (heap σ)) os vs ->
     Option.combine (VRef a) σ =
       (Normal (VRef (S (length (heap σ)))),
        set_heap (heap σ ++ [ArrayObj vs; SomeObj (VRef (length (heap σ)))]) σ)) /\
  (Forall (is_option (heap σ)) os ->
     (exists vs, Forall2 (is_some (heap σ)) os vs) \/
     (exists pre vs o post,
        os = pre ++ o :: post /\ Forall2 (is_some (heap σ)) pre vs /\
        is_none (heap σ) o)).
Proof.
  intros Ha. unfold Option.combine. rewrite (combine_enter _ _ _ os) by done.
  splits.
  - intros pre vs o post -> Hpre Ho.
    by rewrite (Option_combine_loop_none _ _ _ vs).
  - intros vs Hvs. rewrite (Option_combine_loop_somes _ _ _ vs) by done.
    unfold Option.some, alloc, filling, set_heap. simpl.
    by rewrite length_app, Nat.add_1_r, <- app_assoc.
  - apply options_split.
Qed.

Lemma Option_combine_spec_witness :
  let σ := {| heap := [NoneObj; SomeObj (VNumber 1); SomeObj (VNumber 3);
                       ArrayObj [VRef 1; VRef 0; VRef 2]];
              calls := [] |} in
  Option.combine (VRef 3) σ =
    (Normal Option.none, set_heap (heap σ ++ [ArrayObj [VNumber 1]]) σ).
Proof.
  intros σ.
  refine (proj1 (Option_combine_spec σ 3 [VRef 1; VRef 0; VRef 2] eq_refl)
            [VRef 1] [VNumber 1] (VRef 0) [VRef 2] eq_refl _ _).
  - repeat constructor. by exists 1.
  - by exists 0.
Defined.

(** X8. For an array of Options, [findSome] returns the first [Some]
    element, the element itself, and [none] if every element is a
    [None]; it creates and changes nothing. *)
Theorem Option_findSome_spec (σ : state) (a : loc) (os : list val) :
  heap σ !! a = Some (ArrayObj os) ->
  (forall pre o v post,
     os = pre ++ o :: post ->
     Forall (is_none (heap σ)) pre -> is_some (heap σ) o v ->
     Option.findSome (VRef a) σ = (Normal o, σ)) /\
  (Forall (is_none (heap σ)) os ->
     Option.findSome (VRef a) σ = (Normal Option.none, σ)).
Proof.
  intros Ha.
  assert (Henter : Option.findSome (VRef a) σ = Option.findSome_loop os σ).
  { unfold Option.findSome, bind, iterate, deref, bind, ret. by rewrite Ha. }
  rewrite Henter. clear Ha Henter. split.
  - intros pre o v post -> Hpre (l & -> & Hl).
    induction Hpre as [|o' pre (l' & -> & Hl') _ IH]; simpl.
    + unfold bind. by rewrite (Option_isSome_some _ _ v).
    + unfold bind. by rewrite Option_isSome_none.
  - induction 1 as [|o' os' (l' & -> & Hl') _ IH]; simpl; [done|].
    unfold bind. by rewrite Option_isSome_none.
Qed.

Lemma Option_findSome_spec_witness :
  let σ := {| heap := [NoneObj; SomeObj (VNumber 1); SomeObj (VNumber 3);
                       ArrayObj [VRef 0; VRef 2; VRef 1]];
              calls := [] |} in
  Option.findSome (VRef 3) σ = (Normal (VRef 2), σ).
Proof.
  intros σ.
  refine (proj1 (Option_findSome_spec σ 3 [VRef 0; VRef 2; VRef 1] eq_refl)
            [VRef 0] (VRef 2) (VNumber 3) [VRef 1] eq_refl _ _).
  - repeat constructor. by exists 0.
  - by exists 2.
Defined.

Lemma payloads_cons_some (h : list obj) (o v : val) (rest : list val) :
  is_some h o v -> payloads h (o :: rest) = v :: payloads h rest.
Proof. intros (l & -> & H). unfold payloads. simpl. by rewrite H. Qed.

Lemma payloads_cons_none (h : list obj) (o : val) (rest : list val) :
  is_none h o -> payloads h (o :: rest) = payloads h rest.
Proof. intros (l & -> & H). unfold payloads. simpl. by rewrite H. Qed.

Lemma payloads_length (h : list obj) (os : list val) :
  length (payloads h os) <= length os.
Proof.
  induction os as [|o os IH]; [by apply Nat.le_0_l|].
  assert (payloads h (o :: os) = payloads h os \/
          exists v, payloads h (o :: os) = v :: payloads h os) as [->|[v ->]].
  { unfold payloads. simpl. destruct o as [| | | | | |l]; simpl; auto.
    destruct (h !! l) as [[]|]; simpl; eauto. }
  - simpl. lia.
  - simpl. lia.
Qed.

(** X9. For an array of Options, [collectSome] never fails: it returns
    a new array holding the payloads of the [Some] elements, in the
    order of the input, the [None] elements being skipped.  It is at
    most as long as the input; on an input without [None] it holds
    what [combine] wraps in its [Some], and on an input without [Some]
    it is empty. *)
Theorem Option_collectSome_spec (σ : state) (a : loc) (os : list val) :
  heap σ !! a = Some (ArrayObj os) ->
  Forall (is_option (heap σ)) os ->
  Option.collectSome (VRef a) σ =
    (Normal (VRef (length (heap σ))),
     set_heap (heap σ ++ [ArrayObj (payloads (heap σ) os)]) σ) /\
  payloads (heap σ) [] = [] /\
  (forall o v rest, is_some (heap σ) o v ->
     payloads (heap σ) (o :: rest) = v :: payloads (heap σ) rest) /\
  (forall o rest, is_none (heap σ) o ->
     payloads (heap σ) (o :: rest) = payloads (heap σ) rest) /\
  length (payloads (heap σ) os) <= length os /\
  (forall vs, Forall2 (is_some (heap σ)) os vs ->
     payloads (heap σ) os = vs /\
     exists σ', Option.combine (VRef a) σ = (Normal (VRef (S (length (heap σ)))), σ') /\
                heap σ' !! length (heap σ) = Some (ArrayObj vs)) /\
  (Forall (is_none (heap σ)) os -> payloads (heap σ) os = []).
Proof.
  intros Ha Hos. splits.
  - unfold Option.collectSome. rewrite (combine_enter _ _ _ os) by done.
    by rewrite Option_collectSome_loop_spec.
  - done.
  - intros. by apply payloads_cons_some.
  - intros. by apply payloads_cons_none.
  - apply payloads_length.
  - intros vs Hvs. split.
    + clear Ha Hos. induction Hvs as [|o v os' vs' Ho _ IH]; [done|].
      by rewrite (payloads_cons_some _ _ v), IH.
    + unfold Option.combine. rewrite (combine_enter _ _ _ os) by done.
      rewrite (Option_combine_loop_somes _ _ _ vs) by done.
      eexists. split.
      * unfold Option.some, alloc, filling. simpl.
        by rewrite length_app, Nat.add_1_r.
      * simpl. apply lookup_old, lookup_new.
  - clear Ha Hos. induction 1 as [|o os' Ho _ IH]; [done|].
    by rewrite payloads_cons_none.
Qed.

Lemma Option_collectSome_spec_witness :
  let σ := {| heap := [NoneObj; SomeObj (VNumber 1); SomeObj (VNumber 3);
                       ArrayObj [VRef 1; VRef 0; VRef 2]];
              calls := [] |} in
  Option.collectSome (VRef 3) σ =
    (Normal (VRef 4), set_heap (heap σ ++ [ArrayObj [VNumber 1; VNumber 3]]) σ).
Proof.
  intros σ.
  refine (proj1 (Option_collectSome_spec σ 3 [VRef 1; VRef 0; VRef 2] eq_refl _)).
  apply Forall_cons_2; [|apply Forall_cons_2; [|apply Forall_cons_2; [|apply Forall_nil_2]]].
  - left. exists (VNumber 1), 1. by split.
  - right. by exists 0.
  - left. exists (VNumber 3), 2. by split.
Defined.

(** ** Between thrown values and [Err] *)

Lemma created_form {A : Type} (x y z : A) : y = z -> x = y -> x = y /\ x = z.
Proof. by intros <- ->. Qed.

(** X10. [tryCatch] and [unwrap] are inverse to each other on [Error]
    payloads: [tryCatch(() => unwrap(r))] rebuilds an [Ok] as a new
    [Ok] of the same value and an [Err] of an [Error] instance as a new
    [Err] of that instance; [unwrap(tryCatch(f))] rethrows the very
    [Error] instance [f] threw. *)
Theorem Result_tryCatch_unwrap_round_trip (h : Host) (σ : state) :
  (forall l v, heap σ !! l = Some (OkObj v) ->
     Result.tryCatch (Result.unwrap h (VRef l)) None σ = Result.ok v σ /\
     Result.tryCatch (Result.unwrap h (VRef l)) None σ =
       (Normal (VRef (length (heap σ))), set_heap (heap σ ++ [OkObj v]) σ)) /\
  (forall l le name msg,
     heap σ !! l = Some (ErrObj (VRef le)) ->
     heap σ !! le = Some (ErrorObj name msg) ->
     Result.tryCatch (Result.unwrap h (VRef l)) None σ = Result.err (VRef le) σ /\
     Result.tryCatch (Result.unwrap h (VRef l)) None σ =
       (Normal (VRef (length (heap σ))), set_heap (heap σ ++ [ErrObj (VRef le)]) σ)) /\
  (forall (fn : M val) σ1 le name msg,
     fn σ = (Throw (VRef le), σ1) ->
     heap σ1 !! le = Some (ErrorObj name msg) ->
     (r <- Result.tryCatch fn None ;; Result.unwrap h r) σ =
       (Throw (VRef le), set_heap (heap σ1 ++ [ErrObj (VRef le)]) σ1)).
Proof.
  splits.
  - intros l v H. apply created_form; [done|].
    unfold Result.tryCatch, try_catch, bind.
    by rewrite (Result_unwrap_ok _ _ v).
  - intros l le name msg H Hle. apply created_form; [done|].
    unfold Result.tryCatch, try_catch, bind at 1.
    rewrite (Result_unwrap_err _ _ (VRef le)) by done.
    unfold bind, instanceof_Error, deref, bind, ret. by rewrite Hle.
  - intros fn σ1 le name msg Hfn Hle.
    unfold bind at 1, Result.tryCatch, try_catch, bind at 1. rewrite Hfn.
    unfold bind at 1, ret, Result.err, alloc. simpl.
    rewrite (Result_unwrap_err _ _ (VRef le)) by (simpl; apply lookup_new).
    unfold bind, instanceof_Error, deref, bind, ret. simpl.
    by rewrite (lookup_old _ _ _ _ Hle).
Qed.

Lemma Result_tryCatch_unwrap_round_trip_witness :
  let σ := {| heap := [NoneObj; ErrorObj "Error" "boom"; ErrObj (VRef 1)]; calls := [] |} in
  Result.tryCatch (Result.unwrap example_host (VRef 2)) None σ =
    (Normal (VRef 3), set_heap (heap σ ++ [ErrObj (VRef 1)]) σ).
Proof.
  intros σ.
  exact (proj2 (proj1 (proj2 (Result_tryCatch_unwrap_round_trip example_host σ))
                  2 1 "Error" "boom" eq_refl eq_refl)).
Defined.

(** ** The other asynchronous operations *)

(** X11. [tryCatchAsync(f)] turns every failure of [f] into an [Err]:
    when [f] throws [x] synchronously and when the promise it returns
    is rejected with [x], the returned promise is fulfilled with a new
    [Err] of [x]; when the promise of [f] is fulfilled with [w] it is
    fulfilled with a new [Ok] of [w]; while that promise is pending it
    is pending.  Without an error mapper the returned promise is never
    rejected. *)
Theorem Result_tryCatchAsync_spec (fn : M val) (σ : state) :
  (forall mapper u σ1 w,
     fn σ = (Normal u, σ1) -> settled (heap σ1) u = Fulfilled w ->
     Result.tryCatchAsync fn mapper σ =
       (Normal (VRef (S (length (heap σ1)))),
        set_heap (heap σ1 ++ [OkObj w; PromiseObj (Fulfilled (VRef (length (heap σ1))))])
          σ1)) /\
  (forall x σ1,
     fn σ = (Throw x, σ1) \/
     (exists u, fn σ = (Normal u, σ1) /\ settled (heap σ1) u = Rejected x) ->
     Result.tryCatchAsync fn None σ =
       (Normal (VRef (S (length (heap σ1)))),
        set_heap (heap σ1 ++ [ErrObj x; PromiseObj (Fulfilled (VRef (length (heap σ1))))])
          σ1)) /\
  (forall mapper u σ1,
     fn σ = (Normal u, σ1) -> settled (heap σ1) u = Pending ->
     Result.tryCatchAsync fn mapper σ =
       (Normal (VRef (length (heap σ1))), set_heap (heap σ1 ++ [PromiseObj Pending]) σ1)) /\
  (exists l σ',
     Result.tryCatchAsync fn None σ = (Normal (VRef l), σ') /\
     forall x, heap σ' !! l <> Some (PromiseObj (Rejected x))).
Proof.
  assert (Hok : forall mapper u σ1 w,
            fn σ = (Normal u, σ1) -> settled (heap σ1) u = Fulfilled w ->
            Result.tryCatchAsync fn mapper σ =
              (Normal (VRef (S (length (heap σ1)))),
               set_heap (heap σ1 ++ [OkObj w;
                   PromiseObj (Fulfilled (VRef (length (heap σ1))))]) σ1)).
  { intros mapper u σ1 w Hfn Hu.
    unfold Result.tryCatchAsync, async, atry_catch, abind, lift, await.
    rewrite Hfn, Hu. unfold Result.ok, alloc, set_heap. simpl.
    rewrite lookup_new.
    by rewrite length_app, Nat.add_1_r, <- app_assoc. }
  assert (Herr : forall x σ1,
            fn σ = (Throw x, σ1) \/
            (exists u, fn σ = (Normal u, σ1) /\ settled (heap σ1) u = Rejected x) ->
            Result.tryCatchAsync fn None σ =
              (Normal (VRef (S (length (heap σ1)))),
               set_heap (heap σ1 ++ [ErrObj x;
                   PromiseObj (Fulfilled (VRef (length (heap σ1))))]) σ1)).
  { intros x σ1 [Hfn|(u & Hfn & Hu)];
      unfold Result.tryCatchAsync, async, atry_catch, abind, lift, await;
      rewrite Hfn, ?Hu; unfold Result.err, alloc, set_heap, ret; simpl;
      rewrite lookup_new;
      by rewrite length_app, Nat.add_1_r, <- app_assoc. }
  assert (Hpending : forall mapper u σ1,
            fn σ = (Normal u, σ1) -> settled (heap σ1) u = Pending ->
            Result.tryCatchAsync fn mapper σ =
              (Normal (VRef (length (heap σ1))),
               set_heap (heap σ1 ++ [PromiseObj Pending]) σ1)).
  { intros mapper u σ1 Hfn Hu.
    unfold Result.tryCatchAsync, async, atry_catch, abind, lift, await.
    by rewrite Hfn, Hu. }
  splits; try done.
  destruct (fn σ) as [[u|x] σ1] eqn:Hfn.
  - destruct (settled (heap σ1) u) as [|w|x] eqn:Hu.
    + do 2 eexists. split; [by eapply Hpending|].
      intros x. simpl. by rewrite lookup_new.
    + do 2 eexists. split; [by eapply Hok|].
      intros x. simpl.
      rewrite (lookup_app_r (heap σ1)) by lia.
      replace (S (length (heap σ1)) - length (heap σ1)) with 1 by lia. done.
    + do 2 eexists. split; [eapply Herr; right; by eexists|].
      intros y. simpl.
      rewrite (lookup_app_r (heap σ1)) by lia.
      replace (S (length (heap σ1)) - length (heap σ1)) with 1 by lia. done.
  - do 2 eexists. split; [eapply Herr; by left|].
    intros y. simpl.
    rewrite (lookup_app_r (heap σ1)) by lia.
    replace (S (length (heap σ1)) - length (heap σ1)) with 1 by lia. done.
Qed.

Lemma Result_tryCatchAsync_spec_witness :
  let σ := {| heap := [NoneObj; PromiseObj (Rejected (VString "late"))]; calls := [] |} in
  Result.tryCatchAsync (ret (VRef 1)) None σ =
    (Normal (VRef 3),
     set_heap (heap σ ++ [ErrObj (VString "late"); PromiseObj (Fulfilled (VRef 2))]) σ).
Proof.
  intros σ.
  refine (proj1 (proj2 (Result_tryCatchAsync_spec (ret (VRef 1)) σ))
            (VString "late") σ _).
  right. by exists (VRef 1).
Defined.

Lemma all_fulfilled_map (rs : list val) :
  first_rejected (List.map Fulfilled rs) = None /\
  all_fulfilled (List.map Fulfilled rs) = Some rs.
Proof. induction rs as [|r rs [IH1 IH2]]; [done|]. simpl. by rewrite IH1, IH2. Qed.

Lemma first_rejected_middle (pre post : list pstate) (x : val) :
  Forall (fun st => forall y, st <> Rejected y) pre ->
  first_rejected (pre ++ Rejected x :: post) = Some x.
Proof.
  induction 1 as [|st pre Hst _ IH]; [done|]. simpl.
  destruct st; try done. by destruct (Hst reason).
Qed.

Lemma is_ok_later (h k : list obj) (rs vs : list val) :
  Forall2 (is_ok h) rs vs -> Forall2 (is_ok (h ++ k)) rs vs.
Proof.
  intros Hall. eapply Forall2_impl; [exact Hall|].
  intros r v (l & -> & H). exists l. split; [done|].
  by apply lookup_old.
Qed.

(** X12. [combineAsync] is [combine] after [Promise.all].  When every
    input future is fulfilled, it returns the promise an [async]
    wrapper around [combine] returns on the array of the resolved
    Results, taken in the order of the input: if they are all [Ok],
    a promise fulfilled with a new [Ok] of the values in that order.
    When an input future is rejected, the returned promise is rejected
    with the reason of the first such future, and [combine] does not
    run. *)
Theorem combineAsync_spec (σ : state) (a : loc) (ps : list val) :
  heap σ !! a = Some (ArrayObj ps) ->
  let n := length (heap σ) in
  (forall rs, List.map (settled (heap σ)) ps = List.map Fulfilled rs ->
     let σ2 := set_heap (heap σ ++ [ArrayObj rs; PromiseObj (Fulfilled (VRef n))]) σ in
     Result.combineAsync (VRef a) σ = async (lift (Result.combine (VRef n))) σ2 /\
     Option.combineAsync (VRef a) σ = async (lift (Option.combine (VRef n))) σ2 /\
     forall vs, Forall2 (is_ok (heap σ)) rs vs ->
       Result.combineAsync (VRef a) σ =
         (Normal (VRef (n + 4)),
          set_heap (heap σ ++ [ArrayObj rs; PromiseObj (Fulfilled (VRef n));
                               ArrayObj vs; OkObj (VRef (n + 2));
                               PromiseObj (Fulfilled (VRef (n + 3)))]) σ)) /\
  (forall pre p post x,
     ps = pre ++ p :: post ->
     Forall (fun q => forall y, settled (heap σ) q <> Rejected y) pre ->
     settled (heap σ) p = Rejected x ->
     let rejected :=
       (Normal (VRef (S n)),
        set_heap (heap σ ++ [PromiseObj (Rejected x); PromiseObj (Rejected x)]) σ) in
     Result.combineAsync (VRef a) σ = rejected /\
     Option.combineAsync (VRef a) σ = rejected).
Proof.
  intros Ha n.
  assert (Hall : Promise_all (VRef a) σ =
            let sts := List.map (settled (heap σ)) ps in
            match first_rejected sts with
            | Some x => alloc (PromiseObj (Rejected x)) σ
            | None =>
                match all_fulfilled sts with
                | Some vs =>
                    (arr <- alloc (ArrayObj vs) ;; alloc (PromiseObj (Fulfilled arr))) σ
                | None => alloc (PromiseObj Pending) σ
                end
            end).
  { unfold Promise_all, try_catch, bind at 1, iterate, deref, bind, ret.
    rewrite Ha. simpl.
    destruct (first_rejected _); [done|]. by destruct (all_fulfilled _). }
  split.
  - intros rs Hrs σ2. rewrite Hrs in Hall.
    destruct (all_fulfilled_map rs) as [H1 H2]. simpl in Hall. rewrite H1, H2 in Hall.
    assert (Hawait : await (VRef (S n)) σ2 = (Returned (VRef n), σ2)).
    { unfold await, settled, σ2, n. simpl.
      rewrite (lookup_app_r (heap σ)) by lia.
      by replace (S (length (heap σ)) - length (heap σ)) with 1 by lia. }
    assert (HR : Result.combineAsync (VRef a) σ = async (lift (Result.combine (VRef n))) σ2).
    { unfold Result.combineAsync, async, abind. unfold lift at 1. rewrite Hall.
      unfold bind, alloc, set_heap. simpl.
      rewrite length_app, Nat.add_1_r, <- app_assoc. simpl.
      fold n. change (set_heap _ σ) with σ2 in Hawait. unfold set_heap in Hawait.
      simpl in Hawait. unfold σ2, set_heap in Hawait. by rewrite Hawait. }
    assert (HO : Option.combineAsync (VRef a) σ = async (lift (Option.combine (VRef n))) σ2).
    { unfold Option.combineAsync, async, abind. unfold lift at 1. rewrite Hall.
      unfold bind, alloc, set_heap. simpl.
      rewrite length_app, Nat.add_1_r, <- app_assoc. simpl.
      fold n. unfold σ2, set_heap in Hawait. by rewrite Hawait. }
    splits; [done|done|].
    intros vs Hvs. rewrite HR, async_lift. unfold Result.combine.
    rewrite (combine_enter _ _ n rs)
      by (unfold σ2, n; simpl; rewrite lookup_app_r, Nat.sub_diag by lia; done).
    rewrite (Result_combine_loop_oks _ _ _ vs) by (by apply is_ok_later).
    unfold Result.ok, alloc, filling, set_heap, settled, σ2, n. simpl.
    rewrite !length_app. simpl.
    rewrite lookup_app_r by (rewrite !length_app; simpl; lia).
    rewrite !length_app. simpl.
    replace (length (heap σ) + 2 + 1 - (length (heap σ) + 2 + 1)) with 0 by lia.
    simpl. rewrite <- !app_assoc. simpl.
    replace (length (heap σ) + 2 + 1 + 1) with (length (heap σ) + 4) by lia.
    by replace (length (heap σ) + 2 + 1) with (length (heap σ) + 3) by lia.
  - intros pre p post x -> Hpre Hp rejected.
    rewrite map_app in Hall. simpl in Hall. rewrite Hp in Hall.
    rewrite first_rejected_middle in Hall by (by apply Forall_map).
    unfold Result.combineAsync, Option.combineAsync, async, abind.
    unfold lift at 1 3. rewrite Hall.
    unfold alloc, await, settled. simpl. rewrite lookup_new.
    unfold rejected, set_heap. simpl.
    by rewrite length_app, Nat.add_1_r, <- app_assoc.
Qed.

Lemma combineAsync_spec_witness :
  let σ := {| heap := [NoneObj; OkObj (VNumber 1); OkObj (VNumber 2);
                       PromiseObj (Fulfilled (VRef 1)); PromiseObj (Fulfilled (VRef 2));
                       ArrayObj [VRef 3; VRef 4]];
              calls := [] |} in
  Result.combineAsync (VRef 5) σ =
    (Normal (VRef 10),
     set_heap (heap σ ++ [ArrayObj [VRef 1; VRef 2]; PromiseObj (Fulfilled (VRef 6));
                          ArrayObj [VNumber 1; VNumber 2]; OkObj (VRef 8);
                          PromiseObj (Fulfilled (VRef 9))]) σ).
Proof.
  intros σ.
  refine (proj2 (proj2 (proj1 (combineAsync_spec σ 5 [VRef 3; VRef 4] eq_refl)
                          [VRef 1; VRef 2] eq_refl))
            [VNumber 1; VNumber 2] _).
  constructor; [by exists 1|]. constructor; [by exists 2|]. constructor.
Defined.


(** * The helpers of src/functional/index.ts *)

(** ** [pipe] and [compose] *)

Lemma pipe_app (fs gs : list (val -> M val)) : forall (v : val) (σ : state),
  Functional.pipe v (fs ++ gs) σ = (x <- Functional.pipe v fs ;; Functional.pipe x gs) σ.
Proof.
  induction fs as [|f fs IH]; intros v σ; [done|].
  simpl. unfold bind at 1 2 3. destruct (f v σ) as [[x|e] σ1]; [|done].
  apply IH.
Qed.

(** X13. [compose] is [pipe] on the reversed list of functions, and
    [pipe] over a concatenation is a pipe into a pipe.  When a function
    of the pipeline throws, the pipeline throws the same value and the
    functions after it are not called. *)
Theorem pipe_compose_spec (v : val) (σ : state) :
  (forall fs, Functional.compose fs v σ = Functional.pipe v (rev fs) σ) /\
  (forall fs gs,
     Functional.pipe v (fs ++ gs) σ =
     (x <- Functional.pipe v fs ;; Functional.pipe x gs) σ) /\
  (forall fs f gs x σ1 e σ2,
     Functional.pipe v fs σ = (Normal x, σ1) -> f x σ1 = (Throw e, σ2) ->
     Functional.pipe v (fs ++ f :: gs) σ = (Throw e, σ2)).
Proof.
  splits.
  - induction fs as [|f fs IH]; [done|].
    simpl. rewrite pipe_app. unfold bind. rewrite IH.
    destruct (Functional.pipe v (rev fs) σ) as [[x|e] σ1]; [|done].
    simpl. unfold bind, ret. by destruct (f x σ1) as [[y|e] σ2].
  - intros. apply pipe_app.
  - intros fs f gs x σ1 e σ2 Hfs Hf. rewrite pipe_app. unfold bind at 1.
    rewrite Hfs. simpl. unfold bind. by rewrite Hf.
Qed.

Lemma pipe_compose_spec_witness :
  Functional.pipe (VNumber 1) ([double] ++ (fun _ => throw VNull) :: [double]) Option.loaded =
  (Throw VNull, Option.loaded).
Proof.
  exact (proj2 (proj2 (pipe_compose_spec (VNumber 1) Option.loaded))
           [double] (fun _ => throw VNull) [double] (VNumber 2) Option.loaded VNull
           Option.loaded eq_refl eq_refl).
Defined.

(** ** [safeGet] and [safeJsonParse] *)

(** X14. [safeGet] checks the bounds: for an index inside the array it
    returns a new [Some] of the element at that index, even when that
    element is [undefined] or [null]; for a negative index and for an
    index at or beyond the length it returns [none].  A negative index
    is answered without reading the array at all. *)
Theorem safeGet_bounds (σ : state) (index : Z) :
  (forall l es x, heap σ !! l = Some (ArrayObj es) ->
     (0 <= index)%Z -> es !! Z.to_nat index = Some x ->
     Functional.safeGet (VRef l) index σ = Option.some x σ /\
     Functional.safeGet (VRef l) index σ =
       (Normal (VRef (length (heap σ))), set_heap (heap σ ++ [SomeObj x]) σ)) /\
  (forall l es, heap σ !! l = Some (ArrayObj es) ->
     (Z.of_nat (length es) <= index)%Z ->
     Functional.safeGet (VRef l) index σ = (Normal Option.none, σ)) /\
  (forall array, (index < 0)%Z ->
     Functional.safeGet array index σ = (Normal Option.none, σ)).
Proof.
  splits.
  - intros l es x Hl H0 Hx. apply created_form; [done|].
    unfold Functional.safeGet.
    assert (index < Z.of_nat (length es))%Z.
    { apply lookup_lt_Some in Hx. lia. }
    replace (0 <=? index)%Z with true by lia.
    unfold array_length, array_index, deref, bind, ret. rewrite Hl. simpl.
    replace (index <? Z.of_nat (length es))%Z with true by lia.
    rewrite Hl. simpl.
    replace (0 <=? index)%Z with true by lia.
    by rewrite Hx.
  - intros l es Hl Hlen. unfold Functional.safeGet.
    destruct (0 <=? index)%Z; [|done].
    unfold array_length, deref, bind, ret. rewrite Hl. simpl.
    by replace (index <? Z.of_nat (length es))%Z with false by lia.
  - intros array H. unfold Functional.safeGet.
    by replace (0 <=? index)%Z with false by lia.
Qed.

Lemma safeGet_bounds_witness :
  let σ := {| heap := [NoneObj; ArrayObj [VNumber 7; VUndefined]]; calls := [] |} in
  Functional.safeGet (VRef 1) 1 σ =
    (Normal (VRef 2), set_heap (heap σ ++ [SomeObj VUndefined]) σ) /\
  Functional.safeGet (VRef 1) 2 σ = (Normal Option.none, σ) /\
  Functional.safeGet VNull (-1) σ = (Normal Option.none, σ).
Proof.
  intros σ. splits.
  - refine (proj2 (proj1 (safeGet_bounds σ 1) 1 [VNumber 7; VUndefined] VUndefined
                     eq_refl _ eq_refl)).
    lia.
  - refine (proj1 (proj2 (safeGet_bounds σ 2)) 1 [VNumber 7; VUndefined] eq_refl _).
    simpl. lia.
  - refine (proj2 (proj2 (safeGet_bounds σ (-1))) VNull _). lia.
Defined.

(** X15. [safeJsonParse] never throws, whatever [JSON.parse] does: it
    returns a new [Some] of what the parser returns, [null] included,
    and [none] when the parser throws, the thrown value being
    dropped. *)
Theorem safeJsonParse_never_throws (JSON_parse : string -> M val) (json : string)
    (σ : state) :
  normal (Functional.safeJsonParse JSON_parse json σ) /\
  (forall v σ1, JSON_parse json σ = (Normal v, σ1) ->
     Functional.safeJsonParse JSON_parse json σ = Option.some v σ1 /\
     Functional.safeJsonParse JSON_parse json σ =
       (Normal (VRef (length (heap σ1))), set_heap (heap σ1 ++ [SomeObj v]) σ1)) /\
  (forall x σ1, JSON_parse json σ = (Throw x, σ1) ->
     Functional.safeJsonParse JSON_parse json σ = (Normal Option.none, σ1)).
Proof.
  unfold Functional.safeJsonParse, try_catch, bind.
  destruct (JSON_parse json σ) as [[v|x] σ1]; simpl; splits;
    try (by intros ? ? [= <- <-]); try (by intros ? ? [=]).
  - unfold Option.some, bind, alloc, ret, normal. simpl. by eexists.
  - unfold ret, normal. by eexists.
Qed.

Lemma safeJsonParse_never_throws_witness :
  Functional.safeJsonParse (fun _ => ret VNull) "null" Option.loaded =
  (Normal (VRef 1), set_heap (heap Option.loaded ++ [SomeObj VNull]) Option.loaded).
Proof.
  exact (proj2 (proj1 (proj2 (safeJsonParse_never_throws (fun _ => ret VNull) "null"
                                Option.loaded))
                  VNull Option.loaded eq_refl)).
Defined.


(** ** [unique] and [uniqueBy] *)

Lemma first_by_seen_old (k : val -> val) (seen : list val) (x : val) (L : list val) :
  k x ∈ seen ->
  filter (fun y => k y ∉ seen) (filter (fun y => k y <> k x) L) =
  filter (fun y => k y ∉ seen) L.
Proof. intros Hx. apply list_filter_filter_l. intros y Hy Heq. by rewrite Heq in Hy. Qed.

Lemma first_by_seen_new (k : val -> val) (seen : list val) (x : val) (L : list val) :
  filter (fun y => k y ∉ seen ++ [k x]) L =
  filter (fun y => k y ∉ seen) (filter (fun y => k y <> k x) L).
Proof.
  rewrite list_filter_filter. apply list_filter_iff. intros y.
  rewrite elem_of_app, list_elem_of_singleton. tauto.
Qed.

Lemma first_by_seen_nil (k : val -> val) (L : list val) :
  filter (fun y => k y ∉ []) L = L.
Proof.
  induction L as [|y L IH]; [done|].
  rewrite filter_cons_True by apply not_elem_of_nil. by rewrite IH.
Qed.

Lemma Set_add_old (seen : list val) (x : val) : x ∈ seen -> Set_add seen x = seen.
Proof. intros H. unfold Set_add, Set_has. by rewrite bool_decide_eq_true_2. Qed.

Lemma Set_add_new (seen : list val) (x : val) : x ∉ seen -> Set_add seen x = seen ++ [x].
Proof. intros H. unfold Set_add, Set_has. by rewrite bool_decide_eq_false_2. Qed.

Lemma Set_fold_first_by (xs : list val) : forall seen : list val,
  foldl Set_add seen xs = seen ++ filter (fun y => id y ∉ seen) (first_by id xs).
Proof.
  induction xs as [|x xs IH]; intros seen; simpl.
  { by rewrite app_nil_r. }
  rewrite IH. destruct (decide (x ∈ seen)) as [Hin|Hout].
  - rewrite Set_add_old by done. rewrite filter_cons_False by (intros H; by apply H).
    f_equal. symmetry. exact (first_by_seen_old id seen x _ Hin).
  - rewrite Set_add_new by done. rewrite filter_cons_True by done.
    rewrite <- app_assoc. simpl. do 2 f_equal.
    exact (first_by_seen_new id seen x _).
Qed.

Lemma Set_of_first_by (xs : list val) : Set_of xs = first_by id xs.
Proof.
  unfold Set_of. rewrite Set_fold_first_by. apply (first_by_seen_nil id).
Qed.

Lemma first_by_sublist (k : val -> val) (xs : list val) : first_by k xs `sublist_of` xs.
Proof.
  induction xs as [|x xs IH]; [done|]. simpl. apply sublist_skip.
  etrans; [apply sublist_filter|done].
Qed.

Lemma first_by_keys_NoDup (k : val -> val) (xs : list val) : NoDup (k <$> first_by k xs).
Proof.
  induction xs as [|x xs IH]; simpl; [constructor|].
  apply NoDup_cons. split.
  - intros (y & Hk & Hy)%list_elem_of_fmap. apply list_elem_of_filter in Hy as [Hy _].
    by apply Hy.
  - eapply sublist_NoDup; [exact IH|]. apply fmap_sublist, sublist_filter.
Qed.

Lemma first_by_covers (k : val -> val) (xs : list val) (x : val) :
  x ∈ xs -> exists y, y ∈ first_by k xs /\ k y = k x.
Proof.
  induction xs as [|x0 xs IH]; [by intros ?%elem_of_nil|].
  intros Hx. simpl. destruct (decide (k x = k x0)) as [Heq|Hne].
  - exists x0. split; [apply list_elem_of_here|done].
  - apply elem_of_cons in Hx as [->|Hx]; [done|].
    destruct (IH Hx) as (y & Hy & Hk). exists y. split; [|done].
    apply list_elem_of_further, list_elem_of_filter. split; [congruence|done].
Qed.

Lemma first_by_fixed (k : val -> val) (xs : list val) :
  NoDup (k <$> xs) -> first_by k xs = xs.
Proof.
  induction xs as [|x xs IH]; [done|].
  rewrite fmap_cons. intros [Hx Hxs]%NoDup_cons. simpl. rewrite (IH Hxs). f_equal.
  clear IH Hxs. induction xs as [|y ys IH]; [done|].
  rewrite fmap_cons in Hx. apply not_elem_of_cons in Hx as [Hne Hx].
  rewrite filter_cons_True by congruence. by rewrite IH.
Qed.

(** X16. [unique] returns a new array with the first occurrence of
    every element of its input, in the order of the input: it has no
    element twice, it has the elements of the input and no others, an
    input without repetitions is copied, and a second [unique] changes
    nothing.  The input array is left as it is. *)
Theorem unique_spec (σ : state) (l : loc) (es : list val) :
  heap σ !! l = Some (ArrayObj es) ->
  Functional.unique (VRef l) σ =
    (Normal (VRef (length (heap σ))),
     set_heap (heap σ ++ [ArrayObj (first_by id es)]) σ) /\
  NoDup (first_by id es) /\
  (forall x, x ∈ first_by id es <-> x ∈ es) /\
  first_by id es `sublist_of` es /\
  (NoDup es -> first_by id es = es) /\
  first_by id (first_by id es) = first_by id es.
Proof.
  intros Hl.
  assert (Hnodup : NoDup (first_by id es)).
  { rewrite <- (list_fmap_id (first_by id es)). apply first_by_keys_NoDup. }
  splits.
  - unfold Functional.unique, iterate, deref, bind, ret, alloc. rewrite Hl. simpl.
    by rewrite Set_of_first_by.
  - done.
  - intros x. split.
    + intros Hx. eapply elem_of_sublist; [exact Hx|apply first_by_sublist].
    + intros Hx. destruct (first_by_covers id es x Hx) as (y & Hy & Hk).
      simpl in Hk. by subst y.
  - apply first_by_sublist.
  - intros H. apply first_by_fixed. by rewrite list_fmap_id.
  - apply first_by_fixed. by rewrite list_fmap_id.
Qed.

Lemma unique_spec_witness :
  let σ := {| heap := [ArrayObj [VNumber 1; VNumber 2; VNumber 1; VNumber 3; VNumber 2]];
              calls := [] |} in
  Functional.unique (VRef 0) σ =
    (Normal (VRef 1),
     set_heap (heap σ ++ [ArrayObj [VNumber 1; VNumber 2; VNumber 3]]) σ).
Proof.
  intros σ.
  exact (proj1 (unique_spec σ 0
                  [VNumber 1; VNumber 2; VNumber 1; VNumber 3; VNumber 2] eq_refl)).
Defined.

Lemma push_last (h : list obj) (cs : list (string * val)) (acc : list val) (x : val) :
  push (VRef (length h)) x (filling h cs acc) = (Normal tt, filling h cs (acc ++ [x])).
Proof.
  unfold push, deref, bind, filling. simpl. rewrite lookup_new. simpl.
  unfold set_heap. simpl. by rewrite insert_new.
Qed.

Lemma uniqueBy_loop_spec (keyFn : val -> M val) (k : val -> val) (h : list obj) :
  answers keyFn k ->
  forall (items seen acc : list val) (σ : state),
  heap σ = h ++ [ArrayObj acc] ->
  exists σ',
    Functional.uniqueBy_loop keyFn seen (VRef (length h)) items σ =
      (Normal (VRef (length h)), σ') /\
    heap σ' =
      h ++ [ArrayObj (acc ++ filter (fun y => k y ∉ seen) (first_by k items))].
Proof.
  intros Hk. induction items as [|item rest IH]; intros seen acc σ Hσ;
    cbn [Functional.uniqueBy_loop first_by].
  { exists σ. simpl. by rewrite app_nil_r. }
  unfold bind at 1. destruct (Hk item σ) as (σ1 & -> & Hσ1). cbv beta iota.
  rewrite Hσ in Hσ1. unfold Set_has. destruct (decide (k item ∈ seen)) as [Hin|Hout].
  - rewrite bool_decide_eq_true_2 by done.
    destruct (IH seen acc σ1 Hσ1) as (σ' & -> & Hσ'). exists σ'. split; [done|].
    rewrite Hσ'. rewrite filter_cons_False by (intros H; by apply H).
    by rewrite first_by_seen_old.
  - rewrite bool_decide_eq_false_2 by done.
    unfold bind at 1.
    replace σ1 with (filling h (calls σ1) acc) by (destruct σ1; simpl in *; by subst).
    rewrite push_last. cbv beta iota.
    destruct (IH (Set_add seen (k item)) (acc ++ [item]) (filling h (calls σ1) (acc ++ [item])) eq_refl)
      as (σ' & -> & Hσ').
    exists σ'. split; [done|]. rewrite Hσ'.
    rewrite Set_add_new by done.
    rewrite filter_cons_True by done. rewrite first_by_seen_new.
    by rewrite <- app_assoc.
Qed.

(** X17. With a key function that answers [k v] for every element [v]
    and leaves the heap alone, [uniqueBy] returns a new array with the
    elements of the input that are the first with their key, in the
    order of the input: no two of them have a key in common, and every
    element of the input has its key among theirs.  With the identity
    as key function the elements are those [unique] keeps. *)
Theorem uniqueBy_spec (keyFn : val -> M val) (k : val -> val) (σ : state)
    (l : loc) (es : list val) :
  answers keyFn k ->
  heap σ !! l = Some (ArrayObj es) ->
  (exists σ',
     Functional.uniqueBy (VRef l) keyFn σ = (Normal (VRef (length (heap σ))), σ') /\
     heap σ' = heap σ ++ [ArrayObj (first_by k es)]) /\
  NoDup (k <$> first_by k es) /\
  (forall x, x ∈ es -> exists y, y ∈ first_by k es /\ k y = k x) /\
  first_by k es `sublist_of` es /\
  first_by id es = Set_of es.
Proof.
  intros Hk Hl. splits.
  - unfold Functional.uniqueBy, iterate, deref, bind at 1 2, ret.
    rewrite Hl. simpl. unfold bind, alloc. simpl.
    destruct (uniqueBy_loop_spec keyFn k (heap σ) Hk es [] []
                (set_heap (heap σ ++ [ArrayObj []]) σ) eq_refl) as (σ' & -> & Hσ').
    exists σ'. split; [done|]. rewrite Hσ'. by rewrite first_by_seen_nil.
  - apply first_by_keys_NoDup.
  - intros x. apply first_by_covers.
  - apply first_by_sublist.
  - symmetry. apply Set_of_first_by.
Qed.

Lemma uniqueBy_spec_witness :
  let σ := {| heap := [ArrayObj [VNumber 1; VNumber 2; VNumber 3; VNumber 4]];
              calls := [] |} in
  exists σ',
    Functional.uniqueBy (VRef 0) (spy "keyFn" (fun v => ret (is_even v))) σ =
      (Normal (VRef 1), σ') /\
    heap σ' = heap σ ++ [ArrayObj [VNumber 1; VNumber 2]].
Proof.
  intros σ.
  refine (proj1 (uniqueBy_spec (spy "keyFn" (fun v => ret (is_even v))) is_even σ 0
                   [VNumber 1; VNumber 2; VNumber 3; VNumber 4] _ eq_refl)).
  intros v τ. by eexists.
Defined.


(** ** [partition] and [zip] *)

Lemma push_collecting (h : list obj) (acc : list val) (above : list obj) (x : val)
    (σ : state) :
  heap σ = collecting h acc above ->
  push (VRef (length h)) x σ =
    (Normal tt, set_heap (collecting h (acc ++ [x]) above) σ).
Proof.
  intros H. unfold push, deref, bind. rewrite H. unfold collecting.
  rewrite list_lookup_middle by done. simpl. rewrite H. unfold collecting.
  rewrite insert_app_r_alt by lia. by rewrite Nat.sub_diag.
Qed.

Lemma partition_loop_spec (predicate : val -> M bool) (p : val -> bool) (h : list obj) :
  answers predicate p ->
  forall (items ts fs : list val) (σ : state),
  heap σ = h ++ [ArrayObj ts; ArrayObj fs] ->
  exists σ',
    Functional.partition_loop predicate (VRef (length h)) (VRef (S (length h))) items σ =
      (Normal tt, σ') /\
    heap σ' = h ++ [ArrayObj (ts ++ List.filter p items);
                    ArrayObj (fs ++ List.filter (fun x => negb (p x)) items)].
Proof.
  intros Hp. induction items as [|item rest IH]; intros ts fs σ Hσ;
    cbn [Functional.partition_loop List.filter].
  { exists σ. by rewrite !app_nil_r. }
  unfold bind at 1. destruct (Hp item σ) as (σ1 & -> & Hσ1). cbv beta iota.
  rewrite Hσ in Hσ1. unfold bind at 1. destruct (p item); cbn [negb].
  - rewrite (push_collecting h ts [ArrayObj fs]) by done. cbv beta iota.
    destruct (IH (ts ++ [item]) fs
                (set_heap (collecting h (ts ++ [item]) [ArrayObj fs]) σ1) eq_refl)
      as (σ' & -> & Hσ').
    exists σ'. split; [done|]. by rewrite Hσ', <- app_assoc.
  - replace (S (length h)) with (length (h ++ [ArrayObj ts]))
      by (rewrite length_app; simpl; lia).
    rewrite (push_collecting (h ++ [ArrayObj ts]) fs [])
      by (rewrite Hσ1; unfold collecting; by rewrite <- app_assoc).
    cbv beta iota.
    destruct (IH ts (fs ++ [item])
                (set_heap (collecting (h ++ [ArrayObj ts]) (fs ++ [item]) []) σ1))
      as (σ' & Hrun & Hσ').
    { simpl. unfold collecting. by rewrite <- app_assoc. }
    rewrite length_app. cbn [length]. rewrite Nat.add_1_r. rewrite Hrun.
    exists σ'. split; [done|]. by rewrite Hσ', <- app_assoc.
Qed.

(** X18. With a predicate that answers [p v] for every element [v] and
    leaves the heap alone, [partition] returns a new pair of two new
    arrays: the first has the elements of the input the predicate
    accepts, the second those it refuses, both in the order of the
    input, so that every element of the input is in exactly one of
    them.  The input array is left as it is. *)
Theorem partition_spec (predicate : val -> M bool) (p : val -> bool) (σ : state)
    (l : loc) (es : list val) :
  answers predicate p ->
  heap σ !! l = Some (ArrayObj es) ->
  let n := length (heap σ) in
  (exists σ',
     Functional.partition (VRef l) predicate σ = (Normal (VRef (S (S n))), σ') /\
     heap σ' = heap σ ++ [ArrayObj (List.filter p es);
                          ArrayObj (List.filter (fun x => negb (p x)) es);
                          ArrayObj [VRef n; VRef (S n)]]) /\
  List.filter p es ++ List.filter (fun x => negb (p x)) es ≡ₚ es.
Proof.
  intros Hp Hl n. split.
  - unfold Functional.partition, bind at 1 2 3, alloc. cbv beta iota.
    unfold iterate, deref, bind at 1 2, ret. cbn [heap set_heap].
    rewrite (lookup_old _ _ _ _ (lookup_old _ [ArrayObj []] _ _ Hl)). simpl.
    destruct (partition_loop_spec predicate p (heap σ) Hp es [] []
                (set_heap ((heap σ ++ [ArrayObj []]) ++ [ArrayObj []])
                   (set_heap (heap σ ++ [ArrayObj []]) σ)))
      as (σ' & Hrun & Hσ').
    { simpl. by rewrite <- app_assoc. }
    rewrite length_app. cbn [length]. rewrite Nat.add_1_r. fold n. fold n in Hrun.
    rewrite Hrun. eexists. split.
    + rewrite Hσ'. rewrite length_app. cbn [length].
      replace (length (heap σ) + 2) with (S (S n)) by (unfold n; lia). done.
    + simpl. by rewrite <- app_assoc.
  - clear. induction es as [|x es IH]; [done|]. simpl. destruct (p x); simpl.
    + by constructor.
    + rewrite <- Permutation_middle. by constructor.
Qed.

Lemma partition_spec_witness :
  let σ := {| heap := [ArrayObj [VNumber 3; VNumber 8; VNumber 5; VNumber 9]];
              calls := [] |} in
  exists σ',
    Functional.partition (VRef 0) above5 σ = (Normal (VRef 3), σ') /\
    heap σ' = heap σ ++ [ArrayObj [VNumber 8; VNumber 9];
                         ArrayObj [VNumber 3; VNumber 5];
                         ArrayObj [VRef 1; VRef 2]].
Proof.
  intros σ.
  refine (proj1 (partition_spec above5
                   (fun v => match v with VNumber n => (5 <? n)%Z | _ => false end) σ 0
                   [VNumber 3; VNumber 8; VNumber 5; VNumber 9] _ eq_refl)).
  intros v τ. by eexists.
Defined.

Lemma array_index_at (σ : state) (l : loc) (es : list val) (i : nat) (x : val) :
  heap σ !! l = Some (ArrayObj es) -> es !! i = Some x ->
  array_index (VRef l) (Z.of_nat i) σ = (Normal x, σ).
Proof.
  intros Hl Hx. unfold array_index, deref, bind, ret. rewrite Hl.
  destruct (Z.leb_spec 0 (Z.of_nat i)); [|lia]. simpl. by rewrite Nat2Z.id, Hx.
Qed.

Lemma zip_loop_spec (h : list obj) (cs : list (string * val)) (l1 l2 : loc)
    (es1 es2 : list val) :
  h !! l1 = Some (ArrayObj es1) -> h !! l2 = Some (ArrayObj es2) ->
  forall count i,
  i + count <= length es1 -> i + count <= length es2 ->
  Functional.zip_loop count (Z.of_nat i) (VRef l1) (VRef l2) (VRef (length h))
    {| heap := collecting h (refs (S (length h)) i) (take i (zip_with pair_of es1 es2));
       calls := cs |} =
  (Normal (VRef (length h)),
   {| heap := collecting h (refs (S (length h)) (i + count))
                (take (i + count) (zip_with pair_of es1 es2));
      calls := cs |}).
Proof.
  intros H1 H2. induction count as [|count IH]; intros i Hi1 Hi2;
    cbn [Functional.zip_loop].
  { by rewrite Nat.add_0_r. }
  destruct (lookup_lt_is_Some_2 es1 i) as [a Ha]; [lia|].
  destruct (lookup_lt_is_Some_2 es2 i) as [b Hb]; [lia|].
  assert (Hlen : length (take i (zip_with pair_of es1 es2)) = i).
  { rewrite length_take, length_zip_with. lia. }
  unfold bind at 1.
  rewrite (array_index_at _ l1 es1 i a) by (try done; by apply lookup_old).
  cbv beta iota. unfold bind at 1.
  rewrite (array_index_at _ l2 es2 i b) by (try done; by apply lookup_old).
  cbv beta iota. unfold bind at 1, alloc. cbn [heap set_heap calls]. cbv beta iota.
  unfold bind at 1.
  rewrite (push_collecting h (refs (S (length h)) i)
             (take i (zip_with pair_of es1 es2) ++ [pair_of a b]))
    by (simpl; unfold collecting; by rewrite <- app_assoc).
  cbv beta iota. unfold set_heap. cbn [calls].
  replace (Z.of_nat i + 1)%Z with (Z.of_nat (S i)) by lia.
  replace (i + S count) with (S i + count) by lia.
  rewrite <- (IH (S i)) by lia. do 2 f_equal.
  unfold collecting. rewrite length_app. cbn [length]. rewrite Hlen.
  f_equal. f_equal.
  - unfold refs. rewrite seq_S, fmap_app.
    by replace (length h + S i) with (S (length h) + i) by lia.
  - symmetry. apply take_S_r. rewrite lookup_zip_with, Ha, Hb. done.
Qed.

(** X19. [zip] returns a new array with as many elements as the shorter
    of its two arguments: its element at [i] is a new two-element array
    of the elements at [i] of the first and of the second argument.
    What the longer argument has beyond that is dropped; the arguments
    are left as they are, and they may be the same array. *)
Theorem zip_spec (σ : state) (l1 l2 : loc) (es1 es2 : list val) :
  heap σ !! l1 = Some (ArrayObj es1) ->
  heap σ !! l2 = Some (ArrayObj es2) ->
  let n := length (heap σ) in
  let k := min (length es1) (length es2) in
  Functional.zip (VRef l1) (VRef l2) σ =
    (Normal (VRef n),
     set_heap (collecting (heap σ) (refs (S n) k) (zip_with pair_of es1 es2)) σ) /\
  length (zip_with pair_of es1 es2) = k /\
  (forall i a b, es1 !! i = Some a -> es2 !! i = Some b ->
     zip_with pair_of es1 es2 !! i = Some (ArrayObj [a; b])).
Proof.
  intros H1 H2 n k. splits.
  - unfold Functional.zip, array_length, deref, bind at 1 2, ret.
    rewrite H1. cbv beta iota. unfold bind at 1 2. rewrite H2. cbv beta iota.
    unfold Math_min, bind, alloc. simpl.
    replace (Z.to_nat (Z.min (Z.of_nat (length es1)) (Z.of_nat (length es2)))) with k
      by (unfold k; lia).
    rewrite <- (take_ge (zip_with pair_of es1 es2) k)
      by (rewrite length_zip_with; unfold k; lia).
    apply (zip_loop_spec (heap σ) (calls σ) l1 l2 es1 es2 H1 H2 k 0);
      unfold k; lia.
  - apply length_zip_with.
  - intros i a b Ha Hb. by rewrite lookup_zip_with, Ha, Hb.
Qed.

Lemma zip_spec_witness :
  let σ := {| heap := [ArrayObj [VNumber 1; VNumber 2; VNumber 3];
                       ArrayObj [VString "a"; VString "b"]];
              calls := [] |} in
  Functional.zip (VRef 0) (VRef 1) σ =
    (Normal (VRef 2),
     set_heap (heap σ ++ [ArrayObj [VRef 3; VRef 4];
                          ArrayObj [VNumber 1; VString "a"];
                          ArrayObj [VNumber 2; VString "b"]]) σ).
Proof.
  intros σ.
  exact (proj1 (zip_spec σ 0 1 [VNumber 1; VNumber 2; VNumber 3]
                  [VString "a"; VString "b"] eq_refl eq_refl)).
Defined.

(** ** [chunk] *)

Lemma array_length_at (σ : state) (l : loc) (es : list val) :
  heap σ !! l = Some (ArrayObj es) ->
  array_length (VRef l) σ = (Normal (Some (Z.of_nat (length es))), σ).
Proof. intros Hl. unfold array_length, deref, bind, ret. by rewrite Hl. Qed.

Lemma integers_arithmetic : arithmetic integers.
Proof.
  split; simpl; try done.
  intros i step stop Hstep Hi.
  apply Z.leb_le in Hstep. apply Z.ltb_lt in Hi. apply Z.ltb_lt. lia.
Qed.

Lemma halves_arithmetic : arithmetic halves.
Proof.
  split; simpl.
  - intros a b _ _ _. lia.
  - intros a b _ _. destruct (Z.ltb_spec (2 * a) (2 * b)), (Z.ltb_spec a b); lia.
  - intros a b _ _. destruct (Z.leb_spec (2 * a) (2 * b)), (Z.leb_spec a b); lia.
  - intros a _. f_equal. rewrite Z.mul_comm. apply Z.quot_mul. lia.
  - intros i step stop Hstep Hi.
    apply Z.leb_le in Hstep. apply Z.ltb_lt in Hi. apply Z.ltb_lt. lia.
Qed.

Lemma slice_piece (σ : state) (l : loc) (es : list val) (i sz : nat) :
  heap σ !! l = Some (ArrayObj es) -> i < length es -> 0 < sz ->
  slice (VRef l) (Finite (Z.of_nat i)) (Finite (Z.of_nat i + Z.of_nat sz)) σ =
  alloc (ArrayObj (take sz (drop i es))) σ.
Proof.
  intros Hl Hi Hsz. unfold slice, deref, bind. rewrite Hl. unfold default, id.
  cbv zeta. unfold relative_index, slice_bound.
  destruct (Z.ltb_spec (Z.of_nat i) 0); [lia|].
  destruct (Z.ltb_spec (Z.of_nat i + Z.of_nat sz) 0); [lia|].
  replace (Z.to_nat (Z.min (Z.of_nat i) (Z.of_nat (length es)))) with i by lia.
  do 2 f_equal.
  destruct (decide (i + sz <= length es)) as [Hle|Hgt].
  - f_equal. lia.
  - rewrite !take_ge; [done| |]; rewrite length_drop; lia.
Qed.

Lemma range_loop_stuck (N : Numbers) (Number_value : number N -> val)
    (Hadd : forall i step stop : number N,
       Number_le N step (Number_of_Z N 0) = true -> Number_lt N i stop = true ->
       Number_lt N (Number_add N i step) stop = true)
    (h : list obj) (cs : list (string * val)) (stop step : number N) :
  Number_le N step (Number_of_Z N 0) = true ->
  forall (fuel : nat) (i : number N) (acc : list val),
  Number_lt N i stop = true ->
  exists acc',
    Functional.range_loop N Number_value fuel (VRef (length h)) i stop step
      (filling h cs acc) =
      (Normal None, filling h cs acc').
Proof.
  intros Hstep. induction fuel as [|fuel IH]; intros i acc Hi.
  { by exists acc. }
  cbn [Functional.range_loop]. rewrite Hi.
  unfold bind at 1. rewrite push_last. cbv beta iota. apply IH.
  by apply Hadd.
Qed.

Section Arithmetic.
Variable N : Numbers.
Hypothesis HN : arithmetic N.

Lemma chunk_loop_spec (h : list obj) (cs : list (string * val)) (l : loc)
    (es : list val) (sz : nat) :
  h !! l = Some (ArrayObj es) -> 0 < sz ->
  safe (Z.of_nat (length es) + Z.of_nat sz) ->
  forall (fuel i : nat) (pieces : list (list val)),
  length (drop i es) < fuel -> i < length es + sz ->
  exists more : list (list val),
    Functional.chunk_loop N fuel (VRef l) (VRef (length h))
      (Number_of_Z N (Z.of_nat i)) (Number_of_Z N (Z.of_nat sz))
      {| heap := collecting h (refs (S (length h)) (length pieces)) (ArrayObj <$> pieces);
         calls := cs |} =
    (Normal (Some (VRef (length h))),
     {| heap := collecting h (refs (S (length h)) (length (pieces ++ more)))
                  (ArrayObj <$> pieces ++ more);
        calls := cs |}) /\
    concat more = drop i es /\
    (forall j p, more !! j = Some p ->
       p = take sz (drop (i + j * sz) es) /\ p <> []).
Proof.
  intros Hl Hsz Hsafe. unfold safe in Hsafe.
  induction fuel as [|fuel IH]; intros i pieces Hfuel Hi; [lia|].
  cbn [Functional.chunk_loop]. unfold bind at 1.
  rewrite (array_length_at _ l es) by (by apply lookup_old).
  cbv beta iota. unfold Number_lt_length.
  rewrite (lt_safe N HN) by (unfold safe; lia).
  destruct (Z.ltb_spec (Z.of_nat i) (Z.of_nat (length es))) as [Hlt|Hge].
  - rewrite !(add_safe N HN (Z.of_nat i) (Z.of_nat sz)) by (unfold safe; lia).
    rewrite !(integer_safe N HN) by (unfold safe; lia).
    unfold bind at 1.
    rewrite (slice_piece _ l es i sz) by (try lia; by apply lookup_old).
    unfold alloc. cbn [heap set_heap calls]. cbv beta iota. unfold bind at 1.
    rewrite (push_collecting h (refs (S (length h)) (length pieces))
               ((ArrayObj <$> pieces) ++ [ArrayObj (take sz (drop i es))]))
      by (simpl; unfold collecting; by rewrite <- app_assoc).
    cbv beta iota. unfold set_heap. cbn [calls].
    destruct (IH (i + sz) (pieces ++ [take sz (drop i es)])) as (more & Hrun & Hcat & Hat).
    { rewrite length_drop in *. lia. }
    { lia. }
    exists (take sz (drop i es) :: more). splits.
    + replace (Z.of_nat i + Z.of_nat sz)%Z with (Z.of_nat (i + sz)) by lia.
      rewrite <- app_assoc in Hrun. cbn [app] in Hrun. rewrite <- Hrun.
      assert (Hloc : length (collecting h (refs (S (length h)) (length pieces))
                               (ArrayObj <$> pieces)) = S (length h) + length pieces).
      { unfold collecting. rewrite length_app. cbn [length]. rewrite length_fmap. lia. }
      rewrite Hloc, length_app. cbn [length]. rewrite Nat.add_1_r.
      unfold refs. by rewrite seq_S, !fmap_app.
    + cbn [concat]. rewrite Hcat. rewrite <- drop_drop. apply take_drop.
    + intros [|j] p Hp.
      * injection Hp as <-. rewrite Nat.add_0_r. split; [done|].
        intros Hnil%(f_equal length). rewrite length_take, length_drop in Hnil.
        simpl in Hnil. lia.
      * destruct (Hat j p Hp) as [-> Hne]. split; [|done].
        do 2 f_equal. simpl. lia.
  - exists []. splits.
    + by rewrite app_nil_r.
    + simpl. symmetry. apply drop_ge. lia.
    + intros j p Hp. by rewrite lookup_nil in Hp.
Qed.

Lemma chunk_pieces (σ : state) (fuel : nat) (l : loc) (es : list val) (size : Z) :
  heap σ !! l = Some (ArrayObj es) ->
  (0 < size)%Z -> safe (Z.of_nat (length es) + size) -> length es < fuel ->
  exists pieces : list (list val),
    Functional.chunk N fuel (VRef l) (Number_of_Z N size) σ =
      (Normal (Some (VRef (length (heap σ)))),
       set_heap (collecting (heap σ) (refs (S (length (heap σ))) (length pieces))
                   (ArrayObj <$> pieces)) σ) /\
    concat pieces = es /\
    (forall j p, pieces !! j = Some p ->
       p = take (Z.to_nat size) (drop (j * Z.to_nat size) es) /\ p <> []).
Proof.
  intros Hl Hsize Hsafe Hfuel. unfold Functional.chunk.
  rewrite (le_safe N HN) by (unfold safe in *; lia).
  destruct (Z.leb_spec size 0); [lia|]. unfold bind, alloc. cbv beta iota.
  destruct (chunk_loop_spec (heap σ) (calls σ) l es (Z.to_nat size) Hl ltac:(lia)
              ltac:(by rewrite Z2Nat.id by lia) fuel 0 [])
    as (more & Hrun & Hcat & Hat).
  { by rewrite drop_0. }
  { lia. }
  exists more. splits; [|done|done].
  rewrite Z2Nat.id in Hrun by lia. exact Hrun.
Qed.

Variable Number_value : number N -> val.
Hypothesis Hvalue : forall a, safe a -> Number_value (Number_of_Z N a) = VNumber a.

Lemma range_loop_spec (h : list obj) (cs : list (string * val)) (stop step : Z) :
  (0 < step)%Z -> safe step -> safe stop -> safe (stop + step) ->
  forall (fuel : nat) (i : Z) (acc : list val),
  Z.to_nat (stop - i) < fuel -> safe i ->
  exists count : nat,
    Functional.range_loop N Number_value fuel (VRef (length h))
      (Number_of_Z N i) (Number_of_Z N stop) (Number_of_Z N step) (filling h cs acc) =
      (Normal (Some (VRef (length h))),
       filling h cs
         (acc ++ ((fun j => VNumber (i + Z.of_nat j * step)) <$> seq 0 count))) /\
    (forall j, j < count -> (i + Z.of_nat j * step < stop)%Z) /\
    (stop <= i + Z.of_nat count * step)%Z.
Proof.
  intros Hstep Hs1 Hs2 Hs3. unfold safe in Hs1, Hs2, Hs3.
  induction fuel as [|fuel IH]; intros i acc Hfuel Hi; [lia|].
  unfold safe in Hi.
  cbn [Functional.range_loop]. rewrite (lt_safe N HN) by (unfold safe; lia).
  destruct (Z.ltb_spec i stop) as [Hlt|Hge].
  - rewrite Hvalue by (unfold safe; lia).
    rewrite (add_safe N HN) by (unfold safe; lia).
    unfold bind at 1. rewrite push_last. cbv beta iota.
    destruct (IH (i + step)%Z (acc ++ [VNumber i])) as (count & -> & Hin & Hout);
      [lia|unfold safe; lia|].
    exists (S count). splits.
    + do 2 f_equal. rewrite <- app_assoc. f_equal. cbn [seq fmap list_fmap app].
      rewrite Z.mul_0_l, Z.add_0_r. f_equal.
      rewrite <- fmap_S_seq, <- list_fmap_compose. apply list_fmap_ext.
      intros _ j _. simpl. f_equal. lia.
    + intros [|j] Hj; [lia|]. specialize (Hin j ltac:(lia)). lia.
    + lia.
  - exists 0. splits.
    + by rewrite app_nil_r.
    + intros j Hj. lia.
    + lia.
Qed.

Lemma range_counts (σ : state) (fuel : nat) :
  let n := length (heap σ) in
  (forall start stop step,
     (0 < default 1%Z step)%Z -> safe start -> safe stop ->
     safe (default 1%Z step) -> safe (stop + default 1%Z step) ->
     Z.to_nat (stop - start) < fuel ->
     exists count : nat,
       Functional.range N Number_value fuel (Number_of_Z N start)
         (Some (Number_of_Z N stop)) (Number_of_Z N <$> step) σ =
         (Normal (Some (VRef n)),
          set_heap
            (heap σ ++
             [ArrayObj ((fun j => VNumber (start + Z.of_nat j * default 1%Z step)) <$>
                        seq 0 count)]) σ) /\
       (forall j, j < count -> (start + Z.of_nat j * default 1%Z step < stop)%Z) /\
       (stop <= start + Z.of_nat count * default 1%Z step)%Z) /\
  (forall stop,
     safe (stop + 1) -> safe stop -> Z.to_nat stop < fuel ->
     Functional.range N Number_value fuel (Number_of_Z N stop) None None σ =
       (Normal (Some (VRef n)),
        set_heap
          (heap σ ++
           [ArrayObj ((fun j => VNumber (Z.of_nat j)) <$> seq 0 (Z.to_nat stop))]) σ)).
Proof.
  intros n. split.
  - intros start stop step Hstep Hs1 Hs2 Hs3 Hs4 Hfuel.
    unfold Functional.range. cbv zeta beta iota. unfold bind, alloc.
    replace (default (Number_of_Z N 1) (Number_of_Z N <$> step))
      with (Number_of_Z N (default 1%Z step)) by (by destruct step).
    destruct (range_loop_spec (heap σ) (calls σ) stop (default 1%Z step) Hstep
                Hs3 Hs2 Hs4 fuel start [] Hfuel Hs1) as (count & Hrun & Hin & Hout).
    exists count. splits; [|done|done]. exact Hrun.
  - intros stop Hs1 Hs2 Hfuel. unfold Functional.range. cbv zeta beta iota.
    unfold bind, alloc.
    destruct (range_loop_spec (heap σ) (calls σ) stop 1 ltac:(lia)
                ltac:(unfold safe; lia) Hs2 Hs1
                fuel 0 [] ltac:(rewrite Z.sub_0_r; exact Hfuel) ltac:(unfold safe; lia))
      as (count & Hrun & Hin & Hout).
    assert (count = Z.to_nat stop) as <-.
    { destruct count as [|c]; [lia|]. specialize (Hin c ltac:(lia)). lia. }
    etrans; [exact Hrun|]. do 2 f_equal. unfold filling, set_heap. do 4 f_equal.
    apply list_fmap_ext. intros _ j _. f_equal. lia.
Qed.
End Arithmetic.

(** X20. The size of [chunk] is a number.  With a size that is a
    positive integer (the length of the array and the size together at
    most [2 ^ 53], so that the counter is exact) and enough fuel for
    the length of the array, [chunk] returns a new array of new
    arrays: the piece at [j] has the elements of the input from
    [j * size] up to, not including, [(j + 1) * size] or the end of
    the input, no piece is empty, and the pieces in a row are the
    input.  With any number that is [<= 0] as the size it returns a
    new empty array without reading its first argument, which need not
    be an array then. *)
Theorem chunk_spec (N : Numbers) (σ : state) (fuel : nat) :
  let n := length (heap σ) in
  (arithmetic N ->
   forall l es size, heap σ !! l = Some (ArrayObj es) ->
     (0 < size)%Z -> safe (Z.of_nat (length es) + size) -> length es < fuel ->
     exists pieces : list (list val),
       Functional.chunk N fuel (VRef l) (Number_of_Z N size) σ =
         (Normal (Some (VRef n)),
          set_heap (collecting (heap σ) (refs (S n) (length pieces))
                      (ArrayObj <$> pieces)) σ) /\
       concat pieces = es /\
       (forall j p, pieces !! j = Some p ->
          p = take (Z.to_nat size) (drop (j * Z.to_nat size) es) /\ p <> [])) /\
  (forall array (size : number N), Number_le N size (Number_of_Z N 0) = true ->
     Functional.chunk N fuel array size σ =
       (Normal (Some (VRef n)), set_heap (heap σ ++ [ArrayObj []]) σ)).
Proof.
  intros n. split.
  - intros HN l es size. by apply chunk_pieces.
  - intros array size Hsize. unfold Functional.chunk. by rewrite Hsize.
Qed.



Lemma chunk_spec_witness :
  let σ := {| heap := [ArrayObj [VNumber 1; VNumber 2; VNumber 3; VNumber 4; VNumber 5]];
              calls := [] |} in
  (exists pieces : list (list val),
     Functional.chunk halves 6 (VRef 0) (Number_of_Z halves 2) σ =
       (Normal (Some (VRef 1)),
        set_heap (collecting (heap σ) (refs 2 (length pieces)) (ArrayObj <$> pieces)) σ) /\
     concat pieces = [VNumber 1; VNumber 2; VNumber 3; VNumber 4; VNumber 5] /\
     (forall j p, pieces !! j = Some p ->
        p = take 2 (drop (j * 2) [VNumber 1; VNumber 2; VNumber 3; VNumber 4; VNumber 5]) /\
        p <> [])) /\
  Functional.chunk halves 0 VNull (-1)%Z σ =
    (Normal (Some (VRef 1)), set_heap (heap σ ++ [ArrayObj []]) σ).
Proof.
  intros σ. split.
  - refine (proj1 (chunk_spec halves σ 6) halves_arithmetic 0
              [VNumber 1; VNumber 2; VNumber 3; VNumber 4; VNumber 5] 2%Z eq_refl _ _ _).
    + lia.
    + unfold safe. simpl. lia.
    + simpl. lia.
  - refine (proj2 (chunk_spec halves σ 0) VNull (-1)%Z _). reflexivity.
Defined.

(** [chunk([1, 2], 0.5)]: the counter takes the values 0, 0.5, 1 and
    1.5, [slice] truncates its bounds, and every other piece is
    empty. *)
Example chunk_half :
  Functional.chunk halves 5 (VRef 0) 1%Z
    {| heap := [ArrayObj [VNumber 1; VNumber 2]]; calls := [] |} =
  (Normal (Some (VRef 1)),
   {| heap := [ArrayObj [VNumber 1; VNumber 2];
               ArrayObj [VRef 2; VRef 3; VRef 4; VRef 5];
               ArrayObj []; ArrayObj [VNumber 1]; ArrayObj []; ArrayObj [VNumber 2]];
      calls := [] |}).
Proof. reflexivity. Qed.


(** ** [memoize] *)




(** ** [throttle] *)

Lemma logged_run (v : val) (σ : state) :
  logged [v] σ =
  (Normal VUndefined, {| heap := heap σ; calls := calls σ ++ [("fn", v)] |}).
Proof. done. Qed.

Lemma last_cons_default (ran : list Z) : forall a d : Z,
  List.last (a :: ran) d = List.last ran a.
Proof.
  induction ran as [|r rs IH]; intros a d; [done|].
  change (List.last (a :: r :: rs) d) with (List.last (r :: rs) d).
  by rewrite !IH.
Qed.

(** X23. Of a series of calls of a throttled function, those that reach
    the function are spaced: each comes at least the interval after
    the one that reached it before, and the first at least the interval
    after the initial [lastCall]; this holds whatever the clock reads,
    also when it runs backwards.  The calls reach the function in the
    order they were made, the others do nothing, and [lastCall] ends as
    the time of the last call that reached the function. *)
Theorem throttle_spacing (interval : Z) (clock : list Z) :
  forall (lastCall : Z) (σ : state),
  exists ran : list Z,
    throttle_calls logged interval lastCall clock σ =
      (Normal (List.last ran lastCall),
       {| heap := heap σ;
          calls := calls σ ++ ((fun t => ("fn", VNumber t)) <$> ran) |}) /\
    ran `sublist_of` clock /\
    spaced interval lastCall ran.
Proof.
  induction clock as [|now rest IH]; intros lastCall σ.
  { exists []. simpl. rewrite app_nil_r. by destruct σ. }
  cbn [throttle_calls]. unfold Functional.throttle.
  destruct (Z.leb_spec interval (now - lastCall)) as [Hrun|Hskip].
  - unfold bind at 1 2. rewrite logged_run. unfold ret at 1.
    destruct (IH now {| heap := heap σ; calls := calls σ ++ [("fn", VNumber now)] |})
      as (ran & -> & Hsub & Hsp).
    exists (now :: ran). splits.
    + cbn [heap calls]. rewrite <- app_assoc. by rewrite last_cons_default.
    + by apply sublist_skip.
    + done.
  - unfold bind at 1, ret.
    destruct (IH lastCall σ) as (ran & -> & Hsub & Hsp).
    exists ran. splits; [done| |done]. by apply sublist_cons.
Qed.

(** * The error side and the way out of a container *)

Lemma get_after_guard (tag : string) (p : obj -> val) (r : val) (σ : state)
    (b : bool) (σ' : state) :
  (t <- get prop_tag r ;; ret (strict_eq t (VString tag))) σ = (Normal b, σ') ->
  exists x, get p r σ = (Normal x, σ).
Proof.
  unfold get, deref, bind, ret, throw_new, throw, alloc.
  destruct r; simpl; try discriminate; eauto.
Qed.

(** X24. [orElse] is to the error side what [andThen] is to the success
    side: recovering from a new [err(e)] is the call [f(e)], and
    recovery is associative, for every value and all callbacks.  The
    same holds for [orElse] of [Option], whose callbacks take no
    argument. *)
Theorem orElse_laws (f g : val -> M val) (f' g' : M val) (σ : state) :
  (forall e, (r <- Result.err e ;; Result.orElse r f) σ = (r <- Result.err e ;; f e) σ) /\
  (forall r,
     (r1 <- Result.orElse r f ;; Result.orElse r1 g) σ =
     Result.orElse r (fun e => r1 <- f e ;; Result.orElse r1 g) σ) /\
  (forall o,
     (o1 <- Option.orElse o f' ;; Option.orElse o1 g') σ =
     Option.orElse o (o1 <- f' ;; Option.orElse o1 g') σ).
Proof.
  splits.
  - intros e. unfold bind, Result.err, alloc. simpl.
    by rewrite (Result_orElse_err _ _ e) by apply lookup_new.
  - intros r.
    destruct (Result_isErr_cases r σ) as [(l & e & -> & Hl)|[Hr|(x & σ' & Hr)]].
    + unfold bind at 1. by rewrite !(Result_orElse_err _ _ e) by done.
    + unfold bind at 1. unfold Result.orElse, bind. rewrite !Hr.
      unfold ret. simpl. by rewrite Hr.
    + unfold bind at 1. unfold Result.orElse, bind. by rewrite !Hr.
  - intros o.
    destruct (Option_isSome_cases o σ) as [(l & v & -> & Hl)|[Ho|(x & σ' & Ho)]].
    + unfold bind at 1. by rewrite !(Option_orElse_some _ _ v) by done.
    + unfold bind at 1. unfold Option.orElse at 1 3, bind at 1 3. rewrite !Ho.
      unfold bind. by rewrite Ho.
    + unfold bind at 1. unfold Option.orElse, bind. by rewrite !Ho.
Qed.

(** X25. The ways out of a container are cases of [match]:
    [unwrapOr] is [unwrapOrElse] with a constant function, and
    [unwrapOrElse] is [match] with the identity on the success side;
    [unwrap] of [Option] is [expect] with a fixed message, and
    [toNullable] and [toUndefined] are [unwrapOr] with [null] and
    [undefined].  This holds for every value, a container or not. *)
Theorem unwrap_family (σ : state) (r d : val) :
  Result.unwrapOr r d σ = Result.unwrapOrElse r (fun _ => ret d) σ /\
  (forall fn,
     Result.unwrapOrElse r fn σ =
     Result.match_ r {| Result.pat_ok := ret; Result.pat_err := fn |} σ) /\
  Option.unwrapOr r d σ = Option.unwrapOrElse r (ret d) σ /\
  (forall fn,
     Option.unwrapOrElse r fn σ =
     Option.match_ r {| Option.pat_some := ret; Option.pat_none := fn |} σ) /\
  Option.unwrap r σ = Option.expect r "Called unwrap on a None value" σ /\
  Option.toNullable r σ = Option.unwrapOr r VNull σ /\
  Option.toUndefined r σ = Option.unwrapOr r VUndefined σ.
Proof.
  splits; try done.
  - destruct (Result_isOk_cases r σ) as [(l & v & -> & Hl)|[Hr|(x & σ' & Hr)]].
    + by rewrite (Result_unwrapOr_ok _ _ v), (Result_unwrapOrElse_ok _ _ v).
    + unfold Result.unwrapOr, Result.unwrapOrElse, bind. rewrite Hr.
      by destruct (get_after_guard "Ok" prop_error r σ false σ Hr) as [e ->].
    + unfold Result.unwrapOr, Result.unwrapOrElse, bind. by rewrite Hr.
  - intros fn. unfold Result.unwrapOrElse, Result.match_, bind.
    destruct (Result.isOk r σ) as [[[|]|x] s]; simpl; try done.
    unfold ret. by destruct (get prop_value r s) as [[v|x] s'].
  - intros fn. unfold Option.unwrapOrElse, Option.match_, bind.
    destruct (Option.isSome r σ) as [[[|]|x] s]; simpl; try done.
    unfold ret. by destruct (get prop_value r s) as [[v|x] s'].
Qed.

(** X26. With a first predicate that leaves the heap as it is,
    filtering an [Option] twice is filtering it once with the
    conjunction of the predicates, the second predicate being asked
    only when the first holds.  This relies on [none] being a
    [None]. *)
Theorem Option_filter_filter (p q : val -> M bool) (σ : state) (o : val) :
  (forall v τ c τ', p v τ = (Normal c, τ') -> heap τ' = heap τ) ->
  heap σ !! Option.none_loc = Some NoneObj ->
  (o1 <- Option.filter o p ;; Option.filter o1 q) σ =
  Option.filter o (fun v => c <- p v ;; if c then q v else ret false) σ.
Proof.
  intros Hp Hn.
  destruct (Option_isSome_cases o σ) as [(l & v & -> & Hl)|[Ho|(x & σ' & Ho)]].
  - unfold bind at 1. rewrite !(Option_filter_some _ _ v) by done.
    unfold bind at 1 2 3. destruct (p v σ) as [[[]|x] σ1] eqn:Hpv; [| |done].
    + unfold ret at 1. rewrite (Option_filter_some _ _ v) by (by rewrite (Hp _ _ _ _ Hpv)).
      done.
    + unfold ret at 1 3. cbv beta iota.
      apply Option_filter_none. by rewrite (Hp _ _ _ _ Hpv).
  - unfold bind at 1. unfold Option.filter at 1 3, bind at 1 2 4 5. rewrite !Ho.
    unfold ret. cbv beta iota. by apply Option_filter_none.
  - unfold bind at 1. unfold Option.filter, bind. by rewrite !Ho.
Qed.

Lemma Option_filter_filter_witness :
  let σ := {| heap := [NoneObj; SomeObj (VNumber 7)]; calls := [] |} in
  (o1 <- Option.filter (VRef 1) above5 ;; Option.filter o1 above5) σ =
  Option.filter (VRef 1) (fun v => c <- above5 v ;; if c then above5 v else ret false) σ.
Proof.
  intros σ. refine (Option_filter_filter above5 above5 σ (VRef 1) _ eq_refl).
  intros v τ c τ' H. by injection H as _ <-.
Defined.

(** ** [groupBy] *)

Lemma filter_snoc_key (k : val -> string) (key : string) (done : list val) (item : val) :
  filter (fun x => k x = key) (done ++ [item]) =
  filter (fun x => k x = key) done ++ (if decide (k item = key) then [item] else []).
Proof.
  rewrite filter_app. by f_equal.
Qed.

Lemma filter_no_key (k : val -> string) (key : string) (done : list val) :
  key ∉ (k <$> done) -> filter (fun x => k x = key) done = [].
Proof.
  induction done as [|x done IH]; [done|].
  rewrite fmap_cons. intros [Hne Hout]%not_elem_of_cons.
  rewrite filter_cons_False by congruence. by apply IH.
Qed.

Lemma grouped_old (k : val -> string) (h0 : nat) (done : list val)
    (groups : gmap string val) (h : list obj) (item : val) (lg : loc) :
  grouped k h0 done groups h ->
  k item ∈ (k <$> done) ->
  groups !! k item = Some (VRef lg) ->
  grouped k h0 (done ++ [item]) groups
    (<[lg := ArrayObj (filter (fun x => k x = k item) done ++ [item])]> h).
Proof.
  intros (Hin & Hout & Hinj) Hkey Hg. unfold grouped. splits.
  - intros key Hk.
    assert (key ∈ (k <$> done)) as Hk'.
    { rewrite fmap_app in Hk. apply elem_of_app in Hk as [Hk|Hk]; [done|].
      apply list_elem_of_singleton in Hk. by subst. }
    destruct (Hin key Hk') as (lg' & Hg' & Hge & Hh).
    exists lg'. splits; [done..|]. rewrite filter_snoc_key.
    destruct (decide (k item = key)) as [<-|Hne].
    + assert (lg' = lg) as -> by congruence.
      apply list_lookup_insert_eq. by eapply lookup_lt_Some.
    + rewrite app_nil_r. rewrite list_lookup_insert_ne; [done|].
      intros <-. apply Hne. by eapply Hinj.
  - intros key Hk. apply Hout. intros Hk'. apply Hk.
    rewrite fmap_app. apply elem_of_app. by left.
  - done.
Qed.

Lemma grouped_new (k : val -> string) (h0 : nat) (done : list val)
    (groups : gmap string val) (h : list obj) (item : val) :
  grouped k h0 done groups h ->
  k item ∉ (k <$> done) ->
  h0 <= length h ->
  grouped k h0 (done ++ [item]) (<[k item := VRef (length h)]> groups)
    (h ++ [ArrayObj [item]]).
Proof.
  intros (Hin & Hout & Hinj) Hkey Hh0.
  assert (Hold : forall key, groups !! key = Some (VRef (length h)) -> False).
  { intros key Hg. destruct (decide (key ∈ (k <$> done))) as [Hk|Hk].
    - destruct (Hin key Hk) as (lg & Hg' & _ & Hh). apply lookup_lt_Some in Hh.
      assert (lg = length h) by congruence. lia.
    - by rewrite (Hout key Hk) in Hg. }
  unfold grouped. splits.
  - intros key Hk. rewrite filter_snoc_key.
    destruct (decide (k item = key)) as [<-|Hne].
    + exists (length h). rewrite lookup_insert_eq. splits; [done..|].
      rewrite filter_no_key by done. apply lookup_new.
    + assert (key ∈ (k <$> done)) as Hk'.
      { rewrite fmap_app in Hk. apply elem_of_app in Hk as [Hk|Hk]; [done|].
        apply list_elem_of_singleton in Hk. by subst. }
      destruct (Hin key Hk') as (lg & Hg & Hge & Hh).
      exists lg. rewrite lookup_insert_ne by done. splits; [done..|].
      rewrite app_nil_r. by apply lookup_old.
  - intros key Hk. rewrite fmap_app in Hk.
    apply not_elem_of_app in Hk as [Hk Hk']. apply not_elem_of_cons in Hk' as [Hne _].
    rewrite lookup_insert_ne by done. by apply Hout.
  - intros key1 key2 lg. rewrite !lookup_insert.
    destruct (decide (k item = key1)) as [<-|H1], (decide (k item = key2)) as [<-|H2];
      try done.
    + intros [= <-] Hg. by destruct (Hold _ Hg).
    + intros Hg [= <-]. by destruct (Hold _ Hg).
    + apply Hinj.
Qed.

Lemma groupBy_loop_spec (proto : gmap string val) (keyFn : val -> M string)
    (k : val -> string) (h0 : nat) :
  answers keyFn k ->
  forall (items done : list val) (groups : gmap string val) (σ : state),
  (forall x, x ∈ items -> proto !! k x = None) ->
  h0 <= length (heap σ) ->
  grouped k h0 done groups (heap σ) ->
  exists groups' σ',
    Functional.groupBy_loop proto keyFn groups items σ = (Normal groups', σ') /\
    grouped k h0 (done ++ items) groups' (heap σ') /\
    length (heap σ) <= length (heap σ') /\
    (forall l, l < h0 -> heap σ' !! l = heap σ !! l).
Proof.
  intros Hk. induction items as [|item rest IH]; intros done groups σ Hproto Hh0 Hgr;
    cbn [Functional.groupBy_loop].
  { exists groups, σ. by rewrite app_nil_r. }
  unfold bind at 1. destruct (Hk item σ) as (σ1 & -> & Hσ1). cbv beta iota zeta.
  assert (Hrest : forall x, x ∈ rest -> proto !! k x = None).
  { intros x Hx. apply Hproto. by apply list_elem_of_further. }
  unfold object_get. destruct (decide (k item ∈ (k <$> done))) as [Hin|Hout].
  - destruct Hgr as (Hgin & Hgout & Hginj).
    destruct (Hgin _ Hin) as (lg & Hg & Hge & Hh). rewrite Hg. cbn [ToBoolean].
    unfold bind at 1, ret at 1. cbv beta iota. rewrite (insert_id _ _ _ Hg).
    unfold bind at 1, push, deref, bind at 1. rewrite Hσ1, Hh. unfold default, id.
    cbv beta iota. rewrite Hσ1.
    destruct (IH (done ++ [item]) groups
                (set_heap (<[lg := ArrayObj (filter (fun x => k x = k item) done ++ [item])]>
                             (heap σ)) σ1) Hrest)
      as (groups' & σ' & Hrun & Hgr' & Hlen & Hlow).
    { simpl. by rewrite length_insert. }
    { simpl. by apply grouped_old. }
    exists groups', σ'. rewrite <- app_assoc in Hgr'. splits; [exact Hrun|done| |].
    + simpl in Hlen. by rewrite length_insert in Hlen.
    + intros l Hl. rewrite (Hlow l Hl). simpl. apply list_lookup_insert_ne. lia.
  - destruct Hgr as (Hgin & Hgout & Hginj). rewrite (Hgout _ Hout).
    rewrite (Hproto item) by apply list_elem_of_here. cbn [default ToBoolean].
    unfold bind at 1, alloc at 1. cbv beta iota. rewrite Hσ1.
    unfold bind at 1, push, deref, bind at 1. cbn [heap set_heap].
    rewrite lookup_new. unfold default, id. cbv beta iota. cbn [heap set_heap app].
    rewrite insert_new.
    destruct (IH (done ++ [item]) (<[k item := VRef (length (heap σ))]> groups)
                (set_heap (heap σ ++ [ArrayObj [item]])
                   (set_heap (heap σ ++ [ArrayObj []]) σ1)) Hrest)
      as (groups' & σ' & Hrun & Hgr' & Hlen & Hlow).
    { simpl. rewrite length_app. lia. }
    { simpl. by apply grouped_new. }
    exists groups', σ'. rewrite <- app_assoc in Hgr'. splits; [exact Hrun|done| |].
    + simpl in Hlen. rewrite length_app in Hlen. lia.
    + intros l Hl. rewrite (Hlow l Hl). simpl. apply lookup_app_l. lia.
Qed.

Lemma groupBy_loop_app (proto : gmap string val) (keyFn : val -> M string)
    (rest : list val) :
  forall (items : list val) (g : gmap string val) (τ : state),
  Functional.groupBy_loop proto keyFn g (items ++ rest) τ =
  (g' <- Functional.groupBy_loop proto keyFn g items ;;
   Functional.groupBy_loop proto keyFn g' rest) τ.
Proof.
  induction items as [|y items IH]; intros g τ; [done|].
  cbn [app Functional.groupBy_loop]. unfold bind.
  destruct (keyFn y τ) as [[key|e] τ1]; [|done].
  destruct ((if ToBoolean (object_get proto g key) then ret (object_get proto g key)
             else alloc (ArrayObj [])) τ1) as [[group|e] τ2]; [|done].
  destruct (push group y τ2) as [[[]|e] τ3]; [|done]. apply IH.
Qed.

(** X27. With a key function that answers the key [k v] of every
    element [v] and leaves the heap alone, and when no key is the name
    of a property of [Object.prototype], [groupBy] returns an object
    with one own property for every key that occurs: a new array of the
    elements with that key, in the order of the input; the arrays of
    two keys are different objects, and the objects there were are left
    as they are.  An element whose key names a property of
    [Object.prototype] (a function, such as [toString]) makes the call
    throw. *)
Theorem groupBy_spec (proto : gmap string val) (keyFn : val -> M string)
    (k : val -> string) (σ : state) (l : loc) :
  answers keyFn k ->
  (forall es, heap σ !! l = Some (ArrayObj es) ->
     (forall x, x ∈ es -> proto !! k x = None) ->
     exists groups σ',
       Functional.groupBy proto (VRef l) keyFn σ = (Normal groups, σ') /\
       grouped k (length (heap σ)) es groups (heap σ') /\
       heap σ `prefix_of` heap σ') /\
  (forall pre x post (lf : loc),
     heap σ !! l = Some (ArrayObj (pre ++ x :: post)) ->
     (forall y, y ∈ pre -> proto !! k y = None) ->
     proto !! k x = Some (VRef lf) -> heap σ !! lf = Some PlainObj ->
     throws (Functional.groupBy proto (VRef l) keyFn σ)).
Proof.
  intros Hk.
  assert (Hempty : grouped k (length (heap σ)) [] ∅ (heap σ)).
  { unfold grouped. splits.
    - by intros key ?%elem_of_nil.
    - intros key _. apply lookup_empty.
    - intros key1 key2 lg H. by rewrite lookup_empty in H. }
  split.
  - intros es Hl Hproto.
    unfold Functional.groupBy, iterate, deref, bind at 1 2, ret at 1. rewrite Hl.
    cbn [default]. cbv beta iota.
    destruct (groupBy_loop_spec proto keyFn k (length (heap σ)) Hk es [] ∅ σ
                Hproto ltac:(lia) Hempty) as (groups & σ' & Hrun & Hgr & Hlen & Hlow).
    exists groups, σ'. splits; [done|done|].
    exists (drop (length (heap σ)) (heap σ')).
    rewrite <- (take_drop (length (heap σ)) (heap σ')) at 1. f_equal.
    apply list_eq. intros i. rewrite lookup_take.
    destruct (decide (i < length (heap σ))) as [Hi|Hi]; [by apply Hlow|].
    symmetry. apply lookup_ge_None. lia.
  - intros pre x post lf Hl Hpre Hx Hlf.
    unfold Functional.groupBy, iterate, deref, bind at 1 2, ret at 1. rewrite Hl.
    unfold default, id. cbv beta iota.
    destruct (groupBy_loop_spec proto keyFn k (length (heap σ)) Hk pre [] ∅ σ
                Hpre ltac:(lia) Hempty) as (groups & σ1 & Hrun & Hgr & Hlen & Hlow).
    rewrite groupBy_loop_app. unfold bind at 1. rewrite Hrun. cbv beta iota.
    cbn [Functional.groupBy_loop]. unfold bind at 1.
    destruct (Hk x σ1) as (σ2 & -> & Hσ2). cbv beta iota zeta.
    destruct Hgr as (Hgin & Hgout & Hginj). unfold object_get.
    rewrite Hgout.
    2:{ simpl. intros (y & Hy & Hin)%list_elem_of_fmap.
        rewrite Hy, (Hpre y Hin) in Hx. done. }
    rewrite Hx. unfold default, id. cbn [ToBoolean]. unfold bind, ret, push, deref.
    unfold bind. rewrite Hσ2, Hlow by (by eapply lookup_lt_Some).
    unfold loc in *. rewrite Hlf.
    unfold throws, throw_new, bind, alloc, throw. simpl. by eexists.
Qed.

Lemma groupBy_spec_witness :
  let σ := {| heap := [ArrayObj [VString "ab"; VString "c"; VString "de"]]; calls := [] |} in
  exists groups σ',
    Functional.groupBy ∅ (VRef 0) (fun v => ret (by_length v)) σ = (Normal groups, σ') /\
    grouped by_length 1 [VString "ab"; VString "c"; VString "de"] groups (heap σ') /\
    heap σ `prefix_of` heap σ'.
Proof.
  intros σ.
  refine (proj1 (groupBy_spec ∅ (fun v => ret (by_length v)) by_length σ 0 _)
            [VString "ab"; VString "c"; VString "de"] eq_refl _).
  - intros v τ. by eexists.
  - intros x _. apply lookup_empty.
Defined.


(** ** [safeProp] *)

(** X28. [safeProp] returns [none] exactly when reading the property
    gives [undefined], which is also the case of an own property that
    is there with the value [undefined]; every other value comes back
    in a new [Some], [null] included, where [fromNullable] of the same
    value answers [none].  A property the object inherits is found like
    an own one. *)
Theorem safeProp_spec (proto own : gmap string val) (key : string) (σ : state) :
  (object_get proto own key = VUndefined <->
   Functional.safeProp proto own key σ = (Normal Option.none, σ)) /\
  (forall v, object_get proto own key = v -> v <> VUndefined ->
     Functional.safeProp proto own key σ = Option.some v σ) /\
  (own !! key = Some VUndefined ->
     Functional.safeProp proto own key σ = (Normal Option.none, σ)) /\
  (own !! key = Some VNull ->
     Functional.safeProp proto own key σ = Option.some VNull σ /\
     Option.fromNullable VNull σ = (Normal Option.none, σ)) /\
  (forall f, own !! key = None -> proto !! key = Some f -> f <> VUndefined ->
     Functional.safeProp proto own key σ = Option.some f σ).
Proof.
  assert (Hsome : forall v, object_get proto own key = v -> v <> VUndefined ->
            Functional.safeProp proto own key σ = Option.some v σ).
  { intros v Hv Hne. unfold Functional.safeProp, strict_eq. rewrite Hv.
    by rewrite bool_decide_eq_false_2. }
  assert (Hnone : object_get proto own key = VUndefined ->
            Functional.safeProp proto own key σ = (Normal Option.none, σ)).
  { intros Hv. unfold Functional.safeProp, strict_eq. rewrite Hv.
    by rewrite bool_decide_eq_true_2. }
  splits.
  - split; [done|]. intros Hrun.
    destruct (decide (object_get proto own key = VUndefined)) as [|Hne]; [done|].
    rewrite (Hsome _ eq_refl Hne) in Hrun. unfold Option.some, alloc in Hrun.
    injection Hrun as _ Hσ. apply (f_equal (fun s => length (heap s))) in Hσ.
    simpl in Hσ. rewrite length_app in Hσ. simpl in Hσ. lia.
  - done.
  - intros Hown. apply Hnone. unfold object_get. by rewrite Hown.
  - intros Hown. split; [|done]. apply Hsome; [|done]. unfold object_get. by rewrite Hown.
  - intros f Hown Hproto Hne. apply Hsome; [|done]. unfold object_get.
    by rewrite Hown, Hproto.
Qed.

Lemma safeProp_spec_witness :
  Functional.safeProp ∅ (<["a" := VNull]> ∅) "a" Option.loaded =
    Option.some VNull Option.loaded /\
  Option.fromNullable VNull Option.loaded = (Normal Option.none, Option.loaded).
Proof.
  exact (proj1 (proj2 (proj2 (proj2
           (safeProp_spec ∅ (<["a" := VNull]> ∅) "a" Option.loaded))))
           (lookup_insert_eq ∅ "a" VNull)).
Defined.
